(** * spf-flattener: a shallow embedding of the SPF pipeline

    The development follows the Go sources of the repository:

    - [unnamed/part_007], package [spf]  ([NormalizeSPF], [isSPFMechanism])
    - [internal/spf/split.go]        ([SplitAndChainSPF])
    - [internal/spf/cidr.go]         (the CIDR aggregator)
    - [internal/spf/core_flatten.go] ([CountDNSLookups], [FlattenSPF],
                                      [FlattenSPFWithThreshold])
    - [internal/porkbun/client.go]   ([redactSensitive], [RetrieveRecords];
                                      further down, the backup manager's
                                      [calculateBackoffDelay], [withRetry])
    - [unnamed/part_010], package [main]  (the flatten command: the stale
                                      [spfN] delete loop and the
                                      create/update loop)

    Go strings are byte strings: they are modelled by [string], whose
    characters are the 256 values of [ascii].  Go maps are modelled by
    stdpp's [gmap], Go sets ([map[string]bool]) by [gset].  Loops that the
    Go code does not bound are given a [fuel] argument and return
    [OutOfFuel] when it is exhausted. *)

From Stdlib Require Import ZArith List String Ascii Bool Lia QArith Sorted.
From stdpp Require Import base option gmap strings list fin_maps.

Import ListNotations.
Local Open Scope string_scope.
Local Open Scope list_scope.

(** ** Go's [strings] package (the part the repository uses) *)

Module GoStrings.

(** [len(s)]: the number of bytes. *)
Definition len (s : string) : nat := String.length s.

(** [strings.HasPrefix(s, prefix)]. *)
Definition HasPrefix (s prefix : string) : bool := String.prefix prefix s.

(** [strings.TrimPrefix(s, prefix)]. *)
Fixpoint dropBytes (n : nat) (s : string) : string :=
  match n, s with
  | O, _ => s
  | S n', String _ s' => dropBytes n' s'
  | S _, EmptyString => EmptyString
  end.

Definition TrimPrefix (s prefix : string) : string :=
  if HasPrefix s prefix then dropBytes (len prefix) s else s.

(** [s[:n]] for [0 <= n <= len(s)]. *)
Fixpoint takeBytes (n : nat) (s : string) : string :=
  match n, s with
  | O, _ => EmptyString
  | S n', String c s' => String c (takeBytes n' s')
  | S _, EmptyString => EmptyString
  end.

(** [strings.HasSuffix(s, suffix)]:
    [len(s) >= len(suffix) && s[len(s)-len(suffix):] == suffix]. *)
Definition HasSuffix (s suffix : string) : bool :=
  (len suffix <=? len s)%nat &&
  String.eqb (dropBytes (len s - len suffix) s) suffix.

(** [strings.TrimSuffix(s, suffix)]. *)
Definition TrimSuffix (s suffix : string) : string :=
  if HasSuffix s suffix then takeBytes (len s - len suffix) s else s.

(** [strings.Contains(s, substr)]. *)
Fixpoint Contains (s substr : string) : bool :=
  HasPrefix s substr ||
  match s with
  | EmptyString => false
  | String _ s' => Contains s' substr
  end.

(** [strings.Join(elems, sep)]. *)
Definition Join (elems : list string) (sep : string) : string :=
  String.concat sep elems.

(** The ASCII white space of [unicode.IsSpace]: tab, line feed, vertical
    tab, form feed, carriage return and space.  The white space of Unicode
    beyond ASCII (U+0085, U+00A0 and the like) is not modelled: strings are
    sequences of bytes here, and SPF records are ASCII text. *)
Definition isSpace (c : ascii) : bool :=
  let n := nat_of_ascii c in
  ((9 <=? n)%nat && (n <=? 13)%nat) || (n =? 32)%nat.

(** [strings.Fields(s)]: the maximal runs of non-space bytes, in order. *)
Fixpoint Fields (s : string) : list string :=
  match s with
  | EmptyString => []
  | String c s' =>
      if isSpace c then Fields s'
      else match s' with
           | EmptyString => [String c EmptyString]
           | String c' _ =>
               if isSpace c' then String c EmptyString :: Fields s'
               else match Fields s' with
                    | t :: ts => String c t :: ts
                    | [] => [String c EmptyString]
                    end
           end
  end.

(** [strings.Split(s, sep)] for a one-byte separator. *)
Fixpoint Split1 (s : string) (sep : ascii) : list string :=
  match s with
  | EmptyString => [EmptyString]
  | String c s' =>
      if Ascii.eqb c sep then EmptyString :: Split1 s' sep
      else match Split1 s' sep with
           | t :: ts => String c t :: ts
           | [] => [String c EmptyString]
           end
  end.

(** [strings.ReplaceAll(s, old, new)] for a non-empty [old]: the
    non-overlapping occurrences of [old] are replaced from left to right.
    [skip] counts the bytes of a matched occurrence still to be passed. *)
Fixpoint replaceFrom (skip : nat) (s old new : string) : string :=
  match s with
  | EmptyString => EmptyString
  | String c s' =>
      match skip with
      | S k => replaceFrom k s' old new
      | O =>
          if HasPrefix s old
          then new +:+ replaceFrom (len old - 1) s' old new
          else String c (replaceFrom 0 s' old new)
      end
  end.

Definition ReplaceAll (s old new : string) : string := replaceFrom 0 s old new.

(** [sort.Strings]: ascending byte-wise order.  Equal strings are
    indistinguishable, so the sorted result is unique; insertion sort
    computes it. *)
Fixpoint insertString (x : string) (l : list string) : list string :=
  match l with
  | [] => [x]
  | y :: l' => if String.leb x y then x :: l else y :: insertString x l'
  end.

Fixpoint sortStrings (l : list string) : list string :=
  match l with
  | [] => []
  | x :: l' => insertString x (sortStrings l')
  end.

(** [strconv.Itoa] on a non-negative number. *)
Definition digitChar (d : nat) : ascii := ascii_of_nat (48 + d).

Fixpoint itoaFrom (fuel n : nat) (acc : string) : string :=
  match fuel with
  | O => acc
  | S fuel' =>
      let acc' := String (digitChar (n mod 10)) acc in
      if (n <? 10)%nat then acc' else itoaFrom fuel' (n / 10) acc'
  end.

Definition Itoa (n : nat) : string := itoaFrom (S n) n EmptyString.

End GoStrings.

Import GoStrings.

(** Go's [error] values are used through their message only. *)
Definition error : Type := string.

Inductive result (A : Type) : Type :=
| Ok (a : A)
| Err (e : error).
Arguments Ok {A} a.
Arguments Err {A} e.

(** ** [NormalizeSPF] ([unnamed/part_007]) *)

Module Normalize.

(** [isSPFMechanism]: recognition of a mechanism by its prefix. *)
Definition isSPFMechanism (part : string) : bool :=
  HasPrefix part "include:" ||
  HasPrefix part "a" ||
  HasPrefix part "mx" ||
  HasPrefix part "ip4:" ||
  HasPrefix part "ip6:" ||
  HasPrefix part "ptr" ||
  HasPrefix part "exists:" ||
  HasPrefix part "redirect=" ||
  HasPrefix part "exp=".

(** The loop variables of [NormalizeSPF]. *)
Record normState : Type := mkNormState {
  normalizedParts : list string;
  mechanisms : list string;
  allMechanism : string
}.

(** One iteration of [for _, part := range parts[1:]]. *)
Definition normStep (st : normState) (part : string) : normState :=
  if HasSuffix part "all" then
    mkNormState (normalizedParts st) (mechanisms st) part
  else if isSPFMechanism part then
    mkNormState (normalizedParts st) (mechanisms st ++ [part]) (allMechanism st)
  else
    mkNormState (normalizedParts st ++ [part]) (mechanisms st) (allMechanism st).

Definition NormalizeSPF (spfRecord : string) : result string :=
  if negb (HasPrefix spfRecord "v=spf1") then
    Err "invalid SPF record: must start with v=spf1"
  else
    match Fields spfRecord with
    | [] => Err "empty SPF record"
    | p0 :: rest =>
        let st := fold_left normStep rest (mkNormState [p0] [] EmptyString) in
        let parts1 := normalizedParts st ++ sortStrings (mechanisms st) in
        let parts2 :=
          if String.eqb (allMechanism st) EmptyString then parts1
          else parts1 ++ [allMechanism st] in
        Ok (Join parts2 " ")
    end.

End Normalize.

(** ** Partial computations

    [Ret a] is a normal return, [Panic] a Go run-time panic, [OutOfFuel]
    the exhaustion of the fuel given to a loop the Go code does not bound:
    a computation that is [OutOfFuel] for every fuel does not terminate. *)

Inductive run (A : Type) : Type :=
| Ret (a : A)
| Panic (msg : string)
| OutOfFuel.
Arguments Ret {A} a.
Arguments Panic {A} msg.
Arguments OutOfFuel {A}.

#[global] Instance run_ret : MRet run := fun A a => Ret a.
#[global] Instance run_bind : MBind run := fun A B f m =>
  match m with
  | Ret a => f a
  | Panic msg => Panic msg
  | OutOfFuel => OutOfFuel
  end.

(** ** Go's [net] package (the part the repository uses) *)

Module GoNet.

Local Open Scope Z_scope.

(** [net.IP] is a byte slice of length 4 or 16. *)
Definition IP : Type := list Z.

Definition v4InV6Prefix : list Z := [0; 0; 0; 0; 0; 0; 0; 0; 0; 0; 255; 255].

(** [net.IPv4(a, b, c, d)]: the 16-byte form of an IPv4 address. *)
Definition IPv4 (a b c d : Z) : IP := v4InV6Prefix ++ [a; b; c; d].

Definition bytesEqb (x y : list Z) : bool :=
  (length x =? length y)%nat && forallb (fun p => fst p =? snd p) (combine x y).

(** [ip.To4()]; [None] is Go's [nil]. *)
Definition To4 (ip : IP) : option IP :=
  if (length ip =? 4)%nat then Some ip
  else if (length ip =? 16)%nat && bytesEqb (firstn 12 ip) v4InV6Prefix
       then Some (skipn 12 ip)
       else None.

(** [ip.To16()]. *)
Definition To16 (ip : IP) : option IP :=
  if (length ip =? 4)%nat then
    match ip with
    | [a; b; c; d] => Some (IPv4 a b c d)
    | _ => None
    end
  else if (length ip =? 16)%nat then Some ip
  else None.

(** [ip.IsUnspecified()]. *)
Definition IsUnspecified (ip : IP) : bool :=
  bytesEqb ip [0; 0; 0; 0] || bytesEqb ip (repeat 0 16).

(** [strconv.Itoa] on any [int]. *)
Definition ItoaZ (z : Z) : string :=
  if z <? 0 then String "-" (Itoa (Z.to_nat (- z))) else Itoa (Z.to_nat z).

(** [*net.IPNet] as returned by [net.ParseCIDR]: the network address and
    the two results of [Mask.Size()]. *)
Record IPNet : Type := mkIPNet {
  netIP : IP;
  maskOnes : Z;
  maskBits : Z
}.

(** The text codecs of Go's standard library.  They are not code of this
    repository and depend on the Go release; the aggregator is modelled
    over any implementation of them.
    - [ParseIP]: [net.ParseIP], [None] for [nil];
    - [ParseCIDR]: the [*net.IPNet] of [net.ParseCIDR], [None] on error;
    - [formatOther]: what [ip.String()] returns when [ip.To4()] is [nil]
      (the RFC 5952 text of a 16-byte address). *)
Class NetCodec : Type := {
  ParseIP : string -> option IP;
  ParseCIDR : string -> option IPNet;
  formatOther : IP -> string
}.

(** [ip.String()]. *)
Definition IPString `{NetCodec} (ip : IP) : string :=
  if (length ip =? 0)%nat then "<nil>"
  else match To4 ip with
       | Some [a; b; c; d] =>
           ItoaZ a +:+ "." +:+ ItoaZ b +:+ "." +:+ ItoaZ c +:+ "." +:+ ItoaZ d
       | _ => formatOther ip
       end.

(** *** The IPv4 literal syntax

    A codec for dotted-quad literals and their CIDR form, as [net.ParseIP]
    and [net.ParseCIDR] read them; IPv6 literals are outside it.  It is
    used to evaluate the model on IPv4 inputs. *)

Definition isDigit (c : ascii) : bool :=
  let n := nat_of_ascii c in ((48 <=? n)%nat && (n <=? 57)%nat).

Fixpoint digitsValue (acc : Z) (s : string) : option Z :=
  match s with
  | EmptyString => Some acc
  | String c s' =>
      if isDigit c
      then digitsValue (10 * acc + Z.of_nat (nat_of_ascii c - 48)) s'
      else None
  end.

(** A decimal field of an IPv4 literal: one to three digits, no leading
    zero, at most 255. *)
Definition parseDecByte (s : string) : option Z :=
  match s with
  | EmptyString => None
  | String c s' =>
      if ((3 <? len s)%nat || (Ascii.eqb c "0" && (1 <? len s)%nat))%bool then None
      else match digitsValue 0 s with
           | Some v => if v <=? 255 then Some v else None
           | None => None
           end
  end.

Definition parseIPv4 (s : string) : option (list Z) :=
  match Split1 s "." with
  | [a; b; c; d] =>
      match parseDecByte a, parseDecByte b, parseDecByte c, parseDecByte d with
      | Some a, Some b, Some c, Some d => Some [a; b; c; d]
      | _, _, _, _ => None
      end
  | _ => None
  end.

(** The first [ones] bits of a big-endian byte list, the others cleared. *)
Fixpoint maskBytes (ones : Z) (ip : list Z) : list Z :=
  match ip with
  | [] => []
  | b :: ip' =>
      (if 8 <=? ones then b
       else if ones <=? 0 then 0
       else Z.land b (255 - (Z.shiftl 1 (8 - ones) - 1)))
      :: maskBytes (ones - 8) ip'
  end.

Definition dottedQuadParseIP (s : string) : option IP :=
  match parseIPv4 s with
  | Some [a; b; c; d] => Some (IPv4 a b c d)
  | _ => None
  end.

Definition dottedQuadParseCIDR (s : string) : option IPNet :=
  match Split1 s "/" with
  | [addr; mask] =>
      match parseIPv4 addr, digitsValue 0 mask with
      | Some ip, Some n =>
          if ((1 <=? len mask)%nat && (n <=? 32))%bool
          then Some (mkIPNet (maskBytes n ip) n 32)
          else None
      | _, _ => None
      end
  | _ => None
  end.

Definition dottedQuadCodec : NetCodec := {|
  ParseIP := dottedQuadParseIP;
  ParseCIDR := dottedQuadParseCIDR;
  formatOther := fun _ => "?"
|}.

End GoNet.

Import GoNet.

(** ** [internal/spf/cidr.go] *)

Module Cidr.

Local Open Scope Z_scope.

Record AggregationConfig : Type := mkAggregationConfig {
  IPv4MaxPrefix : Z;
  IPv6MaxPrefix : Z;
  PreserveIndividual : list string
}.

(** [uint32] arithmetic wraps around. *)
Definition u32 (z : Z) : Z := z mod 2 ^ 32.

(** Ascending insertion sort, for [sort.Slice] on numbers. *)
Fixpoint insertZ (x : Z) (l : list Z) : list Z :=
  match l with
  | [] => [x]
  | y :: l' => if x <=? y then x :: l else y :: insertZ x l'
  end.

Fixpoint sortZ (l : list Z) : list Z :=
  match l with
  | [] => []
  | x :: l' => insertZ x (sortZ l')
  end.

(** [fmt.Sscanf(s, "%d", &n)]: an optional sign and at least one decimal
    digit; what follows the digits is left unread.  [None] is an error. *)
Fixpoint leadingDigits (s : string) : string :=
  match s with
  | String c s' => if isDigit c then String c (leadingDigits s') else EmptyString
  | EmptyString => EmptyString
  end.

Definition scanInt (s : string) : option Z :=
  let '(neg, body) :=
    match s with
    | String "-" s' => (true, s')
    | String "+" s' => (false, s')
    | _ => (false, s)
    end in
  match leadingDigits body with
  | EmptyString => None
  | ds => match digitsValue 0 ds with
          | Some v => Some (if neg then - v else v)
          | None => None
          end
  end.

(** [ipToUint32]. *)
Definition ipToUint32 (ip : IP) : Z :=
  match To4 ip with
  | Some [a; b; c; d] =>
      Z.lor (Z.lor (Z.lor (Z.shiftl a 24) (Z.shiftl b 16)) (Z.shiftl c 8)) d
  | _ => 0
  end.

(** [uint32ToIP]; [byte(x)] keeps the low 8 bits. *)
Definition uint32ToIP (ip : Z) : IP :=
  IPv4 (Z.shiftr ip 24 mod 256) (Z.shiftr ip 16 mod 256)
       (Z.shiftr ip 8 mod 256) (ip mod 256).

(** The loop [for power <= value { power <<= 1 }] on [uint32]. *)
Fixpoint powerLoop (fuel : nat) (power value : Z) : run Z :=
  match fuel with
  | O => OutOfFuel
  | S fuel' =>
      if power <=? value
      then powerLoop fuel' (u32 (Z.shiftl power 1)) value
      else Ret power
  end.

Definition largestPowerOfTwoLessOrEqual (fuel : nat) (value : Z) : run Z :=
  if value =? 0 then Ret 1
  else power ← powerLoop fuel 1 value; Ret (Z.shiftr power 1).

(** The loop [for start%maxSize != 0 { maxSize /= 2 }]. *)
Fixpoint alignLoop (fuel : nat) (start maxSize : Z) : run Z :=
  match fuel with
  | O => OutOfFuel
  | S fuel' =>
      if maxSize =? 0 then Panic "integer divide by zero"
      else if negb (start mod maxSize =? 0)
           then alignLoop fuel' start (maxSize / 2)
           else Ret maxSize
  end.

Section WithCodec.

Context `{NetCodec}.

(** [separateIPv4IndividualFromCIDR]. *)
Definition separateIPv4IndividualFromCIDR (mechanisms : list string)
  : list IP * list string :=
  fold_left
    (fun '(individualIPs, existingCIDRs) mechanism =>
       if negb (HasPrefix mechanism "ip4:") then (individualIPs, existingCIDRs)
       else
         let ipStr := TrimPrefix mechanism "ip4:" in
         if Contains ipStr "/" then
           match ParseCIDR ipStr with
           | Some _ => (individualIPs, existingCIDRs ++ [mechanism])
           | None => (individualIPs, existingCIDRs)
           end
         else
           match ParseIP ipStr with
           | Some ip =>
               match To4 ip with
               | Some ip4 => (individualIPs ++ [ip4], existingCIDRs)
               | None => (individualIPs, existingCIDRs)
               end
           | None => (individualIPs, existingCIDRs)
           end)
    mechanisms ([], []).

(** [separateIPv6IndividualFromCIDR]. *)
Definition separateIPv6IndividualFromCIDR (mechanisms : list string)
  : list IP * list string :=
  fold_left
    (fun '(individualIPs, existingCIDRs) mechanism =>
       if negb (HasPrefix mechanism "ip6:") then (individualIPs, existingCIDRs)
       else
         let ipStr := TrimPrefix mechanism "ip6:" in
         if Contains ipStr "/" then
           match ParseCIDR ipStr with
           | Some _ => (individualIPs, existingCIDRs ++ [mechanism])
           | None => (individualIPs, existingCIDRs)
           end
         else
           match ParseIP ipStr with
           | Some ip =>
               match To4 ip, To16 ip with
               | None, Some ip16 => (individualIPs ++ [ip16], existingCIDRs)
               | _, _ => (individualIPs, existingCIDRs)
               end
           | None => (individualIPs, existingCIDRs)
           end)
    mechanisms ([], []).

(** [extractNonIPMechanisms]. *)
Definition extractNonIPMechanisms (mechanisms : list string) : list string :=
  List.filter
    (fun mechanism =>
       negb (HasPrefix mechanism "ip4:") && negb (HasPrefix mechanism "ip6:"))
    mechanisms.

(** [rangeToExactCIDRs]: the loop [for start <= end], with [n] bounding its
    iterations and [fuel] those of the two inner loops. *)
Fixpoint rangeLoop (fuel n : nat) (start end_ : Z) (cidrs : list string)
  : run (list string) :=
  match n with
  | O => OutOfFuel
  | S n' =>
      if start <=? end_ then
        maxSize ← largestPowerOfTwoLessOrEqual fuel (u32 (end_ - start + 1));
        maxSize ← alignLoop fuel start maxSize;
        let prefixLen := 32 - Z.log2 maxSize in
        let cidr :=
          if prefixLen =? 32
          then "ip4:" +:+ IPString (uint32ToIP start)
          else "ip4:" +:+ IPString (uint32ToIP start) +:+ "/" +:+ ItoaZ prefixLen in
        rangeLoop fuel n' (u32 (start + maxSize)) end_ (cidrs ++ [cidr])
      else Ret cidrs
  end.

Definition rangeToExactCIDRs (fuel : nat) (start end_ : Z) : run (list string) :=
  rangeLoop fuel fuel start end_ [].

(** [mergeContiguousRanges].  [mergeRuns start end_ rest] is the state of
    the two nested loops when the run [start .. end_] has been read and
    [rest] is still to be scanned. *)
Fixpoint mergeRuns (fuel : nat) (start end_ : Z) (rest : list Z)
  : run (list string) :=
  match rest with
  | x :: rest' =>
      if x =? u32 (end_ + 1) then mergeRuns fuel start x rest'
      else
        cidrs ← rangeToExactCIDRs fuel start end_;
        more ← mergeRuns fuel x x rest';
        Ret (cidrs ++ more)
  | [] => rangeToExactCIDRs fuel start end_
  end.

Definition mergeContiguousRanges (fuel : nat) (sortedIPs : list Z)
  : run (list string) :=
  match sortedIPs with
  | [] => Ret []
  | x :: rest => mergeRuns fuel x x rest
  end.

(** [aggregateIPv4]. *)
Definition aggregateIPv4 (fuel : nat) (ips : list IP) : run (list string) :=
  if (length ips =? 0)%nat then Ret []
  else
    let uniqueIPs : gset Z :=
      fold_left
        (fun m ip =>
           match To4 ip with
           | Some ipv4 => {[ ipToUint32 ipv4 ]} ∪ m
           | None => m
           end)
        ips ∅ in
    let uintIPs := sortZ (elements uniqueIPs) in
    mergeContiguousRanges fuel uintIPs.

(** [expandCIDRToIPv4s]. *)
Definition expandCIDRToIPv4s (cidr : IPNet) : list IP :=
  if negb (maskBits cidr =? 32) then []
  else
    let networkSize := u32 (Z.shiftl 1 (32 - maskOnes cidr)) in
    if networkSize >? 65536 then []
    else
      let networkIP := ipToUint32 (netIP cidr) in
      map (fun i => uint32ToIP (u32 (networkIP + Z.of_nat i)))
          (seq 0 (Z.to_nat networkSize)).

(** [ipv6ToBigInt]: the big-endian value of the 16 bytes. *)
Definition ipv6ToBigInt (ip : IP) : Z :=
  match To16 ip with
  | Some ipv6 => fold_left (fun acc b => acc * 256 + b) ipv6 0
  | None => 0
  end.

(** [bigInt.Bytes()]: the minimal big-endian bytes of a non-negative
    number. *)
Definition bigBytes (z : Z) : list Z :=
  if z <=? 0 then []
  else
    let n := Z.to_nat (Z.log2 z / 8 + 1) in
    map (fun i => Z.shiftr z (8 * Z.of_nat (n - 1 - i)) mod 256) (seq 0 n).

(** [bigIntToIPv6]. *)
Definition bigIntToIPv6 (bigInt : Z) : IP :=
  let bytes := bigBytes bigInt in
  if (length bytes <? 16)%nat
  then repeat 0 (16 - length bytes) ++ bytes
  else bytes.

(** [expandCIDRToIPv6s]. *)
Definition expandCIDRToIPv6s (cidr : IPNet) : list IP :=
  if negb (maskBits cidr =? 128) then []
  else if maskOnes cidr <? 118 then []
  else
    let networkSize := Z.shiftl 1 (128 - maskOnes cidr) mod 2 ^ 64 in
    if networkSize >? 1024 then []
    else
      let networkBigInt := ipv6ToBigInt (netIP cidr) in
      map (fun i => bigIntToIPv6 (networkBigInt + Z.of_nat i))
          (seq 0 (Z.to_nat networkSize)).

(** [expandCIDRToIPs]. *)
Definition expandCIDRToIPs (mechanism : string) : list string :=
  if HasPrefix mechanism "ip4:" || HasPrefix mechanism "ip6:" then
    let ipStr :=
      if HasPrefix mechanism "ip4:" then TrimPrefix mechanism "ip4:"
      else TrimPrefix mechanism "ip6:" in
    if Contains ipStr "/" then
      match ParseCIDR ipStr with
      | None => []
      | Some cidr =>
          match To4 (netIP cidr) with
          | Some _ => map IPString (expandCIDRToIPv4s cidr)
          | None => map IPString (expandCIDRToIPv6s cidr)
          end
      end
    else
      match ParseIP ipStr with
      | Some ip => [IPString ip]
      | None => []
      end
  else [].

(** The three inner loops of [ipv6RangeToExactCIDRs]. *)
Fixpoint blockLoop (fuel : nat) (blockSize maxSize : Z) : run Z :=
  match fuel with
  | O => OutOfFuel
  | S fuel' =>
      if Z.shiftl blockSize 1 <=? maxSize
      then blockLoop fuel' (Z.shiftl blockSize 1) maxSize
      else Ret blockSize
  end.

Fixpoint alignLoop6 (fuel : nat) (current blockSize : Z) : run Z :=
  match fuel with
  | O => OutOfFuel
  | S fuel' =>
      if blockSize =? 0 then Panic "division by zero"
      else if current mod blockSize =? 0 then Ret blockSize
           else alignLoop6 fuel' current (Z.shiftr blockSize 1)
  end.

Fixpoint prefixLoop (fuel : nat) (tempSize prefixLen : Z) : run Z :=
  match fuel with
  | O => OutOfFuel
  | S fuel' =>
      if tempSize >? 1
      then prefixLoop fuel' (Z.shiftr tempSize 1) (prefixLen - 1)
      else Ret prefixLen
  end.

Fixpoint rangeLoop6 (fuel n : nat) (current end_ : Z) (cidrs : list string)
  : run (list string) :=
  match n with
  | O => OutOfFuel
  | S n' =>
      if current <=? end_ then
        let maxSize := end_ - current + 1 in
        blockSize ← blockLoop fuel 1 maxSize;
        blockSize ← alignLoop6 fuel current blockSize;
        prefixLen ← prefixLoop fuel blockSize 128;
        let cidr :=
          if prefixLen =? 128
          then "ip6:" +:+ IPString (bigIntToIPv6 current)
          else "ip6:" +:+ IPString (bigIntToIPv6 current) +:+ "/" +:+ ItoaZ prefixLen in
        rangeLoop6 fuel n' (current + blockSize) end_ (cidrs ++ [cidr])
      else Ret cidrs
  end.

Definition ipv6RangeToExactCIDRs (fuel : nat) (start end_ : Z)
  : run (list string) :=
  rangeLoop6 fuel fuel start end_ [].

(** [mergeContiguousIPv6Ranges], as [mergeRuns]. *)
Fixpoint mergeRuns6 (fuel : nat) (start end_ : Z) (rest : list Z)
  : run (list string) :=
  match rest with
  | x :: rest' =>
      if x =? end_ + 1 then mergeRuns6 fuel start x rest'
      else
        cidrs ← ipv6RangeToExactCIDRs fuel start end_;
        more ← mergeRuns6 fuel x x rest';
        Ret (cidrs ++ more)
  | [] => ipv6RangeToExactCIDRs fuel start end_
  end.

Definition mergeContiguousIPv6Ranges (fuel : nat) (sortedIPs : list Z)
  : run (list string) :=
  match sortedIPs with
  | [] => Ret []
  | x :: rest => mergeRuns6 fuel x x rest
  end.

(** [aggregateIPv6]; the map keyed by the decimal text of the numbers is a
    set of numbers. *)
Definition aggregateIPv6 (fuel : nat) (ips : list IP) : run (list string) :=
  if (length ips =? 0)%nat then Ret []
  else
    let uniqueIPs : gset Z :=
      fold_left
        (fun m ip =>
           match To16 ip, To4 ip with
           | Some ipv6, None => {[ ipv6ToBigInt ipv6 ]} ∪ m
           | _, _ => m
           end)
        ips ∅ in
    let bigInts := sortZ (elements uniqueIPs) in
    mergeContiguousIPv6Ranges fuel bigInts.

(** The filter loop shared by [aggregateIPv4WithConfig] and
    [aggregateIPv6WithConfig]: [tag] is ["ip4:"] or ["ip6:"] and
    [maxPrefix] the matching configuration field. *)
Definition filterByPrefix (tag : string) (maxPrefix : Z)
    (aggregatedCIDRs individualIPs : list string) : list string * list string :=
  fold_left
    (fun '(filteredCIDRs, individualIPs) cidr =>
       if Contains cidr "/" then
         match Split1 cidr "/" with
         | [_; prefixStr] =>
             match scanInt prefixStr with
             | Some prefix =>
                 if prefix >=? maxPrefix
                 then (filteredCIDRs ++ [cidr], individualIPs)
                 else (filteredCIDRs,
                       individualIPs
                         ++ map (fun expandedIP => tag +:+ expandedIP)
                                (expandCIDRToIPs cidr))
             | None => (filteredCIDRs, individualIPs)
             end
         | _ => (filteredCIDRs, individualIPs)
         end
       else (filteredCIDRs, individualIPs ++ [cidr]))
    aggregatedCIDRs ([], individualIPs).

(** The first loop of the two functions: preserved addresses are set
    aside as individual mechanisms. *)
Definition splitPreserved (tag : string) (preservedIPs : gset string)
    (ips : list IP) : list IP * list string :=
  fold_left
    (fun '(aggregatableIPs, individualIPs) ip =>
       let ipStr := IPString ip in
       if bool_decide (ipStr ∈ preservedIPs)
       then (aggregatableIPs, individualIPs ++ [tag +:+ ipStr])
       else (aggregatableIPs ++ [ip], individualIPs))
    ips ([], []).

(** [aggregateIPv4WithConfig]. *)
Definition aggregateIPv4WithConfig (fuel : nat) (ips : list IP)
    (config : AggregationConfig) : run (list string) :=
  if (length ips =? 0)%nat then Ret []
  else
    let preservedIPs : gset string := list_to_set (PreserveIndividual config) in
    let '(aggregatableIPs, individualIPs) :=
      splitPreserved "ip4:" preservedIPs ips in
    aggregatedCIDRs ← aggregateIPv4 fuel aggregatableIPs;
    let '(filteredCIDRs, individualIPs) :=
      filterByPrefix "ip4:" (IPv4MaxPrefix config) aggregatedCIDRs individualIPs in
    Ret (filteredCIDRs ++ individualIPs).

(** [aggregateIPv6WithConfig]. *)
Definition aggregateIPv6WithConfig (fuel : nat) (ips : list IP)
    (config : AggregationConfig) : run (list string) :=
  if (length ips =? 0)%nat then Ret []
  else
    let preservedIPs : gset string := list_to_set (PreserveIndividual config) in
    let '(aggregatableIPs, individualIPs) :=
      splitPreserved "ip6:" preservedIPs ips in
    aggregatedCIDRs ← aggregateIPv6 fuel aggregatableIPs;
    let '(filteredCIDRs, individualIPs) :=
      filterByPrefix "ip6:" (IPv6MaxPrefix config) aggregatedCIDRs individualIPs in
    Ret (filteredCIDRs ++ individualIPs).

(** [AggregateCIDRsWithConfig]; [None] is the [nil] configuration. *)
Definition AggregateCIDRsWithConfig (fuel : nat) (ipMechanisms : list string)
    (config : option AggregationConfig) : run (list string) :=
  if (length ipMechanisms =? 0)%nat then Ret []
  else
    let config :=
      match config with
      | Some c => c
      | None => mkAggregationConfig 24 64 []
      end in
    let '(ipv4IndividualIPs, ipv4ExistingCIDRs) :=
      separateIPv4IndividualFromCIDR ipMechanisms in
    let '(ipv6IndividualIPs, ipv6ExistingCIDRs) :=
      separateIPv6IndividualFromCIDR ipMechanisms in
    let otherMechanisms := extractNonIPMechanisms ipMechanisms in
    aggregatedIPv4 ← aggregateIPv4WithConfig fuel ipv4IndividualIPs config;
    aggregatedIPv6 ← aggregateIPv6WithConfig fuel ipv6IndividualIPs config;
    Ret (aggregatedIPv4 ++ aggregatedIPv6 ++ ipv4ExistingCIDRs
           ++ ipv6ExistingCIDRs ++ otherMechanisms).

(** [AggregateCIDRs]: the configuration of the flatten path. *)
Definition AggregateCIDRs (fuel : nat) (ipMechanisms : list string)
  : run (list string) :=
  AggregateCIDRsWithConfig fuel ipMechanisms (Some (mkAggregationConfig 1 1 [])).

End WithCodec.

End Cidr.

(** ** [internal/spf/split.go] *)

Module Split.

Definition maxSPFChars : nat := 255.

(** The variables of the packing loop: the finished records and the
    [strings.Builder]. *)
Record packState : Type := mkPackState {
  records : list string;
  currentRecord : string
}.

(** One iteration of [for i, part := range parts[1:]]; [nparts] is
    [len(parts)] and [p0] is [parts[0]]. *)
Definition packStep (domain p0 : string) (nparts : nat)
    (st : packState) (ipart : nat * string) : packState :=
  let '(i, part) := ipart in
  let chaining :=
    if (i <? nparts - 1)%nat
    then " include:spfX." +:+ domain +:+ " ~all"
    else " ~all" in
  let st :=
    if (maxSPFChars <? len (currentRecord st) + len part + 1 + len chaining)%nat
    then mkPackState (records st ++ [currentRecord st]) p0
    else st in
  mkPackState (records st) (currentRecord st +:+ " " +:+ part).

(** One iteration of [for i := 0; i < len(records); i++]; [n] is
    [len(records)].  [record[:maxLen]] panics when [maxLen] is negative. *)
Definition chainStep (domain : string) (n : nat)
    (acc : run (gmap string string)) (irecord : nat * string)
  : run (gmap string string) :=
  result ← acc;
  let '(i, record) := irecord in
  let name := "spf" +:+ Itoa i +:+ "." +:+ domain in
  let chaining :=
    if (i <? n - 1)%nat
    then " include:spf" +:+ Itoa (i + 1) +:+ "." +:+ domain +:+ " ~all"
    else " ~all" in
  if (maxSPFChars <? len chaining)%nat
  then Panic "slice bounds out of range"
  else
    let maxLen := (maxSPFChars - len chaining)%nat in
    let record :=
      if (maxLen <? len record)%nat then takeBytes maxLen record else record in
    Ret (<[name := record +:+ chaining]> result).

(** [range] over a slice: the elements with their indices. *)
Definition indexed {A} (l : list A) : list (nat * A) :=
  combine (seq 0 (length l)) l.

Definition SplitAndChainSPF (spfRecord domain : string)
  : run (gmap string string) :=
  if (len spfRecord <=? maxSPFChars)%nat then Ret {[ domain := spfRecord ]}
  else
    let spfRecord := TrimSuffix spfRecord " ~all" in
    let spfRecord := TrimSuffix spfRecord " -all" in
    match Fields spfRecord with
    | [] => Panic "index out of range [0] with length 0"
    | p0 :: rest =>
        let st :=
          fold_left (packStep domain p0 (S (length rest))) (indexed rest)
                    (mkPackState [] p0) in
        let records := records st ++ [currentRecord st] in
        result ←
          fold_left (chainStep domain (length records)) (indexed records)
                    (Ret ∅);
        Ret (<[domain := "v=spf1 include:spf0." +:+ domain +:+ " ~all"]> result)
    end.

End Split.

(** ** State and errors

    A Go method that mutates its receiver and returns an [error]: a state
    transformer whose result is [Ok] or [Err]. *)

Definition stateErr (S A : Type) : Type := S -> S * result A.

Definition ret {S A} (a : A) : stateErr S A := fun s => (s, Ok a).

Definition fail {S A} (e : error) : stateErr S A := fun s => (s, Err e).

Definition bind {S A B} (m : stateErr S A) (k : A -> stateErr S B)
  : stateErr S B :=
  fun s =>
    match m s with
    | (s', Ok a) => k a s'
    | (s', Err e) => (s', Err e)
    end.

Definition modify {S} (g : S -> S) : stateErr S unit := fun s => (g s, Ok tt).

(** [for _, x := range l { if err := body(x); err != nil { return err } }]. *)
Fixpoint forEach {S A} (l : list A) (body : A -> stateErr S unit)
  : stateErr S unit :=
  match l with
  | [] => ret tt
  | x :: l' => bind (body x) (fun _ => forEach l' body)
  end.

(** ** [internal/spf/core_flatten.go] *)

Module Flatten.

Local Open Scope Z_scope.

(** [*net.MX]. *)
Record MX : Type := mkMX { Host : string; Pref : Z }.

(** The [DNSProvider] interface.  Within one run the same question gets
    the same answer: the three lookups are functions of the name. *)
Record DNSProvider : Type := mkDNSProvider {
  LookupTXT : string -> result (list string);
  LookupIP : string -> result (list IP);
  LookupMX : string -> result (list MX)
}.

(** The first record that begins with [v=spf1]; Go's empty string when
    there is none. *)
Definition firstSPF (records : list string) : string :=
  match List.find (fun record => HasPrefix record "v=spf1") records with
  | Some record => record
  | None => EmptyString
  end.

(** The target of an [a] or [mx] mechanism:
    [strings.Split(part, ":")[1]] when the part contains a colon. *)
Definition domainToLookup (part currentDomain : string) : string :=
  if Contains part ":" then
    match Split1 part ":" with
    | _ :: d :: _ => d
    | _ => currentDomain
    end
  else currentDomain.

(** [maxDepth = 10]: the depths 0 to 10 are allowed, eleven levels. *)
Definition maxLevels : nat := 11.

(** *** [CountDNSLookups] *)

Record lookupCounter : Type := mkLookupCounter {
  visited : gmap string Z;
  counterCache : gmap string (list string)
}.

(** [c.visited[d]++]. *)
Definition visit (d : string) : stateErr lookupCounter unit :=
  modify (fun c =>
    mkLookupCounter (<[d := default 0 (visited c !! d) + 1]> (visited c))
                    (counterCache c)).

(** The TXT records of an included domain, through [c.dnsCache]. *)
Definition counterLookupTXT (dns : DNSProvider) (includeDomain : string)
  : stateErr lookupCounter (list string) :=
  fun c =>
    match counterCache c !! includeDomain with
    | Some cached => (c, Ok cached)
    | None =>
        match LookupTXT dns includeDomain with
        | Err err =>
            (c, Err ("failed to lookup included SPF for " +:+ includeDomain
                       +:+ ": " +:+ err))
        | Ok recs =>
            (mkLookupCounter (visited c) (<[includeDomain := recs]> (counterCache c)),
             Ok recs)
        end
    end.

(** The body of the loop over the parts of a record; [recur] is
    [countMechanisms] one level deeper. *)
Definition countPart (recur : string -> string -> stateErr lookupCounter unit)
    (dns : DNSProvider) (currentDomain part : string)
  : stateErr lookupCounter unit :=
  if HasPrefix part "include:" then
    let includeDomain := TrimPrefix part "include:" in
    bind (visit includeDomain) (fun _ =>
    bind (counterLookupTXT dns includeDomain) (fun includeRecords =>
    forEach includeRecords (fun rec =>
      if HasPrefix rec "v=spf1" then recur rec includeDomain else ret tt)))
  else if HasPrefix part "a" then
    visit (domainToLookup part currentDomain)
  else if HasPrefix part "mx" then
    visit (domainToLookup part currentDomain)
  else ret tt.

(** [countMechanisms]; [levels] is [maxDepth + 1 - depth], so that
    [depth > maxDepth] is [levels = 0] and [depth + 1] is the predecessor. *)
Fixpoint countMechanisms (dns : DNSProvider) (levels : nat)
    (mechanism currentDomain : string) : stateErr lookupCounter unit :=
  match levels with
  | O => fail ("recursion depth exceeded for " +:+ currentDomain)
  | S levels' =>
      forEach (Fields mechanism)
              (countPart (countMechanisms dns levels') dns currentDomain)
  end.

(** [CountDNSLookups]: the count and the error. *)
Definition CountDNSLookups (dns : DNSProvider) (domain : string)
  : Z * option error :=
  let counter := mkLookupCounter {[ domain := 1 ]} ∅ in
  match LookupTXT dns domain with
  | Err err =>
      (0, Some ("failed to retrieve SPF records for " +:+ domain +:+ ": " +:+ err))
  | Ok records =>
      let spfRecord := firstSPF records in
      if String.eqb spfRecord EmptyString then (1, None)
      else
        match countMechanisms dns maxLevels spfRecord domain counter with
        | (_, Err err) => (0, Some err)
        | (counter, Ok _) =>
            (map_fold (fun _ count totalLookups => totalLookups + count) 0
                      (visited counter),
             None)
        end
  end.

(** *** [FlattenSPF] *)

Record flattener : Type := mkFlattener {
  dnsCache : gmap string (list string);
  flattenedIPs : gset string;
  recursionStack : gset string;
  recursionErr : option error
}.

Definition newFlattener : flattener := mkFlattener ∅ ∅ ∅ None.

(** [f.recursionErr = err; return f.recursionErr]. *)
Definition failRecursion (err : error) : stateErr flattener unit :=
  fun f =>
    (mkFlattener (dnsCache f) (flattenedIPs f) (recursionStack f) (Some err),
     Err err).

Definition pushDomain (d : string) (f : flattener) : flattener :=
  mkFlattener (dnsCache f) (flattenedIPs f) ({[ d ]} ∪ recursionStack f)
              (recursionErr f).

(** [delete(f.recursionStack, currentDomain)]. *)
Definition popDomain (d : string) (f : flattener) : flattener :=
  mkFlattener (dnsCache f) (flattenedIPs f) (recursionStack f ∖ {[ d ]})
              (recursionErr f).

(** [f.flattenedIPs[mech] = true]. *)
Definition addMechanism (mech : string) : stateErr flattener unit :=
  modify (fun f =>
    mkFlattener (dnsCache f) ({[ mech ]} ∪ flattenedIPs f) (recursionStack f)
                (recursionErr f)).

(** The TXT records of a domain, through [f.dnsCache]. *)
Definition cachedLookupTXT (dns : DNSProvider) (domain : string)
  : flattener -> flattener * result (list string) :=
  fun f =>
    match dnsCache f !! domain with
    | Some cached => (f, Ok cached)
    | None =>
        match LookupTXT dns domain with
        | Err err => (f, Err err)
        | Ok recs =>
            (mkFlattener (<[domain := recs]> (dnsCache f)) (flattenedIPs f)
                         (recursionStack f) (recursionErr f),
             Ok recs)
        end
    end.

Section WithCodec.

Context `{NetCodec}.

(** The loop over the addresses of a host. *)
Definition addIPs (ips : list IP) : stateErr flattener unit :=
  forEach ips (fun ip =>
    match To4 ip with
    | Some _ => addMechanism ("ip4:" +:+ IPString ip)
    | None => addMechanism ("ip6:" +:+ IPString ip)
    end).

(** The TXT records of an included domain, with the error of
    [processMechanism]. *)
Definition includeLookupTXT (dns : DNSProvider) (includeDomain : string)
  : stateErr flattener (list string) :=
  fun f =>
    match cachedLookupTXT dns includeDomain f with
    | (f', Ok recs) => (f', Ok recs)
    | (f', Err err) =>
        (f', Err ("failed to lookup included SPF for " +:+ includeDomain
                    +:+ ": " +:+ err))
    end.

(** The body of the loop over the parts of a record; [recur] is
    [processMechanism] one level deeper. *)
Definition processPart (recur : string -> string -> stateErr flattener unit)
    (dns : DNSProvider) (currentDomain part : string)
  : stateErr flattener unit :=
  if HasPrefix part "include:" then
    let includeDomain := TrimPrefix part "include:" in
    bind (includeLookupTXT dns includeDomain) (fun includeRecords =>
    forEach includeRecords (fun rec =>
      if HasPrefix rec "v=spf1" then recur rec includeDomain else ret tt))
  else if HasPrefix part "ip4:" || HasPrefix part "ip6:" then
    addMechanism part
  else if HasPrefix part "a" then
    match LookupIP dns (domainToLookup part currentDomain) with
    | Err _ => ret tt
    | Ok ips => addIPs ips
    end
  else if HasPrefix part "mx" then
    match LookupMX dns (domainToLookup part currentDomain) with
    | Err _ => ret tt
    | Ok mxs =>
        forEach mxs (fun mx =>
          match LookupIP dns (Host mx) with
          | Err _ => ret tt
          | Ok ips => addIPs ips
          end)
    end
  else ret tt.

(** [processMechanism]; [levels] as in [countMechanisms].  The deferred
    [delete] runs on every return that follows the insertion into the
    recursion stack. *)
Fixpoint processMechanism (dns : DNSProvider) (levels : nat)
    (mechanism currentDomain : string) : stateErr flattener unit :=
  match levels with
  | O => failRecursion ("recursion depth exceeded for " +:+ currentDomain)
  | S levels' =>
      fun f =>
        if bool_decide (currentDomain ∈ recursionStack f)
        then failRecursion
               ("recursion detected for domain " +:+ currentDomain) f
        else
          let '(f', err) :=
            forEach (Fields mechanism)
                    (processPart (processMechanism dns levels') dns currentDomain)
                    (pushDomain currentDomain f) in
          (popDomain currentDomain f', err)
  end.

(** [FlattenSPF]: the original record, the flattened record and the
    error.  The set [f.flattenedIPs] is read in the order of [elements];
    the result is sorted afterwards. *)
Definition FlattenSPF (fuel : nat) (domain : string) (dns : DNSProvider)
    (aggregate : bool) : run (string * string * option error) :=
  match cachedLookupTXT dns domain newFlattener with
  | (_, Err err) =>
      Ret (EmptyString, EmptyString,
           Some ("failed to retrieve original SPF records for " +:+ domain
                   +:+ ": " +:+ err))
  | (f, Ok originalRecords) =>
      let originalSPF := firstSPF originalRecords in
      if String.eqb originalSPF EmptyString then
        Ret (EmptyString, EmptyString,
             Some ("no SPF record found for " +:+ domain))
      else
        let '(f, err) := processMechanism dns maxLevels originalSPF domain f in
        match recursionErr f, err with
        | Some rerr, _ => Ret (originalSPF, EmptyString, Some rerr)
        | None, Err err =>
            Ret (originalSPF, EmptyString,
                 Some ("failed to process SPF mechanisms for domain " +:+ domain
                         +:+ ": " +:+ err))
        | None, Ok _ =>
            let sorted := elements (flattenedIPs f) in
            if (length sorted =? 0)%nat then Ret (originalSPF, originalSPF, None)
            else
              sorted ← (if aggregate then Cidr.AggregateCIDRs fuel sorted
                        else Ret sorted);
              let sorted := sortStrings sorted in
              Ret (originalSPF,
                   "v=spf1 " +:+ Join sorted " " +:+ " ~all",
                   None)
        end
  end.

(** [FlattenSPFWithThreshold]: the original record, the flattened record,
    the lookup count, whether flattening was performed, and the error. *)
Definition FlattenSPFWithThreshold (fuel : nat) (domain : string)
    (dns : DNSProvider) (aggregate forceFlatten : bool)
  : run (string * string * Z * bool * option error) :=
  match CountDNSLookups dns domain with
  | (_, Some err) =>
      Ret (EmptyString, EmptyString, 0, false,
           Some ("failed to count DNS lookups: " +:+ err))
  | (lookupCount, None) =>
      match LookupTXT dns domain with
      | Err err =>
          Ret (EmptyString, EmptyString, lookupCount, false,
               Some ("failed to retrieve SPF records for " +:+ domain
                       +:+ ": " +:+ err))
      | Ok records =>
          let originalSPF := firstSPF records in
          if String.eqb originalSPF EmptyString then
            Ret (EmptyString, EmptyString, lookupCount, false,
                 Some ("no SPF record found for " +:+ domain))
          else
            let maxDNSLookups := 10 in
            let shouldFlatten := (lookupCount >? maxDNSLookups) || forceFlatten in
            if negb shouldFlatten then
              Ret (originalSPF, originalSPF, lookupCount, false, None)
            else
              '(_, flattened, err) ← FlattenSPF fuel domain dns aggregate;
              match err with
              | Some err => Ret (originalSPF, EmptyString, lookupCount, false, Some err)
              | None => Ret (originalSPF, flattened, lookupCount, true, None)
              end
      end
  end.

End WithCodec.

(** A provider given by tables, as the mock of the test suite: a name
    without an entry is a failed lookup. *)
Definition tableLookup {A} (what : string) (table : list (string * A))
    (domain : string) : result A :=
  match List.find (fun entry => String.eqb (fst entry) domain) table with
  | Some entry => Ok (snd entry)
  | None => Err ("no " +:+ what +:+ " records found for " +:+ domain)
  end.

Definition mockDNSProvider (Records : list (string * list string))
    (IPs : list (string * list IP)) (MXs : list (string * list MX))
  : DNSProvider :=
  mkDNSProvider (tableLookup "TXT" Records) (tableLookup "A/AAAA" IPs)
                (tableLookup "MX" MXs).

End Flatten.

(** ** The flatten command ([unnamed/part_010]): the record loops *)

Module FlattenCmd.

Local Open Scope Z_scope.

(** [porkbun.Record], the fields the loop reads. *)
Record Record : Type := mkRecord {
  ID : string;
  Name : string;
  Type_ : string;
  Content : string
}.

(** [existingSPFTXTRecords]: the TXT records at the apex that begin with
    [v=spf1], and the TXT records whose name begins with [spf]. *)
Definition existingSPFTXTRecords (domain : string) (records : list Record)
  : gmap string string :=
  fold_left
    (fun m record =>
       if negb (String.eqb (Type_ record) "TXT") then m
       else
         let recordName := TrimSuffix (Name record) "." in
         if String.eqb recordName domain then
           if HasPrefix (Content record) "v=spf1"
           then <[recordName := Content record]> m
           else m
         else if HasPrefix recordName "spf"
              then <[recordName := Content record]> m
              else m)
    records ∅.

(** [i++] on Go's 64-bit [int]. *)
Definition incInt (i : Z) : Z := (i + 1 + 2 ^ 63) mod 2 ^ 64 - 2 ^ 63.

(** The loop [for i := 0; ; i++] that decides [isStale]; the result is the
    value of [isStale] when the loop is left. *)
Fixpoint staleLoop (fuel : nat) (chainedRecords : gmap string string)
    (domain name : string) (i : Z) : run bool :=
  match fuel with
  | O => OutOfFuel
  | S fuel' =>
      let spfName := "spf" +:+ ItoaZ i +:+ "." +:+ domain in
      let ok := bool_decide (is_Some (chainedRecords !! spfName)) in
      if negb ok && negb (String.eqb name spfName) then
        staleLoop fuel' chainedRecords domain name (incInt i)
      else if String.eqb name spfName then Ret false
      else if negb ok then Ret true
      else staleLoop fuel' chainedRecords domain name (incInt i)
  end.

(** The first record named [name]: the one [client.DeleteRecord] is
    called for. *)
Definition recordNamed (records : list Record) (name : string)
  : option Record :=
  List.find (fun rec => String.eqb (TrimSuffix (Name rec) ".") name) records.

(** The calls made to the provider. *)
Inductive apiCall : Type :=
| DeleteRecord (recordID : string)
| CreateRecord (hostName content : string) (ttl : Z)
| UpdateRecordWithDetails (recordID hostName content : string) (ttl : Z).

(** The delete loop over [existingSPFTXTRecords]; [names] are its keys in
    the order in which the map is ranged over.  The result is the list of
    the calls made so far, and whether the loop has ended ([false]: an
    [isStale] loop is still running when the fuel is exhausted).  The
    answers of the provider are only logged. *)
Fixpoint deleteStaleRecords (fuel : nat) (spfUnflat : bool) (domain : string)
    (records : list Record) (chainedRecords : gmap string string)
    (names : list string) : list apiCall * bool :=
  match names with
  | [] => ([], true)
  | name :: names' =>
      if HasPrefix name "spf" && Contains name domain then
        if spfUnflat && String.eqb name ("spf-unflat." +:+ domain) then
          deleteStaleRecords fuel spfUnflat domain records chainedRecords names'
        else
          match staleLoop fuel chainedRecords domain name 0 with
          | Ret isStale =>
              let deleted :=
                if isStale then
                  match recordNamed records name with
                  | Some rec => [DeleteRecord (ID rec)]
                  | None => []
                  end
                else [] in
              let '(more, ended) :=
                deleteStaleRecords fuel spfUnflat domain records
                                   chainedRecords names' in
              (deleted ++ more, ended)
          | _ => ([], false)
          end
      else
        deleteStaleRecords fuel spfUnflat domain records chainedRecords names'
  end.

(** [existingID]: the ID of the first TXT record named [name], Go's empty
    string when there is none. *)
Definition findExistingID (records : list Record) (name : string) : string :=
  match List.find
          (fun rec => String.eqb (TrimSuffix (Name rec) ".") name
                      && String.eqb (Type_ rec) "TXT")
          records with
  | Some rec => ID rec
  | None => EmptyString
  end.

(** [existingRecordHostname]: the name of the first record with the ID. *)
Definition hostnameOfID (records : list Record) (recordID : string) : string :=
  match List.find (fun rec => String.eqb (ID rec) recordID) records with
  | Some rec => TrimSuffix (Name rec) "."
  | None => EmptyString
  end.

(** One iteration of [for name, content := range chainedRecords]. *)
Definition upsertRecord (domain : string) (ttl : Z) (records : list Record)
    (entry : string * string) : list apiCall :=
  let '(name, content) := entry in
  let hostName :=
    if String.eqb name domain then EmptyString
    else TrimSuffix name ("." +:+ domain) in
  let existingID := findExistingID records name in
  if negb (String.eqb existingID EmptyString) then
    if String.eqb (hostnameOfID records existingID) name
    then [UpdateRecordWithDetails existingID hostName content ttl]
    else [DeleteRecord existingID; CreateRecord hostName content ttl]
  else [CreateRecord hostName content ttl].

(** The production branch of the command: the delete loop, then the
    create/update loop over [entries], the desired records in the order in
    which [chainedRecords] is ranged over. *)
Definition applyChanges (fuel : nat) (spfUnflat : bool) (domain : string)
    (ttl : Z) (records : list Record) (chainedRecords : gmap string string)
    (names : list string) (entries : list (string * string))
  : list apiCall * bool :=
  let '(calls, ended) :=
    deleteStaleRecords fuel spfUnflat domain records chainedRecords names in
  if ended
  then (calls ++ flat_map (upsertRecord domain ttl records) entries, true)
  else (calls, false).

End FlattenCmd.

(** ** [internal/porkbun/client.go] *)

Module Porkbun.

Local Open Scope Z_scope.

(** [redactSensitive]. *)
Definition redactSensitive (input : string) : string :=
  let input := ReplaceAll input "apikey" "[REDACTED]" in
  let input := ReplaceAll input "secretapikey" "[REDACTED]" in
  input.

(** [*http.Response]: the status code, the status line and the body read
    by [io.ReadAll]. *)
Record Response : Type := mkResponse {
  StatusCode : Z;
  StatusLine : string;
  respBody : string
}.

(** [checkHTTPStatus]. *)
Definition checkHTTPStatus (resp : Response) : option error :=
  if (StatusCode resp =? 429) || (StatusCode resp =? 503)
  then Some ("HTTP " +:+ ItoaZ (StatusCode resp) +:+ " " +:+ StatusLine resp
               +:+ ": " +:+ respBody resp)
  else None.

(** [RetrieveRecordsResponse]. *)
Record RetrieveRecordsResponse : Type := mkRetrieveRecordsResponse {
  Status : string;
  Records : list FlattenCmd.Record
}.

(** [RetrieveRecords], from the answer of [c.client.Do(req)] on:
    [transport] is that answer and [parsed] what [json.Unmarshal] makes of
    the body. *)
Definition RetrieveRecords (transport : result Response)
    (parsed : result RetrieveRecordsResponse)
  : result RetrieveRecordsResponse :=
  match transport with
  | Err err => Err err
  | Ok resp =>
      match checkHTTPStatus resp with
      | Some err => Err err
      | None =>
          match parsed with
          | Err err =>
              Err ("failed to unmarshal response body: " +:+ err
                     +:+ ", body: " +:+ respBody resp)
          | Ok retrieveRecordsResponse =>
              if negb (String.eqb (Status retrieveRecordsResponse) "SUCCESS")
              then Err ("Porkbun API error retrieving records: "
                          +:+ Status retrieveRecordsResponse)
              else Ok retrieveRecordsResponse
          end
      end
  end.

End Porkbun.

(** ** The backup manager ([internal/porkbun/client.go]): retry and backoff *)

Module Backup.

Local Open Scope Z_scope.

(** The fields of [BackupManager] that the retry wrapper reads.  A
    [time.Duration] is a number of nanoseconds.  The [float64] arithmetic
    of [calculateBackoffDelay] is modelled by exact rational arithmetic.
    The two agree where every intermediate value is an integer below
    [2^53], which [float64] represents exactly: this is the case of the
    defaults without jitter, the only configuration whose delays are
    computed below.  Elsewhere [float64] rounds, and the value of the
    model can differ from the value of the code; what is proved below for
    an arbitrary configuration is about the calls and the result of the
    wrapper, not about the values of the delays. *)
Record BackupManager : Type := mkBackupManager {
  retryCount : Z;
  retryDelay : Z;
  maxRetryDelay : Z;
  backoffMultiplier : Q;
  jitterEnabled : bool
}.

Definition second : Z := 1000000000.

(** The defaults of [NewBackupManager]. *)
Definition defaultManager : BackupManager :=
  mkBackupManager 5 (1 * second) (30 * second) 2 false.

(** [time.Duration(x)] for a [float64]: truncation towards zero. *)
Definition truncate (x : Q) : Z := Z.quot (Qnum x) (Z.pos (Qden x)).

(** [calculateBackoffDelay]; [rnd] is the value of [rand.Float64()], in
    [[0, 1)]. *)
Definition calculateBackoffDelay (bm : BackupManager) (attempt : Z) (rnd : Q)
  : Z :=
  if attempt =? 0 then 0
  else
    let delay :=
      (inject_Z (retryDelay bm) * Qpower (backoffMultiplier bm) (attempt - 1))%Q in
    let delay :=
      if Qle_bool delay (inject_Z (maxRetryDelay bm)) then delay
      else inject_Z (maxRetryDelay bm) in
    let duration := truncate delay in
    if jitterEnabled bm then
      let jitter := truncate (rnd * inject_Z duration * (1 # 10))%Q in
      duration + jitter
    else duration.

(** [isRateLimitError] and [isTemporaryError], on the message of a
    non-nil error. *)
Definition isRateLimitError (err : error) : bool :=
  Contains err "429" || Contains err "503" || Contains err "rate limit" ||
  Contains err "too many requests" || Contains err "quota exceeded".

Definition isTemporaryError (err : error) : bool :=
  Contains err "timeout" || Contains err "connection refused" ||
  Contains err "network is unreachable" || Contains err "temporary" ||
  Contains err "temporary failure".

(** What the wrapper does, in order. *)
Inductive event : Type :=
| Call (attempt : Z)
| Sleep (delay : Z).

Definition failedAfter (bm : BackupManager) (operation : string)
    (lastErr : error) : error :=
  operation +:+ " failed after " +:+ ItoaZ (retryCount bm) +:+ " attempts: "
            +:+ lastErr.

(** [withRetry], for a context that is not cancelled and a rate limiter
    that lets every call through.  [fn attempt] is the error returned by
    the call of [fn()] at the given attempt ([None] is [nil]) and
    [rnd attempt] the random number drawn after it.  [remaining] is
    [retryCount - attempt].  The result is the trace of calls and sleeps
    and the error returned. *)
Fixpoint retryLoop (bm : BackupManager) (operation : string)
    (fn : Z -> option error) (rnd : Z -> Q) (remaining : nat) (attempt : Z)
    (lastErr : error) : list event * option error :=
  match remaining with
  | O => ([], Some (failedAfter bm operation lastErr))
  | S remaining' =>
      match fn attempt with
      | None => ([Call attempt], None)
      | Some err =>
          if isRateLimitError err || isTemporaryError err then
            if attempt <? retryCount bm - 1 then
              let delay := calculateBackoffDelay bm attempt (rnd attempt) in
              let '(events, res) :=
                retryLoop bm operation fn rnd remaining' (attempt + 1) err in
              (Call attempt :: Sleep delay :: events, res)
            else
              let '(events, res) :=
                retryLoop bm operation fn rnd remaining' (attempt + 1) err in
              (Call attempt :: events, res)
          else ([Call attempt], Some (failedAfter bm operation err))
      end
  end.

Definition withRetry (bm : BackupManager) (operation : string)
    (fn : Z -> option error) (rnd : Z -> Q) : list event * option error :=
  retryLoop bm operation fn rnd (Z.to_nat (retryCount bm)) 0 "<nil>".

End Backup.

(** ** [ExtractMechanisms] and [ExtractMechanismSet] ([unnamed/part_007]) *)

Module Mechanisms.

(** [ExtractMechanisms]: the sorted mechanisms, without [v=spf1] and
    without the tokens that end in [all]. *)
Definition ExtractMechanisms (spfRecord : string) : result (list string) :=
  if negb (HasPrefix spfRecord "v=spf1") then
    Err "invalid SPF record: must start with v=spf1"
  else
    match Fields spfRecord with
    | [] => Err "empty SPF record"
    | _ :: rest =>
        Ok (sortStrings
              (fold_left
                 (fun mechanisms part =>
                    if HasSuffix part "all" then mechanisms
                    else if Normalize.isSPFMechanism part
                         then mechanisms ++ [part]
                         else mechanisms)
                 rest []))
    end.

(** [ExtractMechanismSet]; the slice [parts[1:]] of an empty [parts]
    panics. *)
Definition ExtractMechanismSet (spfRecord : string) : run (gset string) :=
  match Fields spfRecord with
  | [] => Panic "slice bounds out of range [1:0]"
  | _ :: rest =>
      Ret (fold_left
             (fun (mechSet : gset string) part =>
                if HasSuffix part "all" then {[ part ]} ∪ mechSet
                else if Normalize.isSPFMechanism part then {[ part ]} ∪ mechSet
                else mechSet)
             rest ∅)
  end.

End Mechanisms.

(** ** Record names in the backup manager ([internal/porkbun/client.go]) *)

Module Hostname.

(** [extractHostnameFromFQDN]. *)
Definition extractHostnameFromFQDN (fqdn domain : string) : string :=
  if String.eqb fqdn domain then "@"
  else if (len domain + 1 <? len fqdn)%nat && HasSuffix fqdn ("." +:+ domain)
       then TrimSuffix fqdn ("." +:+ domain)
       else fqdn.

End Hostname.


(** ** The records currently published ([unnamed/part_010]) *)

Module CurrentSPF.

(** The two variables the closure [processRecord] of
    [aggregateCurrentSPF] shares with its recursive calls. *)
Record aggState : Type := mkAggState {
  aggregatedMechanisms : list string;
  seenIncludes : gset string
}.

(** One iteration of [for _, part := range parts]; [processRecord] is the
    closure itself, for the recursive call. *)
Definition recordPart (processRecord : string -> aggState -> run aggState)
    (records : gmap string string) (st : aggState) (part : string)
  : run aggState :=
  if HasPrefix part "v=spf1" || HasSuffix part "all" then Ret st
  else if HasPrefix part "include:" then
    let includeDomain := TrimPrefix part "include:" in
    if bool_decide (includeDomain ∈ seenIncludes st) then Ret st
    else
      let st := mkAggState (aggregatedMechanisms st)
                           ({[ includeDomain ]} ∪ seenIncludes st) in
      match records !! includeDomain with
      | Some nextRecord => processRecord nextRecord st
      | None =>
          Ret (mkAggState (aggregatedMechanisms st ++ [part]) (seenIncludes st))
      end
  else Ret (mkAggState (aggregatedMechanisms st ++ [part]) (seenIncludes st)).

(** The closure [processRecord]; [fuel] bounds the depth of its
    recursion. *)
Fixpoint processRecord (fuel : nat) (records : gmap string string)
    (recordContent : string) (st : aggState) : run aggState :=
  match fuel with
  | O => OutOfFuel
  | S fuel' =>
      fold_left
        (fun acc part =>
           st ← acc;
           recordPart (processRecord fuel' records) records st part)
        (Fields recordContent) (Ret st)
  end.

(** [aggregateCurrentSPF]. *)
Definition aggregateCurrentSPF (fuel : nat) (records : gmap string string)
    (domain : string) : run string :=
  match records !! domain with
  | Some rootSPF =>
      st ← processRecord fuel records rootSPF (mkAggState [] ∅);
      match Normalize.NormalizeSPF
              ("v=spf1 " +:+ Join (aggregatedMechanisms st) " " +:+ " ~all") with
      | Ok normalized => Ret normalized
      | Err _ => Ret "(Could not normalize existing record)"
      end
  | None => Ret "(No valid SPF record found on root)"
  end.

End CurrentSPF.
(** * Predicates and data of the properties *)

Import Normalize Cidr Split Flatten FlattenCmd Porkbun Backup.

(** ** Strings *)

(** A token: a non-empty string without white space. *)
Fixpoint noSpace (s : string) : bool :=
  match s with
  | EmptyString => true
  | String c s' => negb (isSpace c) && noSpace s'
  end.

Definition isToken (t : string) : Prop :=
  t <> EmptyString /\ noSpace t = true.

(** The order of [sort.Strings]. *)
Definition lebS (x y : string) : Prop := String.leb x y = true.

(** [avoids c p]: the byte [c] does not occur in [p]. *)
Fixpoint avoids (c : ascii) (p : string) : bool :=
  match p with
  | EmptyString => true
  | String c' p' => negb (Ascii.eqb c c') && avoids c p'
  end.

(** The string begins with a decimal digit. *)
Definition headDigit (s : string) : Prop :=
  exists c rest, s = String c rest /\ isDigit c = true.

(** [n] copies of [s]: Go's [strings.Repeat]. *)
Fixpoint Repeat (s : string) (n : nat) : string :=
  match n with
  | O => EmptyString
  | S n' => s +:+ Repeat s n'
  end.

(** ** Normalization *)

(** The three classes of [normStep]. *)
Definition isAll (p : string) : bool := HasSuffix p "all".
Definition isMech (p : string) : bool := negb (isAll p) && isSPFMechanism p.
Definition isUnknown (p : string) : bool :=
  negb (isAll p) && negb (isSPFMechanism p).

(** The token list [NormalizeSPF] joins, for [parts = p0 :: rest]. *)
Definition allTail (rest : list string) : list string :=
  let a := List.last (List.filter isAll rest) EmptyString in
  if String.eqb a EmptyString then [] else [a].

Definition normalizedList (p0 : string) (rest : list string) : list string :=
  (p0 :: List.filter isUnknown rest)
    ++ sortStrings (List.filter isMech rest) ++ allTail rest.

(** ** Chained records *)

(** Every value of the map is at most 255 bytes long. *)
Definition allWithinLimit (m : gmap string string) : Prop :=
  forall k v, m !! k = Some v -> (len v <= maxSPFChars)%nat.

(** The names [SplitAndChainSPF] gives to the records it emits. *)
Definition desiredName (domain name : string) : Prop :=
  name = domain \/ exists i, name = "spf" +:+ Itoa i +:+ "." +:+ domain.

(** The record of [TestSplitAndChainSPF_Lengths], 711 bytes. *)
Definition longRecord : string :=
  "v=spf1 " +:+ Repeat "ip4:192.0.2.1 " 50 +:+ "~all".

(** A domain name of 231 bytes, four labels of 57 bytes each: valid for
    [isValidDomainName] (at most 253 bytes, labels of at most 63). *)
Definition longDomain : string :=
  let label := Repeat "a" 57 in
  label +:+ "." +:+ label +:+ "." +:+ label +:+ "." +:+ label.

(** ** The flattener and the lookup counter *)

(** What the cache holds is what the provider answers. *)
Definition cacheOK (dns : DNSProvider) (cache : gmap string (list string))
  : Prop :=
  forall d recs, cache !! d = Some recs -> LookupTXT dns d = Ok recs.

(** The invariant of the flattener while a record is processed: the cache
    is faithful and the recursion stack is [stk]. *)
Definition flatInv (dns : DNSProvider) (stk : gset string) (f : flattener)
  : Prop :=
  cacheOK dns (dnsCache f) /\ recursionStack f = stk.

(** The invariant of a successful expansion: moreover the recorded error
    is [re]. *)
Definition flatOK (dns : DNSProvider) (stk : gset string) (re : option error)
    (f : flattener) : Prop :=
  flatInv dns stk f /\ recursionErr f = re.

(** [f'] differs from [f] by its set of mechanisms at most. *)
Definition sameControl (f f' : flattener) : Prop :=
  dnsCache f' = dnsCache f /\ recursionStack f' = recursionStack f /\
  recursionErr f' = recursionErr f.

(** The invariant of the lookup counter. *)
Definition counterInv (dns : DNSProvider) (c : lookupCounter) : Prop :=
  cacheOK dns (counterCache c).

(** [revisits dns rec d path]: while the record [rec] of the domain [d] is
    expanded with the domains of [path] on the expansion path, the
    [include:] chain comes back to a domain of the path.  A step of the
    chain goes from a record to a record beginning with [v=spf1] among the
    TXT records of a domain it includes. *)
Inductive revisits (dns : DNSProvider)
  : string -> string -> gset string -> Prop :=
| revisits_here rec d path :
    d ∈ path -> revisits dns rec d path
| revisits_step rec d path part recs rec' :
    In part (Fields rec) ->
    HasPrefix part "include:" = true ->
    LookupTXT dns (TrimPrefix part "include:") = Ok recs ->
    In rec' recs ->
    HasPrefix rec' "v=spf1" = true ->
    revisits dns rec' (TrimPrefix part "include:") ({[ d ]} ∪ path) ->
    revisits dns rec d path.

(** [treeOK dns levels rec]: every [include:] of [rec] can be looked up,
    and so on below it, within [levels] levels. *)
Fixpoint treeOK (dns : DNSProvider) (levels : nat) (rec : string) : bool :=
  match levels with
  | O => false
  | S levels' =>
      forallb
        (fun part =>
           if HasPrefix part "include:" then
             match LookupTXT dns (TrimPrefix part "include:") with
             | Ok recs =>
                 forallb (fun r => if HasPrefix r "v=spf1"
                                   then treeOK dns levels' r else true) recs
             | Err _ => false
             end
           else true)
        (Fields rec)
  end.

(** [below dns rec_a rec]: the tree of [rec] is at most as deep as the
    tree of [rec_a]. *)
Definition below (dns : DNSProvider) (rec_a rec : string) : Prop :=
  forall levels, treeOK dns levels rec_a = true -> treeOK dns levels rec = true.

(** The domains of [stk] are being expanded, each through one of its
    records, and the record [rec] lies in the tree of each. *)
Definition ancestorsOK (dns : DNSProvider) (stk : gset string) (rec : string)
  : Prop :=
  forall a, a ∈ stk ->
    exists recs rec_a,
      LookupTXT dns a = Ok recs /\ In rec_a recs /\
      HasPrefix rec_a "v=spf1" = true /\ below dns rec_a rec.

(** A ring of twelve domains: [d0] includes [d1], and so on to [d11],
    which includes [d0]. *)
Definition ringDNS : DNSProvider :=
  mockDNSProvider
    [("d0", ["v=spf1 include:d1 ~all"]); ("d1", ["v=spf1 include:d2 ~all"]);
     ("d2", ["v=spf1 include:d3 ~all"]); ("d3", ["v=spf1 include:d4 ~all"]);
     ("d4", ["v=spf1 include:d5 ~all"]); ("d5", ["v=spf1 include:d6 ~all"]);
     ("d6", ["v=spf1 include:d7 ~all"]); ("d7", ["v=spf1 include:d8 ~all"]);
     ("d8", ["v=spf1 include:d9 ~all"]); ("d9", ["v=spf1 include:d10 ~all"]);
     ("d10", ["v=spf1 include:d11 ~all"]); ("d11", ["v=spf1 include:d0 ~all"])]
    [] [].

(** One step along the ring. *)
Ltac ring_step :=
  eapply revisits_step;
  [ right; left; reflexivity
  | reflexivity
  | vm_compute; reflexivity
  | left; reflexivity
  | reflexivity
  | ].

(** The first case of [TestFlattenSPFWithThreshold]. *)
Definition gateDNS : DNSProvider :=
  mockDNSProvider
    [("example.com", ["v=spf1 include:_spf.google.com ~all"]);
     ("_spf.google.com", ["v=spf1 ip4:74.125.0.0/16 ~all"])]
    [] [].

(** A record that holds the mechanism [all] without a qualifier. *)
Definition bareAllDNS : DNSProvider :=
  mockDNSProvider [("example.com", ["v=spf1 all"])] [] [].

(** The mechanisms that need a lookup, as the specification names them:
    [include:], [a], [a:<host>], [mx] and [mx:<host>] (an [a] or [mx] may
    carry a prefix length). *)
Definition isLookupMechanism (part : string) : bool :=
  HasPrefix part "include:" ||
  String.eqb part "a" || HasPrefix part "a:" || HasPrefix part "a/" ||
  String.eqb part "mx" || HasPrefix part "mx:" || HasPrefix part "mx/".

(** The lookups a record requires, as the specification counts them: one
    for every occurrence of a mechanism that needs a lookup, in the record
    and in the records it includes, [levels] levels deep. *)
Fixpoint mechanismLookups (dns : DNSProvider) (levels : nat) (rec : string)
  : Z :=
  match levels with
  | O => 0
  | S levels' =>
      fold_right
        (fun part total =>
           (if isLookupMechanism part then 1 else 0)
           + (if HasPrefix part "include:" then
                match LookupTXT dns (TrimPrefix part "include:") with
                | Ok recs =>
                    fold_right
                      (fun r t =>
                         (if HasPrefix r "v=spf1"
                          then mechanismLookups dns levels' r else 0) + t)
                      0 recs
                | Err _ => 0
                end
              else 0)
           + total)%Z
        0%Z (Fields rec)
  end.

(** One lookup for the TXT record of the domain, and those of its
    mechanisms. *)
Definition requiredLookups (dns : DNSProvider) (domain : string) : Z :=
  match LookupTXT dns domain with
  | Ok records => (1 + mechanismLookups dns maxLevels (firstSPF records))%Z
  | Err _ => 0%Z
  end.

(** A record with nine [include:] mechanisms and the mechanism [all]
    without a qualifier; the included records hold one address each. *)
Definition nineIncludesDNS : DNSProvider :=
  mockDNSProvider
    [("example.com",
      ["v=spf1 include:i1 include:i2 include:i3 include:i4 include:i5 include:i6 include:i7 include:i8 include:i9 all"]);
     ("i1", ["v=spf1 ip4:192.0.2.1 ~all"]);
     ("i2", ["v=spf1 ip4:192.0.2.2 ~all"]);
     ("i3", ["v=spf1 ip4:192.0.2.3 ~all"]);
     ("i4", ["v=spf1 ip4:192.0.2.4 ~all"]);
     ("i5", ["v=spf1 ip4:192.0.2.5 ~all"]);
     ("i6", ["v=spf1 ip4:192.0.2.6 ~all"]);
     ("i7", ["v=spf1 ip4:192.0.2.7 ~all"]);
     ("i8", ["v=spf1 ip4:192.0.2.8 ~all"]);
     ("i9", ["v=spf1 ip4:192.0.2.9 ~all"])]
    [] [].

(** The first of the elements for which [f] gives a result. *)
Fixpoint firstSome {A B : Type} (f : A -> option B) (l : list A) : option B :=
  match l with
  | [] => None
  | x :: l' =>
      match f x with
      | Some b => Some b
      | None => firstSome f l'
      end
  end.

(** What can stop the expansion of an [include:] tree: a twelfth nested
    domain, a domain that is already on the expansion path, an included
    domain whose TXT lookup fails. *)
Inductive failure : Type :=
| DepthExceeded (d : string)
| CycleDetected (d : string)
| LookupFailed (d : string) (err : error).

(** The first failure met when the tree of the record [rec] of the domain
    [d] is walked depth-first, the parts of a record and the records of an
    included domain in their order, with the domains of [path] on the
    expansion path and [levels] levels left; the depth is tested before
    the path.  [None]: the walk meets no failure. *)
Fixpoint firstFailure (dns : DNSProvider) (levels : nat) (rec d : string)
    (path : gset string) : option failure :=
  match levels with
  | O => Some (DepthExceeded d)
  | S levels' =>
      if bool_decide (d ∈ path) then Some (CycleDetected d)
      else
        firstSome
          (fun part =>
             if HasPrefix part "include:" then
               match LookupTXT dns (TrimPrefix part "include:") with
               | Err err => Some (LookupFailed (TrimPrefix part "include:") err)
               | Ok recs =>
                   firstSome
                     (fun r =>
                        if HasPrefix r "v=spf1"
                        then firstFailure dns levels' r
                               (TrimPrefix part "include:") ({[ d ]} ∪ path)
                        else None)
                     recs
               end
             else None)
          (Fields rec)
  end.

(** The error [processMechanism] returns for a failure ([Ok]: none), and
    the error it records in [recursionErr]. *)
Definition failureResult (fl : option failure) : result unit :=
  match fl with
  | None => Ok tt
  | Some (DepthExceeded d) => Err ("recursion depth exceeded for " +:+ d)
  | Some (CycleDetected d) => Err ("recursion detected for domain " +:+ d)
  | Some (LookupFailed d err) =>
      Err ("failed to lookup included SPF for " +:+ d +:+ ": " +:+ err)
  end.

Definition failureRecorded (fl : option failure) : option error :=
  match fl with
  | Some (DepthExceeded d) => Some ("recursion depth exceeded for " +:+ d)
  | Some (CycleDetected d) => Some ("recursion detected for domain " +:+ d)
  | _ => None
  end.

(** The error [FlattenSPF] returns for a failure met while the record of
    [domain] is expanded. *)
Definition failureError (domain : string) (fl : failure) : error :=
  match fl with
  | DepthExceeded d => "recursion depth exceeded for " +:+ d
  | CycleDetected d => "recursion detected for domain " +:+ d
  | LookupFailed d err =>
      "failed to process SPF mechanisms for domain " +:+ domain +:+ ": "
        +:+ ("failed to lookup included SPF for " +:+ d +:+ ": " +:+ err)
  end.

(** ** Retry *)

(** An operation that fails with a timeout at every attempt. *)
Definition alwaysTimeout : Z -> option error := fun _ => Some "i/o timeout".

(** ** Predicates of the further properties *)

Import Mechanisms Hostname CurrentSPF.

(** The event is a call of the wrapped function. *)
Definition isCall (e : event) : bool :=
  match e with
  | Call _ => true
  | Sleep _ => false
  end.

(** The error is one the wrapper retries. *)
Definition retryable (err : error) : bool :=
  isRateLimitError err || isTemporaryError err.

(** The sum of the results of [f] over a list; [None] when one of them is
    [None]. *)
Definition sumOpt {A} (f : A -> option Z) (l : list A) : option Z :=
  fold_right
    (fun x acc =>
       match f x, acc with
       | Some a, Some b => Some (a + b)%Z
       | _, _ => None
       end)
    (Some 0%Z) l.

(** [lookupsOf dns levels rec]: the number of fields that begin with
    [include:], [a] or [mx] met while the record [rec] is expanded through
    its [include:] mechanisms, each counted every time it is met; [None]
    when an included domain cannot be looked up or the expansion is deeper
    than [levels] levels. *)
Fixpoint lookupsOf (dns : DNSProvider) (levels : nat) (rec : string)
  : option Z :=
  match levels with
  | O => None
  | S levels' =>
      sumOpt
        (fun part =>
           if HasPrefix part "include:" then
             match LookupTXT dns (TrimPrefix part "include:") with
             | Err _ => None
             | Ok recs =>
                 option_map (Z.add 1)
                   (sumOpt (fun r => if HasPrefix r "v=spf1"
                                     then lookupsOf dns levels' r
                                     else Some 0%Z) recs)
             end
           else if HasPrefix part "a" then Some 1%Z
           else if HasPrefix part "mx" then Some 1%Z
           else Some 0%Z)
        (Fields rec)
  end.

(** The total of the per-domain counters. *)
Definition totalLookups (c : lookupCounter) : Z :=
  map_fold (fun (_ : string) count total => (total + count)%Z) 0%Z (visited c).

(** [literal dns rec m]: the field [m], an [ip4:] or [ip6:] mechanism, is
    written in the record [rec] or in a record beginning with [v=spf1]
    that is reached from it through [include:] mechanisms. *)
Inductive literal (dns : DNSProvider) : string -> string -> Prop :=
| literal_here rec m :
    In m (Fields rec) ->
    HasPrefix m "ip4:" || HasPrefix m "ip6:" = true ->
    literal dns rec m
| literal_step rec part recs rec' m :
    In part (Fields rec) ->
    HasPrefix part "include:" = true ->
    LookupTXT dns (TrimPrefix part "include:") = Ok recs ->
    In rec' recs ->
    HasPrefix rec' "v=spf1" = true ->
    literal dns rec' m ->
    literal dns rec m.

(** The mechanisms collected so far are still there. *)
Definition grows (f f' : flattener) : Prop :=
  flattenedIPs f ⊆ flattenedIPs f'.

(** A block of addresses: its first address and its size.  [okBlock]: the
    size is a power of two, the first address a multiple of it, and the
    block lies within the 32-bit addresses. *)
Definition okBlock (b : Z * Z) : Prop :=
  exists k, (0 <= k <= 31 /\ snd b = 2 ^ k /\ fst b mod 2 ^ k = 0 /\
             0 <= fst b /\ fst b + snd b <= 2 ^ 32)%Z.

Definition inBlock (a : Z) (b : Z * Z) : Prop :=
  (fst b <= a < fst b + snd b)%Z.

(** The address lies in one of the blocks. *)
Definition covers (blocks : list (Z * Z)) (a : Z) : Prop :=
  Exists (inBlock a) blocks.

(** The mechanism [rangeToExactCIDRs] writes for a block: the bare address
    for a block of one address, the address and the prefix length
    otherwise. *)
Definition cidrText `{NetCodec} (b : Z * Z) : string :=
  if (32 - Z.log2 (snd b) =? 32)%Z
  then "ip4:" +:+ IPString (uint32ToIP (fst b))
  else "ip4:" +:+ IPString (uint32ToIP (fst b)) +:+ "/"
         +:+ ItoaZ (32 - Z.log2 (snd b)).

(** A four-byte address. *)
Definition isIPv4 (ip : IP) : Prop :=
  exists a b c d,
    ip = [a; b; c; d] /\
    (0 <= a < 256 /\ 0 <= b < 256 /\ 0 <= c < 256 /\ 0 <= d < 256)%Z.

(** The name of the [i]-th continuation record. *)
Definition spfName (domain : string) (i : nat) : string :=
  "spf" +:+ Itoa i +:+ "." +:+ domain.

(** The end of the [i]-th continuation record among [n]: the link to the
    next one, or the final [~all]. *)
Definition chainLink (domain : string) (n i : nat) : string :=
  if (i <? n - 1)%nat
  then " include:spf" +:+ Itoa (i + 1) +:+ "." +:+ domain +:+ " ~all"
  else " ~all".

(** The number read from a string of decimal digits, most significant
    digit first. *)
Fixpoint decimalValue (acc : nat) (s : string) : nat :=
  match s with
  | EmptyString => acc
  | String c s' => decimalValue (10 * acc + (nat_of_ascii c - 48)) s'
  end.

(** The number of digits [itoaFrom] writes. *)
Fixpoint digitCount (fuel n : nat) : nat :=
  match fuel with
  | O => O
  | S fuel' => if (n <? 10)%nat then 1 else S (digitCount fuel' (n / 10))
  end.

(** The same for the 128-bit addresses. *)
Definition okBlock6 (b : Z * Z) : Prop :=
  exists k, (0 <= k <= 128 /\ snd b = 2 ^ k /\ fst b mod 2 ^ k = 0 /\
             0 <= fst b /\ fst b + snd b <= 2 ^ 128)%Z.

(** The mechanism [ipv6RangeToExactCIDRs] writes for a block. *)
Definition cidrText6 `{NetCodec} (b : Z * Z) : string :=
  if (128 - Z.log2 (snd b) =? 128)%Z
  then "ip6:" +:+ IPString (bigIntToIPv6 (fst b))
  else "ip6:" +:+ IPString (bigIntToIPv6 (fst b)) +:+ "/"
         +:+ ItoaZ (128 - Z.log2 (snd b)).

(** A sixteen-byte address that is not an IPv4-mapped one. *)
Definition isIPv6 (ip : IP) : Prop :=
  length ip = 16%nat /\ To4 ip = None /\
  Forall (fun b => 0 <= b < 256)%Z ip.

(** The mechanisms the aggregator does not touch: those that are neither
    [ip4:] nor [ip6:], and the [ip4:] and [ip6:] mechanisms that are
    already CIDR blocks. *)
Definition keptAsIs `{NetCodec} (m : string) : Prop :=
  (HasPrefix m "ip4:" = false /\ HasPrefix m "ip6:" = false) \/
  (HasPrefix m "ip4:" = true /\ Contains (TrimPrefix m "ip4:") "/" = true /\
   is_Some (ParseCIDR (TrimPrefix m "ip4:"))) \/
  (HasPrefix m "ip6:" = true /\ Contains (TrimPrefix m "ip6:") "/" = true /\
   is_Some (ParseCIDR (TrimPrefix m "ip6:"))).


(** An [ip4:] mechanism without a prefix length whose address
    [net.ParseIP] reads as the four bytes [ip]. *)
Definition individualIPv4 `{NetCodec} (m : string) (ip : IP) : Prop :=
  HasPrefix m "ip4:" = true /\
  Contains (TrimPrefix m "ip4:") "/" = false /\
  exists parsed,
    ParseIP (TrimPrefix m "ip4:") = Some parsed /\ To4 parsed = Some ip /\
    isIPv4 ip.

(** The block is one address. *)
Definition oneAddress (b : Z * Z) : bool := (snd b =? 1)%Z.

(** A mechanism that [aggregateCurrentSPF] copies as it is: a field that
    is not the version, does not end in [all] and is no [include:]. *)
Definition plainMechanism (t : string) : Prop :=
  isToken t /\ HasPrefix t "v=spf1" = false /\ HasSuffix t "all" = false /\
  HasPrefix t "include:" = false.

(** The record [FlattenSPF] writes for a list of mechanisms. *)
Definition flattenedRecord (mechanisms : list string) : string :=
  "v=spf1 " +:+ Join mechanisms " " +:+ " ~all".

(** A record of the packing loop of [SplitAndChainSPF]: the version and a
    group of mechanisms. *)
Definition packedRecord (group : list string) : string :=
  Join ("v=spf1" :: group) " ".

(** The packed record leaves room for the chaining the packing loop
    reckons with, [ include:spfX.<domain> ~all]. *)
Definition fitsChain (domain : string) (group : list string) : Prop :=
  (len (packedRecord group) + len domain + 19 <= 255)%nat.

(** Fifty mechanisms: their flattened record has 711 bytes. *)
Definition fiftyAddresses : list string := repeat "ip4:192.0.2.1" 50.
(** * Properties *)

(** ** Strings *)

Example Fields_example :
  Fields "v=spf1  mx a ~all " = ["v=spf1"; "mx"; "a"; "~all"].
Proof. reflexivity. Qed.

Example Itoa_example : Itoa 0 = "0" /\ Itoa 10 = "10" /\ Itoa 255 = "255".
Proof. repeat split; reflexivity. Qed.

Example ReplaceAll_example :
  ReplaceAll "xapikeyapikeyy" "apikey" "[R]" = "x[R][R]y".
Proof. reflexivity. Qed.

Lemma Fields_nonspace_nonempty c s :
  isSpace c = false -> Fields (String c s) <> [].
Proof.
  intros Hc. simpl. rewrite Hc.
  destruct s as [|c' s']; [discriminate|].
  destruct (isSpace c'); [discriminate|].
  destruct (Fields (String c' s')); discriminate.
Qed.

Lemma Fields_tokens s : Forall isToken (Fields s).
Proof.
  induction s as [|c s IH]; [constructor|].
  cbn [Fields]. destruct (isSpace c) eqn:Hc; [exact IH|].
  destruct s as [|c' s'].
  - constructor; [|constructor]. split; [discriminate|]. simpl. now rewrite Hc.
  - destruct (isSpace c') eqn:Hc'.
    + constructor; [|exact IH]. split; [discriminate|]. simpl. now rewrite Hc.
    + destruct (Fields (String c' s')) as [|t ts] eqn:E.
      * constructor; [|constructor]. split; [discriminate|]. simpl. now rewrite Hc.
      * inversion IH as [|? ? [Ht1 Ht2] Hts]; subst.
        constructor; [|exact Hts]. split; [discriminate|].
        simpl. now rewrite Hc, Ht2.
Qed.

Lemma Fields_cons2 c c' s :
  isSpace c = false -> isSpace c' = false ->
  Fields (String c (String c' s)) =
  match Fields (String c' s) with
  | t :: ts => String c t :: ts
  | [] => [String c EmptyString]
  end.
Proof.
  intros Hc Hc'.
  change (Fields (String c (String c' s))) with
    (if isSpace c then Fields (String c' s)
     else if isSpace c' then String c EmptyString :: Fields (String c' s)
     else match Fields (String c' s) with
          | t :: ts => String c t :: ts
          | [] => [String c EmptyString]
          end).
  now rewrite Hc, Hc'.
Qed.

Lemma noSpace_cons c t :
  noSpace (String c t) = true -> isSpace c = false /\ noSpace t = true.
Proof.
  simpl. intros H. apply andb_prop in H as [Hc Ht].
  now apply negb_true_iff in Hc.
Qed.

Lemma Fields_token_sep t s :
  isToken t -> Fields (t +:+ String " " s) = t :: Fields s.
Proof.
  intros [Hne Hns]. induction t as [|c t IH]; [congruence|].
  apply noSpace_cons in Hns as [Hc Ht].
  destruct t as [|c' t'].
  - simpl. now rewrite Hc.
  - destruct (noSpace_cons _ _ Ht) as [Hc' _].
    change (String c (String c' t') +:+ String " " s)
      with (String c (String c' (t' +:+ String " " s))).
    rewrite Fields_cons2 by assumption.
    change (String c' (t' +:+ String " " s))
      with (String c' t' +:+ String " " s).
    rewrite IH by (discriminate || exact Ht). reflexivity.
Qed.

Lemma Fields_token t : isToken t -> Fields t = [t].
Proof.
  intros [Hne Hns]. induction t as [|c t IH]; [congruence|].
  apply noSpace_cons in Hns as [Hc Ht].
  destruct t as [|c' t'].
  - simpl. now rewrite Hc.
  - destruct (noSpace_cons _ _ Ht) as [Hc' _].
    rewrite Fields_cons2 by assumption.
    rewrite IH by (discriminate || exact Ht). reflexivity.
Qed.

Lemma Fields_Join toks :
  Forall isToken toks -> Fields (Join toks " ") = toks.
Proof.
  unfold Join. induction 1 as [|t l Ht Hl IH]; [reflexivity|].
  destruct l as [|u l'].
  - simpl. now apply Fields_token.
  - change (String.concat " " (t :: u :: l'))
      with (t +:+ String " " (String.concat " " (u :: l'))).
    rewrite Fields_token_sep by exact Ht. now rewrite IH.
Qed.

Lemma HasPrefix_split s p :
  HasPrefix s p = true -> exists s2, s = p +:+ s2.
Proof.
  unfold HasPrefix. revert s. induction p as [|c p IH]; intros s H.
  - now exists s.
  - destruct s as [|c' s']; [discriminate|]. simpl in H.
    destruct (ascii_dec c c') as [->|]; [|discriminate].
    destruct (IH _ H) as [s2 ->]. now exists s2.
Qed.

Lemma HasPrefix_app p t x :
  HasPrefix t p = true -> HasPrefix (t +:+ x) p = true.
Proof.
  unfold HasPrefix. revert t. induction p as [|c p IH]; intros t H.
  - now destruct (t +:+ x).
  - destruct t as [|c' t']; [discriminate|]. simpl in *.
    destruct (ascii_dec c c'); [now apply IH|discriminate].
Qed.

Lemma HasPrefix_refl_app p x : HasPrefix (p +:+ x) p = true.
Proof.
  unfold HasPrefix. induction p as [|c p IH]; simpl.
  - now destruct x.
  - destruct (ascii_dec c c); [exact IH|congruence].
Qed.

Lemma Fields_head_keeps_prefix p s :
  isToken p -> exists t' rest, Fields (p +:+ s) = (p +:+ t') :: rest.
Proof.
  intros [Hne Hns]. induction p as [|c p IH]; [congruence|].
  apply noSpace_cons in Hns as [Hc Hp].
  destruct p as [|c' p'].
  - change (String c EmptyString +:+ s) with (String c s).
    destruct s as [|d s'].
    + exists EmptyString, []. simpl. now rewrite Hc.
    + destruct (isSpace d) eqn:Hd.
      * exists EmptyString, (Fields (String d s')).
        change (Fields (String c (String d s'))) with
          (if isSpace c then Fields (String d s')
           else if isSpace d then String c EmptyString :: Fields (String d s')
           else match Fields (String d s') with
                | t :: ts => String c t :: ts
                | [] => [String c EmptyString]
                end).
        now rewrite Hc, Hd.
      * rewrite Fields_cons2 by assumption.
        destruct (Fields (String d s')) as [|t ts] eqn:E.
        -- now apply Fields_nonspace_nonempty in E.
        -- now exists t, ts.
  - destruct (noSpace_cons _ _ Hp) as [Hc' _].
    destruct IH as (t' & rest & E); [discriminate|exact Hp|].
    exists t', rest.
    change (String c (String c' p') +:+ s) with (String c (String c' (p' +:+ s))).
    rewrite Fields_cons2 by assumption.
    change (String c' (p' +:+ s)) with (String c' p' +:+ s).
    now rewrite E.
Qed.

Lemma Join_cons_prefix t l p :
  HasPrefix t p = true -> HasPrefix (Join (t :: l) " ") p = true.
Proof.
  intros H. unfold Join. destruct l as [|u l']; [exact H|].
  change (String.concat " " (t :: u :: l'))
    with (t +:+ String " " (String.concat " " (u :: l'))).
  now apply HasPrefix_app.
Qed.

Lemma HasPrefix_cons c s c' p :
  HasPrefix (String c s) (String c' p) = Ascii.eqb c c' && HasPrefix s p.
Proof.
  unfold HasPrefix. simpl. destruct (ascii_dec c' c) as [->|Hne].
  - now rewrite Ascii.eqb_refl.
  - destruct (Ascii.eqb_spec c c'); [congruence|reflexivity].
Qed.

Lemma HasPrefix_nil s : HasPrefix s EmptyString = true.
Proof. now destruct s. Qed.

Lemma HasPrefix_empty p : p <> EmptyString -> HasPrefix EmptyString p = false.
Proof. now destruct p. Qed.

Lemma Contains_cons c s sub :
  Contains (String c s) sub = HasPrefix (String c s) sub || Contains s sub.
Proof. reflexivity. Qed.

Lemma Contains_of_prefix s sub : HasPrefix s sub = true -> Contains s sub = true.
Proof.
  intros Hp. destruct s as [|c s].
  - change (Contains EmptyString sub) with (HasPrefix EmptyString sub || false).
    now rewrite Hp.
  - now rewrite Contains_cons, Hp.
Qed.

Lemma Contains_skip a b sub :
  Contains b sub = true -> Contains (a +:+ b) sub = true.
Proof.
  intros Hb. induction a as [|c a IH]; [exact Hb|].
  change (String c a +:+ b) with (String c (a +:+ b)).
  rewrite Contains_cons, IH. apply orb_true_r.
Qed.


(** ** Sorting *)

Lemma insertString_sorted x l :
  Sorted lebS l -> Sorted lebS (insertString x l).
Proof.
  induction 1 as [|y l Hl IH Hhd]; simpl.
  - repeat constructor.
  - destruct (String.leb x y) eqn:E.
    + constructor; [now constructor|]. now constructor.
    + constructor; [exact IH|].
      assert (Hyx : lebS y x).
      { destruct (String.leb_total x y) as [H|H]; [congruence|exact H]. }
      destruct l as [|z l']; simpl.
      * now constructor.
      * destruct (String.leb x z); constructor; [exact Hyx|].
        now inversion Hhd.
Qed.

Lemma sortStrings_sorted l : Sorted lebS (sortStrings l).
Proof.
  induction l as [|x l IH]; simpl; [constructor|].
  now apply insertString_sorted.
Qed.

Lemma sortStrings_fixed l : Sorted lebS l -> sortStrings l = l.
Proof.
  induction 1 as [|x l Hl IH Hhd]; simpl; [reflexivity|].
  rewrite IH. destruct Hhd as [|y l' Hxy]; simpl; [reflexivity|].
  unfold lebS in Hxy. now rewrite Hxy.
Qed.

Lemma sortStrings_idempotent l : sortStrings (sortStrings l) = sortStrings l.
Proof. apply sortStrings_fixed, sortStrings_sorted. Qed.

Lemma insertString_Forall (P : string -> Prop) x l :
  P x -> Forall P l -> Forall P (insertString x l).
Proof.
  intros Hx. induction 1 as [|y l Hy Hl IH]; simpl.
  - now repeat constructor.
  - destruct (String.leb x y); repeat constructor; auto.
Qed.

Lemma sortStrings_Forall (P : string -> Prop) l :
  Forall P l -> Forall P (sortStrings l).
Proof.
  induction 1; simpl; [constructor|]. now apply insertString_Forall.
Qed.

(** ** [NormalizeSPF] *)

Lemma last_cons_default {A} (l : list A) p d :
  List.last (p :: l) d = List.last l p.
Proof.
  revert p d. induction l as [|b l IH]; intros p d; [reflexivity|].
  change (List.last (p :: b :: l) d) with (List.last (b :: l) d).
  now rewrite !IH.
Qed.

Lemma fold_normStep rest st :
  fold_left normStep rest st =
  mkNormState (normalizedParts st ++ List.filter isUnknown rest)
              (mechanisms st ++ List.filter isMech rest)
              (List.last (List.filter isAll rest) (allMechanism st)).
Proof.
  revert st. induction rest as [|p rest IH]; intros [np ms am]; simpl.
  - now rewrite !app_nil_r.
  - rewrite IH. unfold normStep, isUnknown, isMech, isAll.
    destruct (HasSuffix p "all"); simpl.
    + f_equal. symmetry. apply last_cons_default.
    + destruct (isSPFMechanism p); simpl; now rewrite <- ?app_assoc.
Qed.

Lemma NormalizeSPF_parts x p0 rest :
  HasPrefix x "v=spf1" = true -> Fields x = p0 :: rest ->
  NormalizeSPF x = Ok (Join (normalizedList p0 rest) " ").
Proof.
  intros Hp HF. unfold NormalizeSPF. rewrite Hp, HF. simpl negb. cbv iota.
  rewrite fold_normStep. cbn [normalizedParts mechanisms allMechanism].
  unfold normalizedList, allTail. rewrite app_nil_l.
  destruct (String.eqb _ EmptyString); f_equal; f_equal;
    now rewrite <- ?app_assoc, ?app_nil_r.
Qed.

Lemma filter_all_true {A} (f : A -> bool) l :
  Forall (fun x => f x = true) l -> List.filter f l = l.
Proof. induction 1 as [|x l Hx _ IH]; simpl; [|rewrite Hx, IH]; reflexivity. Qed.

Lemma filter_all_false {A} (f : A -> bool) l :
  Forall (fun x => f x = false) l -> List.filter f l = [].
Proof. induction 1 as [|x l Hx _ IH]; simpl; [|rewrite Hx, IH]; reflexivity. Qed.

Lemma Forall_filter_true {A} (f : A -> bool) l :
  Forall (fun x => f x = true) (List.filter f l).
Proof.
  induction l as [|x l IH]; simpl; [constructor|].
  destruct (f x) eqn:E; [constructor|]; assumption.
Qed.

Lemma Forall_filter_keep {A} (P : A -> Prop) (f : A -> bool) l :
  Forall P l -> Forall P (List.filter f l).
Proof.
  induction 1; simpl; [constructor|]. destruct (f x); [constructor|]; assumption.
Qed.

Lemma allTail_spec rest :
  Forall isToken rest ->
  allTail rest = [] /\ List.filter isAll rest = [] \/
  exists a, allTail rest = [a] /\ isAll a = true /\ isToken a /\
            List.last (List.filter isAll rest) EmptyString = a.
Proof.
  intros Htok. unfold allTail.
  assert (Hf : Forall (fun p => isAll p = true /\ isToken p)
                      (List.filter isAll rest)).
  { apply Forall_and; split; [apply Forall_filter_true|now apply Forall_filter_keep]. }
  destruct (List.filter isAll rest) as [|b l] eqn:E; [now left|right].
  assert (Hlast : isAll (List.last (b :: l) EmptyString) = true /\
                  isToken (List.last (b :: l) EmptyString)).
  { clear E. revert b Hf. induction l as [|c l IH]; intros b Hf.
    - now inversion Hf.
    - inversion Hf; subst. now apply (IH c). }
  destruct Hlast as [Ha Ht]. exists (List.last (b :: l) EmptyString).
  destruct (String.eqb_spec (List.last (b :: l) EmptyString) EmptyString) as [E0|_].
  - destruct Ht as [Ht _]. congruence.
  - auto.
Qed.

Lemma normalizedList_tokens p0 rest :
  isToken p0 -> Forall isToken rest -> Forall isToken (normalizedList p0 rest).
Proof.
  intros H0 Hr. unfold normalizedList. rewrite <- app_comm_cons.
  constructor; [exact H0|]. rewrite !Forall_app. repeat split.
  - now apply Forall_filter_keep.
  - now apply sortStrings_Forall, Forall_filter_keep.
  - destruct (allTail_spec rest Hr) as [[-> _]|(a & -> & _ & Ha & _)];
      [constructor|constructor; [exact Ha|constructor]].
Qed.

(** Classifying the tail of a normalized list gives back its three parts. *)
Lemma normalizedList_fixed p0 rest :
  Forall isToken rest ->
  match normalizedList p0 rest with
  | [] => False
  | q0 :: rest' => q0 = p0 /\ normalizedList q0 rest' = normalizedList p0 rest
  end.
Proof.
  intros Hr. unfold normalizedList at 1. rewrite <- app_comm_cons.
  split; [reflexivity|].
  set (U := List.filter isUnknown rest).
  set (M := sortStrings (List.filter isMech rest)).
  assert (HU : Forall (fun p => isUnknown p = true) U)
    by apply Forall_filter_true.
  assert (HM : Forall (fun p => isMech p = true) M)
    by apply sortStrings_Forall, Forall_filter_true.
  assert (HA : Forall (fun p => isAll p = true) (allTail rest)).
  { destruct (allTail_spec rest Hr) as [[-> _]|(a & -> & Ha & _)];
      [constructor|constructor; [exact Ha|constructor]]. }
  assert (EU : List.filter isUnknown (U ++ M ++ allTail rest) = U).
  { rewrite !List.filter_app, (filter_all_true _ U HU).
    rewrite (filter_all_false _ M), (filter_all_false _ (allTail rest)).
    - now rewrite !app_nil_r.
    - eapply List.Forall_impl; [|exact HA]. unfold isUnknown. now intros p ->.
    - eapply List.Forall_impl; [|exact HM]. unfold isUnknown, isMech.
      intros p Hp. apply andb_prop in Hp as [-> ->]. reflexivity. }
  assert (EM : List.filter isMech (U ++ M ++ allTail rest) = M).
  { rewrite !List.filter_app, (filter_all_true _ M HM).
    rewrite (filter_all_false _ U), (filter_all_false _ (allTail rest)).
    - now rewrite app_nil_r.
    - eapply List.Forall_impl; [|exact HA]. unfold isMech. now intros p ->.
    - eapply List.Forall_impl; [|exact HU]. unfold isUnknown, isMech.
      intros p Hp. apply andb_prop in Hp as [-> Hp].
      apply negb_true_iff in Hp. now rewrite Hp. }
  assert (EA : List.filter isAll (U ++ M ++ allTail rest) = allTail rest).
  { rewrite !List.filter_app, (filter_all_true _ (allTail rest) HA).
    rewrite (filter_all_false _ U), (filter_all_false _ M).
    - reflexivity.
    - eapply List.Forall_impl; [|exact HM]. unfold isMech.
      intros p Hp. apply andb_prop in Hp as [Hp _]. now apply negb_true_iff in Hp.
    - eapply List.Forall_impl; [|exact HU]. unfold isUnknown.
      intros p Hp. apply andb_prop in Hp as [Hp _]. now apply negb_true_iff in Hp. }
  assert (ET : allTail (U ++ M ++ allTail rest) = allTail rest).
  { unfold allTail at 1. rewrite EA.
    destruct (allTail_spec rest Hr) as [[-> _]|(a & E & _ & [Hne _] & _)].
    - reflexivity.
    - rewrite E. simpl. now destruct (String.eqb_spec a EmptyString). }
  unfold normalizedList. rewrite EU, EM, ET. unfold M at 1.
  now rewrite sortStrings_idempotent.
Qed.

(** C9. [NormalizeSPF] accepts every record that begins with [v=spf1], and
    normalizing its result again returns the same string:
    [normalize(normalize(x)) = normalize(x)], whatever unknown tokens and
    however many tokens ending in [all] the record holds. *)
Theorem NormalizeSPF_idempotent (x : string) :
  HasPrefix x "v=spf1" = true ->
  exists y, NormalizeSPF x = Ok y /\ NormalizeSPF y = Ok y.
Proof.
  intros Hp.
  destruct (HasPrefix_split _ _ Hp) as [s2 ->].
  assert (Hv : isToken "v=spf1") by (split; [discriminate|reflexivity]).
  destruct (Fields_head_keeps_prefix "v=spf1" s2 Hv) as (t' & rest & HF).
  pose proof (Fields_tokens ("v=spf1" +:+ s2)) as Htok. rewrite HF in Htok.
  inversion Htok as [|? ? H0 Hr]; subst.
  exists (Join (normalizedList ("v=spf1" +:+ t') rest) " ").
  split; [now apply NormalizeSPF_parts|].
  pose proof (normalizedList_fixed ("v=spf1" +:+ t') rest Hr) as Hfix.
  pose proof (normalizedList_tokens _ _ H0 Hr) as Htoks.
  destruct (normalizedList ("v=spf1" +:+ t') rest) as [|q0 rest'] eqn:E;
    [contradiction|].
  destruct Hfix as [-> Hfix].
  rewrite (NormalizeSPF_parts _ ("v=spf1" +:+ t') rest').
  - now rewrite Hfix.
  - apply Join_cons_prefix, HasPrefix_refl_app.
  - now apply Fields_Join.
Qed.

Lemma NormalizeSPF_idempotent_witness :
  HasPrefix "v=spf1 mx zzz a -all include:x.org ~all" "v=spf1" = true /\
  exists y, NormalizeSPF "v=spf1 mx zzz a -all include:x.org ~all" = Ok y /\
            NormalizeSPF y = Ok y.
Proof.
  split; [reflexivity|].
  apply (NormalizeSPF_idempotent "v=spf1 mx zzz a -all include:x.org ~all").
  reflexivity.
Defined.

Example NormalizeSPF_example :
  NormalizeSPF "v=spf1 mx zzz a -all include:x.org ~all"
  = Ok "v=spf1 zzz a include:x.org mx ~all".
Proof. reflexivity. Qed.

(** ** The IPv4 aggregator at the last address *)

Lemma bind_Ret {A B} (a : A) (f : A -> run B) : (Ret a ≫= f) = f a.
Proof. reflexivity. Qed.

Lemma bind_OutOfFuel {A B} (f : A -> run B) : (OutOfFuel ≫= f) = OutOfFuel.
Proof. reflexivity. Qed.

(** With [value = 2^32 - 1] the test [power <= value] holds for every
    [uint32]: the loop never exits. *)
Lemma powerLoop_max_diverges fuel power :
  (0 <= power < 2 ^ 32)%Z -> powerLoop fuel power 4294967295 = OutOfFuel.
Proof.
  revert power. induction fuel as [|fuel IH]; intros power Hp; [reflexivity|].
  cbn [powerLoop].
  destruct (Z.leb_spec power 4294967295) as [_|Hlt]; [|lia].
  apply IH. unfold u32. apply Z.mod_pos_bound. lia.
Qed.

Lemma largestPowerOfTwo_max_diverges fuel :
  largestPowerOfTwoLessOrEqual fuel 4294967295 = OutOfFuel.
Proof.
  unfold largestPowerOfTwoLessOrEqual.
  change (4294967295 =? 0)%Z with false. cbv iota.
  rewrite powerLoop_max_diverges by lia. reflexivity.
Qed.

(** The search loop leaves with the power of two above [value] when
    [value < 2^31] ... *)
Lemma powerLoop_exits value m :
  (0 <= m <= 30)%Z -> (2 ^ m <= value < 2 ^ (m + 1))%Z ->
  forall (j : nat) (fuel : nat),
    (Z.of_nat j <= m + 1)%Z -> (j < fuel)%nat ->
    powerLoop fuel (2 ^ (m + 1 - Z.of_nat j)) value = Ret (2 ^ (m + 1))%Z.
Proof.
  intros Hm Hv. induction j as [|j IH]; intros fuel Hj Hfuel;
    (destruct fuel as [|fuel]; [lia|]); cbn [powerLoop].
  - rewrite Z.sub_0_r. destruct (Z.leb_spec (2 ^ (m + 1)) value); [lia|reflexivity].
  - assert (Hlt : (2 ^ (m + 1 - Z.of_nat (S j)) <= 2 ^ m)%Z)
      by (apply Z.pow_le_mono_r; lia).
    destruct (Z.leb_spec (2 ^ (m + 1 - Z.of_nat (S j))) value); [|lia].
    rewrite Z.shiftl_mul_pow2 by lia.
    replace (2 ^ (m + 1 - Z.of_nat (S j)) * 2 ^ 1)%Z
      with (2 ^ (m + 1 - Z.of_nat j))%Z.
    2:{ rewrite <- Z.pow_add_r by lia. f_equal. lia. }
    assert (Hlt' : (2 ^ (m + 1 - Z.of_nat j) <= 2 ^ 31)%Z)
      by (apply Z.pow_le_mono_r; lia).
    unfold u32. rewrite Z.mod_small.
    + apply IH; lia.
    + split; [apply Z.pow_nonneg; lia|]. change (2 ^ 32)%Z with (2 * 2 ^ 31)%Z. lia.
Qed.

Lemma largestPowerOfTwo_terminates fuel value :
  (0 < value < 2 ^ 31)%Z -> (33 <= fuel)%nat ->
  largestPowerOfTwoLessOrEqual fuel value = Ret (2 ^ Z.log2 value)%Z.
Proof.
  intros Hv Hfuel. unfold largestPowerOfTwoLessOrEqual.
  destruct (Z.eqb_spec value 0) as [->|_]; [lia|].
  pose proof (Z.log2_spec value (proj1 Hv)) as Hlog.
  pose proof (Z.log2_nonneg value) as Hnn.
  assert (Hm : (Z.log2 value <= 30)%Z).
  { apply Z.lt_succ_r, (Z.pow_lt_mono_r_iff 2); lia. }
  replace (Z.succ (Z.log2 value)) with (Z.log2 value + 1)%Z in Hlog by lia.
  pose proof (powerLoop_exits value (Z.log2 value) (conj Hnn Hm) Hlog
                (Z.to_nat (Z.log2 value + 1)) fuel) as Hloop.
  rewrite Z2Nat.id in Hloop by lia.
  replace (Z.log2 value + 1 - (Z.log2 value + 1))%Z with 0%Z in Hloop by lia.
  change (2 ^ 0)%Z with 1%Z in Hloop.
  rewrite Hloop by lia. rewrite bind_Ret. f_equal.
  rewrite Z.shiftr_div_pow2, Z.pow_add_r by lia.
  now rewrite Z.div_mul.
Qed.

(** ... and only then: from [2^31] on, the power wraps to 0 before it
    exceeds [value]. *)
Lemma powerLoop_diverges value fuel :
  (2 ^ 31 <= value)%Z ->
  forall power,
    (power = 0 \/ exists k, 0 <= k <= 31 /\ power = 2 ^ k)%Z ->
    powerLoop fuel power value = OutOfFuel.
Proof.
  intros Hv. induction fuel as [|fuel IH]; intros power Hp; [reflexivity|].
  cbn [powerLoop].
  assert (Hle : (power <= value)%Z).
  { destruct Hp as [->|(k & Hk & ->)]; [lia|].
    transitivity (2 ^ 31)%Z; [apply Z.pow_le_mono_r; lia|exact Hv]. }
  destruct (Z.leb_spec power value); [|lia]. apply IH.
  destruct Hp as [->|(k & Hk & ->)]; [now left|].
  rewrite Z.shiftl_mul_pow2, <- Z.pow_add_r by lia.
  destruct (Z.eq_dec k 31%Z) as [->|Hne]; [now left|right].
  exists (k + 1)%Z. split; [lia|]. unfold u32. apply Z.mod_small.
  split; [apply Z.pow_nonneg; lia|apply Z.pow_lt_mono_r; lia].
Qed.

Lemma largestPowerOfTwo_diverges fuel value :
  (2 ^ 31 <= value)%Z -> largestPowerOfTwoLessOrEqual fuel value = OutOfFuel.
Proof.
  intros Hv. unfold largestPowerOfTwoLessOrEqual.
  destruct (Z.eqb_spec value 0) as [->|_]; [lia|].
  rewrite powerLoop_diverges; [reflexivity|exact Hv|].
  right. exists 0%Z. split; [lia|reflexivity].
Qed.

Lemma largestPowerOfTwo_one fuel :
  largestPowerOfTwoLessOrEqual fuel 1 = OutOfFuel \/
  largestPowerOfTwoLessOrEqual fuel 1 = Ret 1%Z.
Proof. destruct fuel as [|[|fuel]]; [left|left|right]; reflexivity. Qed.

Lemma alignLoop_one fuel start :
  alignLoop fuel start 1 = OutOfFuel \/ alignLoop fuel start 1 = Ret 1%Z.
Proof.
  destruct fuel as [|fuel]; [now left|right].
  cbn [alignLoop]. change (1 =? 0)%Z with false. cbv iota.
  now rewrite Z.mod_1_r.
Qed.

Lemma rangeLoop_S `{NetCodec} fuel n start end_ cidrs :
  rangeLoop fuel (S n) start end_ cidrs =
  if (start <=? end_)%Z then
    maxSize ← largestPowerOfTwoLessOrEqual fuel (u32 (end_ - start + 1));
    maxSize ← alignLoop fuel start maxSize;
    let prefixLen := (32 - Z.log2 maxSize)%Z in
    let cidr :=
      if (prefixLen =? 32)%Z
      then "ip4:" +:+ IPString (uint32ToIP start)
      else "ip4:" +:+ IPString (uint32ToIP start) +:+ "/" +:+ ItoaZ prefixLen in
    rangeLoop fuel n (u32 (start + maxSize)) end_ (cidrs ++ [cidr])
  else Ret cidrs.
Proof. reflexivity. Qed.

(** After [255.255.255.255] has been emitted, [start += maxSize] wraps to
    0, the test [start <= end] still holds, [0.0.0.0] is emitted, and the
    next block size is asked for [2^32 - 1] addresses. *)
Lemma rangeLoop_last_address_diverges `{NetCodec} fuel n cidrs :
  rangeLoop fuel n 4294967295 4294967295 cidrs = OutOfFuel.
Proof.
  destruct n as [|n]; [reflexivity|].
  rewrite rangeLoop_S. change (4294967295 <=? 4294967295)%Z with true. cbv iota.
  change (u32 (4294967295 - 4294967295 + 1)) with 1%Z.
  destruct (largestPowerOfTwo_one fuel) as [-> | ->]; [reflexivity|].
  rewrite bind_Ret.
  destruct (alignLoop_one fuel 4294967295) as [-> | ->]; [reflexivity|].
  rewrite bind_Ret. cbv zeta.
  change (u32 (4294967295 + 1)) with 0%Z.
  destruct n as [|n]; [reflexivity|].
  rewrite rangeLoop_S. change (0 <=? 4294967295)%Z with true. cbv iota.
  change (u32 (4294967295 - 0 + 1)) with 0%Z.
  change (largestPowerOfTwoLessOrEqual fuel 0) with (Ret 1%Z : run Z).
  rewrite bind_Ret.
  destruct (alignLoop_one fuel 0) as [-> | ->]; [reflexivity|].
  rewrite bind_Ret. cbv zeta.
  change (u32 (0 + 1)) with 1%Z.
  destruct n as [|n]; [reflexivity|].
  rewrite rangeLoop_S. change (1 <=? 4294967295)%Z with true. cbv iota.
  change (u32 (4294967295 - 1 + 1)) with 4294967295%Z.
  now rewrite largestPowerOfTwo_max_diverges.
Qed.

(** C10. The input that holds the single address [255.255.255.255] has
    one run of one address, fewer than [2^31], and [aggregateIPv4] does not
    terminate on it: no amount of fuel yields a CIDR list. *)
Theorem aggregateIPv4_last_address_diverges `{NetCodec} (fuel : nat) :
  aggregateIPv4 fuel [[255; 255; 255; 255]%Z] = OutOfFuel.
Proof.
  unfold aggregateIPv4. cbn [length Nat.eqb fold_left].
  change (To4 [255; 255; 255; 255]%Z) with (Some [255; 255; 255; 255]%Z).
  cbv iota.
  change (ipToUint32 [255; 255; 255; 255]%Z) with 4294967295%Z.
  rewrite (right_id_L ∅ (∪)), elements_singleton.
  apply rangeLoop_last_address_diverges.
Qed.

(** C1. On the one-mechanism input [ip4:255.255.255.255], under the default
    configuration, [AggregateCIDRsWithConfig] emits nothing: it does not
    terminate, so its output does not cover the input address. *)
Theorem AggregateCIDRsWithConfig_last_address_diverges `{NetCodec} (fuel : nat) :
  ParseIP "255.255.255.255" = Some (IPv4 255 255 255 255) ->
  AggregateCIDRsWithConfig fuel ["ip4:255.255.255.255"] None = OutOfFuel.
Proof.
  intros HP. unfold AggregateCIDRsWithConfig.
  cbn [length Nat.eqb]. cbv iota.
  unfold separateIPv4IndividualFromCIDR. cbn [fold_left].
  change (HasPrefix "ip4:255.255.255.255" "ip4:") with true.
  change (TrimPrefix "ip4:255.255.255.255" "ip4:") with "255.255.255.255".
  change (Contains "255.255.255.255" "/") with false.
  cbn [negb]. cbv iota. rewrite HP.
  change (To4 (IPv4 255 255 255 255)) with (Some [255; 255; 255; 255]%Z).
  cbv iota. cbn [app].
  unfold separateIPv6IndividualFromCIDR. cbn [fold_left].
  change (HasPrefix "ip4:255.255.255.255" "ip6:") with false.
  cbn [negb]. cbv iota.
  unfold aggregateIPv4WithConfig. cbn [length Nat.eqb]. cbv iota.
  unfold splitPreserved. cbn [fold_left PreserveIndividual list_to_set foldr].
  rewrite bool_decide_eq_false_2 by apply not_elem_of_empty.
  cbn [app]. now rewrite aggregateIPv4_last_address_diverges.
Qed.

Lemma AggregateCIDRsWithConfig_last_address_diverges_witness :
  @ParseIP dottedQuadCodec "255.255.255.255" = Some (IPv4 255 255 255 255) /\
  @AggregateCIDRsWithConfig dottedQuadCodec 1000 ["ip4:255.255.255.255"] None
  = OutOfFuel.
Proof.
  split; [reflexivity|].
  apply (AggregateCIDRsWithConfig_last_address_diverges (H := dottedQuadCodec)).
  reflexivity.
Defined.

(** ** [SplitAndChainSPF] and the 255-byte bound *)

Lemma len_app a b : len (a +:+ b) = (len a + len b)%nat.
Proof. unfold len. induction a as [|c a IH]; simpl; [reflexivity|now rewrite IH]. Qed.

Lemma len_takeBytes n s : (len (takeBytes n s) <= n)%nat.
Proof.
  unfold len. revert s. induction n as [|n IH]; intros [|c s]; simpl; try lia.
  specialize (IH s). lia.
Qed.

Lemma allWithinLimit_insert k v (m : gmap string string) :
  (len v <= maxSPFChars)%nat -> allWithinLimit m -> allWithinLimit (<[k:=v]> m).
Proof.
  intros Hv Hm k' v'. rewrite lookup_insert. case_decide.
  - now intros [= <-].
  - apply Hm.
Qed.

Lemma chainStep_within domain n acc ir m :
  (forall m0, acc = Ret m0 -> allWithinLimit m0) ->
  chainStep domain n acc ir = Ret m -> allWithinLimit m.
Proof.
  intros Hacc. unfold chainStep. destruct acc as [m0| |]; try discriminate.
  rewrite bind_Ret. destruct ir as [i record].
  set (chaining := if (i <? n - 1)%nat then _ else _).
  destruct (Nat.ltb_spec maxSPFChars (len chaining)) as [|Hc]; [discriminate|].
  intros [= <-]. apply allWithinLimit_insert; [|now apply Hacc].
  rewrite len_app.
  destruct (Nat.ltb_spec (maxSPFChars - len chaining) (len record)) as [Hr|Hr].
  - pose proof (len_takeBytes (maxSPFChars - len chaining) record). lia.
  - lia.
Qed.

Lemma fold_chainStep_within domain n l acc m :
  (forall m0, acc = Ret m0 -> allWithinLimit m0) ->
  fold_left (chainStep domain n) l acc = Ret m -> allWithinLimit m.
Proof.
  revert acc. induction l as [|ir l IH]; intros acc Hacc; simpl.
  - intros E. now apply Hacc.
  - apply IH. intros m0 E. eapply chainStep_within; eauto.
Qed.

(** The segments [spfN.<domain>] are within the limit for every domain:
    the truncation [record[:maxLen]] sees to it.  The apex record is built
    without such a step; it is within the limit when the domain has at most
    230 bytes. *)
Lemma SplitAndChainSPF_within spfRecord domain m :
  (len domain <= 230)%nat ->
  SplitAndChainSPF spfRecord domain = Ret m -> allWithinLimit m.
Proof.
  intros Hd. unfold SplitAndChainSPF.
  destruct (Nat.leb_spec (len spfRecord) maxSPFChars) as [Hs|Hs].
  - intros [= <-] k v. rewrite lookup_singleton. case_decide; [|discriminate].
    now intros [= <-].
  - destruct (Fields _) as [|p0 rest]; [discriminate|].
    destruct (fold_left (chainStep domain _) _ (Ret ∅)) as [r| |] eqn:E;
      try discriminate.
    rewrite bind_Ret. intros [= <-].
    apply allWithinLimit_insert.
    + rewrite !len_app. change (len "v=spf1 include:spf0.") with 20%nat.
      change (len " ~all") with 5%nat. unfold maxSPFChars. lia.
    + eapply fold_chainStep_within; [|exact E].
      intros m0 [= <-] k v. now rewrite lookup_empty.
Qed.

Lemma SplitAndChainSPF_within_witness :
  (len "example.com" <= 230)%nat /\
  SplitAndChainSPF "v=spf1 ip4:192.0.2.1 ~all" "example.com"
  = Ret {[ "example.com" := "v=spf1 ip4:192.0.2.1 ~all" ]} /\
  allWithinLimit {[ "example.com" := "v=spf1 ip4:192.0.2.1 ~all" ]}.
Proof.
  split; [simpl; lia|]. split; [reflexivity|].
  apply (SplitAndChainSPF_within "v=spf1 ip4:192.0.2.1 ~all" "example.com");
    [simpl; lia|reflexivity].
Defined.

Lemma run_Ret_inv {A} (r : run A) (P : A -> Prop) :
  match r with Ret a => P a | _ => False end -> exists a, r = Ret a /\ P a.
Proof. destruct r as [a| |]; [|contradiction..]. intros Ha. now exists a. Qed.

(** C3. For the 231-byte domain the record published at the apex,
    [v=spf1 include:spf0.<domain> ~all], has 256 bytes: the bound of 255
    is exceeded. *)
Theorem SplitAndChainSPF_apex_exceeds_limit :
  len longDomain = 231%nat /\
  exists m,
    SplitAndChainSPF longRecord longDomain = Ret m /\
    option_map len (m !! longDomain) = Some 256%nat.
Proof.
  split; [vm_compute; reflexivity|].
  apply (run_Ret_inv (SplitAndChainSPF longRecord longDomain)
           (fun m => option_map len (m !! longDomain) = Some 256%nat)).
  vm_compute. reflexivity.
Qed.

(** ** Loops in the state-and-error monad *)

Section ForEach.

Context {S A : Type}.
Variable P : S -> Prop.
Variable body : A -> stateErr S unit.

Lemma forEach_cons x l s :
  forEach (x :: l) body s =
  match body x s with
  | (s', Ok _) => forEach l body s'
  | (s', Err e) => (s', Err e)
  end.
Proof. reflexivity. Qed.

(** An invariant of the bodies is an invariant of the loop, whatever the
    outcome. *)
Lemma forEach_inv l s :
  (forall x s, In x l -> P s -> P (fst (body x s))) ->
  P s -> P (fst (forEach l body s)).
Proof.
  revert s. induction l as [|x l IH]; intros s Hb Hs; [exact Hs|].
  rewrite forEach_cons.
  pose proof (Hb x s (or_introl eq_refl) Hs) as Hx.
  destruct (body x s) as [s1 [u|e]]; [|exact Hx].
  apply IH; [|exact Hx]. intros y s2 Hy. apply Hb. now right.
Qed.

(** A loop that ends without error has run every body without error, from
    a state that satisfies the invariant. *)
Lemma forEach_Ok_elim l s s' :
  (forall x s, In x l -> P s -> P (fst (body x s))) ->
  P s -> forEach l body s = (s', Ok tt) ->
  forall x, In x l -> exists s0 s1, P s0 /\ body x s0 = (s1, Ok tt).
Proof.
  revert s. induction l as [|y l IH]; intros s Hb Hs E x Hx; [contradiction|].
  rewrite forEach_cons in E.
  pose proof (Hb y s (or_introl eq_refl) Hs) as Hy.
  destruct (body y s) as [s1 [[]|e]] eqn:Ey; [|discriminate].
  destruct Hx as [->|Hx].
  - now exists s, s1.
  - apply (IH s1); auto. intros z s2 Hz. apply Hb. now right.
Qed.

(** A loop whose bodies all end without error, keeping the invariant, ends
    without error. *)
Lemma forEach_Ok_intro l s :
  (forall x s, In x l -> P s -> exists s', body x s = (s', Ok tt) /\ P s') ->
  P s -> exists s', forEach l body s = (s', Ok tt) /\ P s'.
Proof.
  revert s. induction l as [|x l IH]; intros s Hb Hs.
  - now exists s.
  - rewrite forEach_cons.
    destruct (Hb x s (or_introl eq_refl) Hs) as (s1 & -> & Hs1).
    apply IH; [|exact Hs1]. intros y s2 Hy. apply Hb. now right.
Qed.

End ForEach.

Section ForEachFirst.

Context {S A B : Type}.
Variable P : option B -> S -> Prop.
Variable body : A -> stateErr S unit.
Variable g : A -> option B.
Variable res : option B -> result unit.

Hypothesis res_None : res None = Ok tt.
Hypothesis res_Some : forall b, exists e, res (Some b) = Err e.

(** A loop whose bodies fail as [g] says stops at the first element for
    which [g] gives a failure. *)
Lemma forEach_firstSome l :
  (forall x s, In x l -> P None s ->
     exists s', body x s = (s', res (g x)) /\ P (g x) s') ->
  forall s, P None s ->
    exists s', forEach l body s = (s', res (firstSome g l)) /\
               P (firstSome g l) s'.
Proof.
  induction l as [|x l IH]; intros Hb s Hs.
  - exists s. cbn [firstSome]. rewrite res_None. now split.
  - rewrite forEach_cons. cbn [firstSome].
    destruct (Hb x s (or_introl eq_refl) Hs) as (s1 & -> & Hs1).
    destruct (g x) as [b|].
    + destruct (res_Some b) as [e He]. rewrite He.
      exists s1. now split.
    + rewrite res_None. apply IH; [|exact Hs1].
      intros y s2 Hy. apply Hb. now right.
Qed.

End ForEachFirst.

(** ** The flattener *)

Lemma pop_push (d : string) (stk : gset string) :
  d ∉ stk -> ({[d]} ∪ stk) ∖ {[d]} = stk.
Proof.
  intros Hd. apply set_eq. intros x.
  rewrite elem_of_difference, elem_of_union, !elem_of_singleton.
  split; [intros [[->|Hx] Hne]; [contradiction|exact Hx]|].
  intros Hx. split; [now right|]. now intros ->.
Qed.

Section FlattenProofs.

Context `{NetCodec}.
Variable dns : DNSProvider.

Lemma cacheOK_insert cache d recs :
  cacheOK dns cache -> LookupTXT dns d = Ok recs -> cacheOK dns (<[d:=recs]> cache).
Proof.
  intros Hc Hd d' recs'. rewrite lookup_insert. case_decide.
  - intros [= <-]. now subst.
  - apply Hc.
Qed.

Lemma cachedLookupTXT_spec d f f' r :
  cacheOK dns (dnsCache f) -> cachedLookupTXT dns d f = (f', r) ->
  cacheOK dns (dnsCache f') /\ recursionStack f' = recursionStack f /\
  recursionErr f' = recursionErr f /\
  match r with
  | Ok recs => LookupTXT dns d = Ok recs
  | Err e => LookupTXT dns d = Err e
  end.
Proof.
  intros Hc. unfold cachedLookupTXT.
  destruct (dnsCache f !! d) as [cached|] eqn:E.
  - intros [= <- <-]. repeat split; auto.
  - destruct (LookupTXT dns d) as [recs|e] eqn:El; intros [= <- <-];
      repeat split; auto. now apply cacheOK_insert.
Qed.

Lemma includeLookupTXT_spec d f f' r :
  cacheOK dns (dnsCache f) -> includeLookupTXT dns d f = (f', r) ->
  cacheOK dns (dnsCache f') /\ recursionStack f' = recursionStack f /\
  recursionErr f' = recursionErr f /\
  match r with
  | Ok recs => LookupTXT dns d = Ok recs
  | Err _ => exists e, LookupTXT dns d = Err e
  end.
Proof.
  intros Hc. unfold includeLookupTXT.
  destruct (cachedLookupTXT dns d f) as [f1 r1] eqn:E.
  destruct (cachedLookupTXT_spec _ _ _ _ Hc E) as (H1 & H2 & H3 & H4).
  destruct r1; intros [= <- <-]; repeat split; eauto.
Qed.

Lemma addMechanism_spec mech f :
  exists f', addMechanism mech f = (f', Ok tt) /\ sameControl f f'.
Proof. eexists. split; [reflexivity|]. now repeat split. Qed.

Lemma addIPs_spec ips f :
  exists f', addIPs ips f = (f', Ok tt) /\ sameControl f f'.
Proof.
  unfold addIPs.
  apply (forEach_Ok_intro (sameControl f)); [|now repeat split].
  intros ip s _ (H1 & H2 & H3).
  destruct (To4 ip);
    (eexists; split; [reflexivity|]; repeat split; simpl; assumption).
Qed.

Lemma mxLoop_spec (mxs : list MX) f :
  exists f',
    forEach mxs (fun mx =>
      match LookupIP dns (Host mx) with
      | Err _ => ret tt
      | Ok ips => addIPs ips
      end) f = (f', Ok tt) /\ sameControl f f'.
Proof.
  apply (forEach_Ok_intro (sameControl f)); [|now repeat split].
  intros mx s _ (H1 & H2 & H3).
  destruct (LookupIP dns (Host mx)) as [ips|e].
  - destruct (addIPs_spec ips s) as (s' & E & H1' & H2' & H3').
    exists s'. split; [exact E|].
    repeat split; [now rewrite H1'|now rewrite H2'|now rewrite H3'].
  - exists s. split; [reflexivity|]. now repeat split.
Qed.

(** The parts that are not [include:] cannot fail. *)
Lemma processPart_leaf recur d part f :
  HasPrefix part "include:" = false ->
  exists f', processPart recur dns d part f = (f', Ok tt) /\ sameControl f f'.
Proof.
  intros Hi. unfold processPart. rewrite Hi.
  destruct (HasPrefix part "ip4:" || HasPrefix part "ip6:");
    [apply addMechanism_spec|].
  destruct (HasPrefix part "a").
  { destruct (LookupIP dns _); [apply addIPs_spec|].
    exists f. split; [reflexivity|now repeat split]. }
  destruct (HasPrefix part "mx").
  { destruct (LookupMX dns _); [apply mxLoop_spec|].
    exists f. split; [reflexivity|now repeat split]. }
  exists f. split; [reflexivity|now repeat split].
Qed.

Lemma sameControl_flatInv stk f f' :
  sameControl f f' -> flatInv dns stk f -> flatInv dns stk f'.
Proof.
  intros (H1 & H2 & _) [Hc Hs]. split; [now rewrite H1|now rewrite H2].
Qed.

(** [processPart] keeps the invariant when the recursive call does. *)
Lemma processPart_inv recur stk d part f :
  (forall rec x f, flatInv dns stk f -> flatInv dns stk (fst (recur rec x f))) ->
  flatInv dns stk f -> flatInv dns stk (fst (processPart recur dns d part f)).
Proof.
  intros Hrec Hf.
  destruct (HasPrefix part "include:") eqn:Hi.
  - unfold processPart. rewrite Hi. unfold bind.
    destruct (includeLookupTXT dns _ f) as [f1 r] eqn:E.
    destruct Hf as [Hc Hs].
    destruct (includeLookupTXT_spec _ _ _ _ Hc E) as (H1 & H2 & _).
    assert (Hf1 : flatInv dns stk f1) by (split; [exact H1|now rewrite H2]).
    destruct r as [recs|e]; [|exact Hf1].
    apply forEach_inv; [|exact Hf1].
    intros rec s _ Hs'. destruct (HasPrefix rec "v=spf1"); [now apply Hrec|exact Hs'].
  - destruct (processPart_leaf recur d part f Hi) as (f' & -> & Hsame).
    now apply (sameControl_flatInv stk f).
Qed.

Lemma processMechanism_S levels rec d f :
  processMechanism dns (S levels) rec d f =
  if bool_decide (d ∈ recursionStack f)
  then failRecursion ("recursion detected for domain " +:+ d) f
  else
    let '(f', err) :=
      forEach (Fields rec) (processPart (processMechanism dns levels) dns d)
              (pushDomain d f) in
    (popDomain d f', err).
Proof. reflexivity. Qed.

(** [processMechanism] leaves the recursion stack as it found it, and the
    cache faithful, whatever it returns. *)
Lemma processMechanism_inv levels :
  forall stk rec d f,
    flatInv dns stk f -> flatInv dns stk (fst (processMechanism dns levels rec d f)).
Proof.
  induction levels as [|levels IH]; intros stk rec d f [Hc Hs].
  - now split.
  - rewrite processMechanism_S. case_bool_decide as Hd; [now split|].
    destruct (forEach _ _ _) as [f' err] eqn:E.
    assert (Hf' : flatInv dns ({[d]} ∪ stk) f').
    { replace f' with (fst (forEach (Fields rec)
        (processPart (processMechanism dns levels) dns d) (pushDomain d f)))
        by now rewrite E.
      apply forEach_inv.
      - intros part s _ Hs'. apply processPart_inv; [|exact Hs'].
        intros rec' x f0. apply IH.
      - split; [exact Hc|]. simpl. now rewrite Hs. }
    destruct Hf' as [Hc' Hs']. split; [exact Hc'|].
    simpl. rewrite Hs'. rewrite Hs in Hd. now apply pop_push.
Qed.

(** A record from which the chain revisits the path is not processed
    without error. *)
Lemma processMechanism_revisits rec d path :
  revisits dns rec d path ->
  forall levels f f',
    flatInv dns path f -> processMechanism dns levels rec d f <> (f', Ok tt).
Proof.
  induction 1 as [rec d path Hd
                 |rec d path part recs rec' Hpart Hinc Hlook Hrec' Hspf _ IH];
    intros [|levels] f f' [Hc Hs]; try discriminate.
  - rewrite processMechanism_S, Hs, bool_decide_eq_true_2 by exact Hd.
    discriminate.
  - rewrite processMechanism_S. case_bool_decide as Hd; [discriminate|].
    destruct (forEach _ _ _) as [f1 err] eqn:E. intros [= <- ->].
    assert (Hpush : flatInv dns ({[d]} ∪ path) (pushDomain d f)).
    { split; [exact Hc|]. simpl. now rewrite Hs. }
    destruct (forEach_Ok_elim (flatInv dns ({[d]} ∪ path)) _ _ _ _
                (fun part s _ Hs' =>
                   processPart_inv _ _ d part s
                     (fun rec0 x f0 => processMechanism_inv levels _ rec0 x f0) Hs')
                Hpush E part Hpart)
      as (s0 & s1 & [Hc0 Hs0] & Epart).
    unfold processPart in Epart. rewrite Hinc in Epart. unfold bind in Epart.
    destruct (includeLookupTXT dns _ s0) as [s2 r] eqn:El.
    destruct (includeLookupTXT_spec _ _ _ _ Hc0 El) as (Hc2 & Hs2 & _ & Hr).
    destruct r as [recs0|e]; [|discriminate].
    rewrite Hlook in Hr. injection Hr as <-.
    assert (Hinv2 : flatInv dns ({[d]} ∪ path) s2) by (split; [exact Hc2|now rewrite Hs2]).
    destruct (forEach_Ok_elim (flatInv dns ({[d]} ∪ path)) _ _ _ _
                (fun rec0 s _ Hs' =>
                   match HasPrefix rec0 "v=spf1" as b
                   return flatInv dns _ (fst ((if b then _ else ret tt) s))
                   with
                   | true => processMechanism_inv levels _ rec0 _ s Hs'
                   | false => Hs'
                   end)
                Hinv2 Epart rec' Hrec')
      as (s3 & s4 & Hinv3 & Erec).
    rewrite Hspf in Erec. exact (IH levels s3 s4 Hinv3 Erec).
Qed.

Lemma includeLookupTXT_result d f f' r :
  cacheOK dns (dnsCache f) -> includeLookupTXT dns d f = (f', r) ->
  cacheOK dns (dnsCache f') /\ recursionStack f' = recursionStack f /\
  recursionErr f' = recursionErr f /\
  r = match LookupTXT dns d with
      | Ok recs => Ok recs
      | Err e => Err ("failed to lookup included SPF for " +:+ d +:+ ": " +:+ e)
      end.
Proof.
  intros Hc. unfold includeLookupTXT.
  destruct (cachedLookupTXT dns d f) as [f1 r1] eqn:E.
  destruct (cachedLookupTXT_spec _ _ _ _ Hc E) as (H1 & H2 & H3 & H4).
  destruct r1; intros [= <- <-]; rewrite H4; now repeat split.
Qed.

Lemma failureResult_Some (fl : failure) :
  exists e, failureResult (Some fl) = Err e.
Proof. destruct fl; now eexists. Qed.

(** [processMechanism] stops at the first failure of the walk, with the
    error of that failure, and records the depth and the cycle errors. *)
Lemma processMechanism_firstFailure levels :
  forall rec d path f,
    flatOK dns path None f ->
    exists f',
      processMechanism dns levels rec d f
      = (f', failureResult (firstFailure dns levels rec d path)) /\
      flatOK dns path (failureRecorded (firstFailure dns levels rec d path)) f'.
Proof.
  induction levels as [|levels IH]; intros rec d path f [[Hc Hs] Hre].
  - eexists. split; [reflexivity|]. now repeat split.
  - rewrite processMechanism_S. cbn [firstFailure]. rewrite Hs.
    case_bool_decide as Hd.
    { eexists. split; [reflexivity|]. now repeat split. }
    set (g := fun part : string =>
                if HasPrefix part "include:" then
                  match LookupTXT dns (TrimPrefix part "include:") with
                  | Err err =>
                      Some (LookupFailed (TrimPrefix part "include:") err)
                  | Ok recs =>
                      firstSome
                        (fun r =>
                           if HasPrefix r "v=spf1"
                           then firstFailure dns levels r
                                  (TrimPrefix part "include:") ({[d]} ∪ path)
                           else None)
                        recs
                  end
                else None).
    destruct (forEach_firstSome
                (fun fl s => flatOK dns ({[d]} ∪ path) (failureRecorded fl) s)
                (processPart (processMechanism dns levels) dns d) g
                failureResult eq_refl failureResult_Some (Fields rec))
      with (s := pushDomain d f) as (f1 & -> & [[Hc1 Hs1] Hre1]).
    + intros part s _ Hs0. unfold g.
      destruct (HasPrefix part "include:") eqn:Hinc.
      2:{ destruct (processPart_leaf (processMechanism dns levels) d part s Hinc)
            as (s' & -> & Hsame).
          exists s'. split; [reflexivity|].
          destruct Hs0 as [Hinv0 Hre0]. split.
          - now apply (sameControl_flatInv _ s).
          - destruct Hsame as (_ & _ & ->). exact Hre0. }
      set (x := TrimPrefix part "include:").
      unfold processPart. rewrite Hinc. fold x. unfold bind.
      destruct (includeLookupTXT dns x s) as [s2 r] eqn:El.
      destruct Hs0 as [[Hc0 Hstk0] Hre0].
      destruct (includeLookupTXT_result _ _ _ _ Hc0 El)
        as (Hc2 & Hs2 & Hre2 & ->).
      destruct (LookupTXT dns x) as [recs|e].
      * apply (forEach_firstSome
                 (fun fl s => flatOK dns ({[d]} ∪ path) (failureRecorded fl) s)
                 _ _ failureResult eq_refl failureResult_Some recs).
        -- intros r s3 _ Hs3.
           destruct (HasPrefix r "v=spf1"); [now apply IH|].
           exists s3. now split.
        -- repeat split; [exact Hc2|now rewrite Hs2|now rewrite Hre2].
      * exists s2. split; [reflexivity|].
        repeat split; [exact Hc2|now rewrite Hs2|now rewrite Hre2].
    + repeat split; [exact Hc|simpl; now rewrite Hs|exact Hre].
    + exists (popDomain d f1). split; [reflexivity|].
      repeat split; [exact Hc1| |exact Hre1].
      simpl. rewrite Hs1. now apply pop_push.
Qed.

End FlattenProofs.

Lemma append_inv_head (p a b : string) : p +:+ a = p +:+ b -> a = b.
Proof.
  induction p as [|c p IH]; [now intros E|].
  change (String c p +:+ ?x) with (String c (p +:+ x)).
  intros E. injection E as E. now apply IH.
Qed.

(** C6 (amended). When the [include:] chain that starts at the published
    record of the root domain revisits a domain of the current expansion
    path, [FlattenSPF] fails: it returns the empty string in place of a
    flattened record, and the error of the first failure met when the
    [include:] tree is walked depth-first: the depth error at a twelfth
    nested domain (tested first), the cycle error at a domain that is
    already on the expansion path, or the wrapped error of an included
    domain whose TXT lookup fails.  The error is the cycle error exactly
    when that first failure is the revisit. *)
Theorem FlattenSPF_revisit_fails `{NetCodec} (dns : DNSProvider)
    (domain : string) (records : list string) (fuel : nat) (aggregate : bool) :
  LookupTXT dns domain = Ok records ->
  firstSPF records <> EmptyString ->
  revisits dns (firstSPF records) domain ∅ ->
  exists fl,
    firstFailure dns maxLevels (firstSPF records) domain ∅ = Some fl /\
    FlattenSPF fuel domain dns aggregate
    = Ret (firstSPF records, EmptyString, Some (failureError domain fl)) /\
    forall d, failureError domain fl = "recursion detected for domain " +:+ d
              <-> fl = CycleDetected d.
Proof.
  intros Hlook Hspf Hrev.
  enough (Hmain : exists fl,
            firstFailure dns maxLevels (firstSPF records) domain ∅ = Some fl /\
            FlattenSPF fuel domain dns aggregate
            = Ret (firstSPF records, EmptyString,
                   Some (failureError domain fl))).
  { destruct Hmain as (fl & Efl & E). exists fl.
    split; [exact Efl|]. split; [exact E|].
    intros d. destruct fl as [x|x|x err]; cbn [failureError]; split; intros Ed;
      try discriminate Ed.
    - f_equal. now apply (append_inv_head "recursion detected for domain ").
    - now injection Ed as ->. }
  unfold FlattenSPF, cachedLookupTXT.
  cbn [newFlattener dnsCache]. rewrite lookup_empty, Hlook.
  destruct (String.eqb_spec (firstSPF records) EmptyString) as [E|_];
    [contradiction|].
  match goal with
  | |- context [processMechanism dns maxLevels _ domain ?f] => set (f0 := f)
  end.
  assert (Hinv : flatInv dns ∅ f0).
  { split; [|reflexivity]. simpl. apply cacheOK_insert; [|exact Hlook].
    intros d recs. now rewrite lookup_empty. }
  destruct (processMechanism_firstFailure dns maxLevels (firstSPF records)
              domain ∅ f0) as (f & E & _ & Hre); [now split|].
  destruct (firstFailure dns maxLevels (firstSPF records) domain ∅)
    as [fl|] eqn:Efl.
  - exists fl. split; [reflexivity|]. rewrite E.
    destruct fl as [d|d|d err]; cbn [failureResult failureRecorded] in *;
      now rewrite Hre.
  - exfalso.
    exact (processMechanism_revisits dns _ _ _ Hrev maxLevels f0 f Hinv E).
Qed.

Lemma ringDNS_revisits : revisits ringDNS "v=spf1 include:d1 ~all" "d0" ∅.
Proof.
  do 12 ring_step. apply revisits_here.
  change (TrimPrefix "include:d0" "include:") with "d0". set_solver.
Qed.

Lemma FlattenSPF_revisit_fails_witness :
  LookupTXT ringDNS "d0" = Ok ["v=spf1 include:d1 ~all"] /\
  firstSPF ["v=spf1 include:d1 ~all"] <> EmptyString /\
  revisits ringDNS (firstSPF ["v=spf1 include:d1 ~all"]) "d0" ∅ /\
  exists fl,
    firstFailure ringDNS maxLevels (firstSPF ["v=spf1 include:d1 ~all"])
                 "d0" ∅ = Some fl /\
    @FlattenSPF dottedQuadCodec 0 "d0" ringDNS false
    = Ret (firstSPF ["v=spf1 include:d1 ~all"], EmptyString,
           Some (failureError "d0" fl)) /\
    forall d, failureError "d0" fl = "recursion detected for domain " +:+ d
              <-> fl = CycleDetected d.
Proof.
  split; [reflexivity|]. split; [discriminate|]. split; [exact ringDNS_revisits|].
  apply (FlattenSPF_revisit_fails (H := dottedQuadCodec) ringDNS "d0"
           ["v=spf1 include:d1 ~all"] 0 false);
    [reflexivity|discriminate|exact ringDNS_revisits].
Defined.

(** On the ring the first failure is the depth limit, at [d11]; on the
    two-domain cycle of scenario S5 it is the revisit of the root. *)
Example firstFailure_ring :
  firstFailure ringDNS maxLevels "v=spf1 include:d1 ~all" "d0" ∅
  = Some (DepthExceeded "d11").
Proof. vm_compute. reflexivity. Qed.

Example firstFailure_two_cycle :
  firstFailure
    (mockDNSProvider
       [("example.com", ["v=spf1 include:recursive.com ~all"]);
        ("recursive.com", ["v=spf1 include:example.com ~all"])] [] [])
    maxLevels "v=spf1 include:recursive.com ~all" "example.com" ∅
  = Some (CycleDetected "example.com").
Proof. vm_compute. reflexivity. Qed.

(** C6, as stated, fails on the ring: the chain revisits [d0], and the
    error [FlattenSPF] returns is the depth error, raised at [d11] before
    [d0] is entered again; it is not a cycle error. *)
Lemma FlattenSPF_long_cycle_depth_error :
  revisits ringDNS "v=spf1 include:d1 ~all" "d0" ∅ /\
  @FlattenSPF dottedQuadCodec 0 "d0" ringDNS false
  = Ret ("v=spf1 include:d1 ~all", EmptyString,
         Some "recursion depth exceeded for d11") /\
  forall d, "recursion depth exceeded for d11"
            <> "recursion detected for domain " +:+ d.
Proof.
  split; [exact ringDNS_revisits|]. split; [vm_compute; reflexivity|].
  intros d. simpl. discriminate.
Qed.

(** Scenario S5: on the two-domain cycle the error is the cycle error. *)
Example FlattenSPF_two_cycle :
  @FlattenSPF dottedQuadCodec 0 "example.com"
    (mockDNSProvider
       [("example.com", ["v=spf1 include:recursive.com ~all"]);
        ("recursive.com", ["v=spf1 include:example.com ~all"])] [] [])
    false
  = Ret ("v=spf1 include:recursive.com ~all", EmptyString,
         Some "recursion detected for domain example.com").
Proof. vm_compute. reflexivity. Qed.

(** ** The lookup counter and the flattener walk the same tree *)

Section CountProofs.

Variable dns : DNSProvider.

Lemma treeOK_step levels rec part :
  treeOK dns (S levels) rec = true ->
  In part (Fields rec) -> HasPrefix part "include:" = true ->
  exists recs,
    LookupTXT dns (TrimPrefix part "include:") = Ok recs /\
    forall r, In r recs -> HasPrefix r "v=spf1" = true ->
              treeOK dns levels r = true.
Proof.
  cbn [treeOK]. rewrite forallb_forall. intros Hall Hpart Hinc.
  specialize (Hall part Hpart). rewrite Hinc in Hall.
  destruct (LookupTXT dns _) as [recs|e]; [|discriminate].
  exists recs. split; [reflexivity|]. intros r Hr Hspf.
  rewrite forallb_forall in Hall. specialize (Hall r Hr). now rewrite Hspf in Hall.
Qed.

Lemma treeOK_mono levels :
  forall rec, treeOK dns levels rec = true -> treeOK dns (S levels) rec = true.
Proof.
  induction levels as [|levels IH]; intros rec Hrec; [discriminate|].
  change (treeOK dns (S (S levels)) rec) with
    (forallb
       (fun part =>
          if HasPrefix part "include:" then
            match LookupTXT dns (TrimPrefix part "include:") with
            | Ok recs =>
                forallb (fun r => if HasPrefix r "v=spf1"
                                  then treeOK dns (S levels) r else true) recs
            | Err _ => false
            end
          else true)
       (Fields rec)).
  apply forallb_forall. intros part Hpart.
  destruct (HasPrefix part "include:") eqn:Hinc; [|reflexivity].
  destruct (treeOK_step _ _ _ Hrec Hpart Hinc) as (recs & -> & Hrecs).
  apply forallb_forall. intros r Hr.
  destruct (HasPrefix r "v=spf1") eqn:Hspf; [|reflexivity].
  apply IH. now apply Hrecs.
Qed.

Lemma counterLookupTXT_spec d c c' r :
  counterInv dns c -> counterLookupTXT dns d c = (c', r) ->
  counterInv dns c' /\ forall recs, r = Ok recs -> LookupTXT dns d = Ok recs.
Proof.
  unfold counterInv, counterLookupTXT. intros Hc.
  destruct (counterCache c !! d) as [cached|] eqn:E.
  - intros [= <- <-]. split; [exact Hc|]. intros recs [= <-]. now apply Hc.
  - destruct (LookupTXT dns d) as [recs|e] eqn:El; intros [= <- <-].
    + split; [now apply cacheOK_insert|]. now intros recs' [= <-].
    + split; [exact Hc|]. discriminate.
Qed.

Lemma countPart_inv recur d part c :
  (forall rec x c, counterInv dns c -> counterInv dns (fst (recur rec x c))) ->
  counterInv dns c -> counterInv dns (fst (countPart recur dns d part c)).
Proof.
  intros Hrec Hc. unfold countPart.
  destruct (HasPrefix part "include:").
  - unfold bind. cbn [visit modify].
    destruct (counterLookupTXT dns _ _) as [c1 r] eqn:E.
    destruct (counterLookupTXT_spec _ (mkLookupCounter _ _) _ _ Hc E) as [Hc1 _].
    destruct r as [recs|e]; [|exact Hc1].
    apply forEach_inv; [|exact Hc1].
    intros rec s _ Hs. destruct (HasPrefix rec "v=spf1"); [now apply Hrec|exact Hs].
  - destruct (HasPrefix part "a"); [exact Hc|].
    destruct (HasPrefix part "mx"); exact Hc.
Qed.

Lemma countMechanisms_inv levels :
  forall rec d c,
    counterInv dns c -> counterInv dns (fst (countMechanisms dns levels rec d c)).
Proof.
  induction levels as [|levels IH]; intros rec d c Hc; [exact Hc|].
  cbn [countMechanisms]. apply forEach_inv; [|exact Hc].
  intros part s _ Hs. apply countPart_inv; [|exact Hs].
  intros rec' x c0. apply IH.
Qed.

(** A count that ends without error has found the tree within the depth
    limit, every TXT lookup answered. *)
Lemma countMechanisms_Ok_treeOK levels :
  forall rec d c c',
    counterInv dns c -> countMechanisms dns levels rec d c = (c', Ok tt) ->
    treeOK dns levels rec = true.
Proof.
  induction levels as [|levels IH]; intros rec d c c' Hc E; [discriminate|].
  cbn [countMechanisms] in E. cbn [treeOK].
  apply forallb_forall. intros part Hpart.
  destruct (HasPrefix part "include:") eqn:Hinc; [|reflexivity].
  destruct (forEach_Ok_elim (counterInv dns) _ _ _ _
              (fun part s _ Hs =>
                 countPart_inv _ d part s
                   (fun rec0 x c0 => countMechanisms_inv levels rec0 x c0) Hs)
              Hc E part Hpart)
    as (s0 & s1 & Hs0 & Epart).
  unfold countPart in Epart. rewrite Hinc in Epart.
  unfold bind in Epart. cbn [visit modify] in Epart.
  destruct (counterLookupTXT dns _ _) as [s2 r] eqn:El.
  destruct (counterLookupTXT_spec _ (mkLookupCounter _ _) _ _ Hs0 El) as [Hs2 Hr].
  destruct r as [recs|e]; [|discriminate].
  rewrite (Hr recs eq_refl).
  apply forallb_forall. intros r Hrin.
  destruct (HasPrefix r "v=spf1") eqn:Hspf; [|reflexivity].
  destruct (forEach_Ok_elim (counterInv dns) _ _ _ _
              (fun rec0 s _ Hs =>
                 match HasPrefix rec0 "v=spf1" as b
                 return counterInv dns (fst ((if b then _ else ret tt) s))
                 with
                 | true => countMechanisms_inv levels rec0 _ s Hs
                 | false => Hs
                 end)
              Hs2 Epart r Hrin)
    as (s3 & s4 & Hs3 & Erec).
  rewrite Hspf in Erec. exact (IH _ _ _ _ Hs3 Erec).
Qed.

(** A record whose tree holds a record at least as deep as itself has no
    finite tree. *)
Lemma treeOK_no_self rec rec_x :
  (forall levels, treeOK dns (S levels) rec = true ->
                  treeOK dns levels rec_x = true) ->
  below dns rec_x rec -> forall levels, treeOK dns levels rec = false.
Proof.
  intros Hdown Hbelow. induction levels as [|levels IH]; [reflexivity|].
  destruct (treeOK dns (S levels) rec) eqn:E; [|reflexivity].
  apply Hdown, Hbelow in E. congruence.
Qed.

End CountProofs.

Section GateProofs.

Context `{NetCodec}.
Variable dns : DNSProvider.

Lemma sameControl_flatOK stk re f f' :
  sameControl f f' -> flatOK dns stk re f -> flatOK dns stk re f'.
Proof.
  intros Hsame [Hinv Hre]. split; [now apply (sameControl_flatInv dns stk f)|].
  destruct Hsame as (_ & _ & ->). exact Hre.
Qed.

(** On a tree that the counter has walked, the flattener meets neither a
    failing lookup, nor the depth limit, nor a domain of its path. *)
Lemma processMechanism_treeOK levels :
  forall rec d stk f,
    flatInv dns stk f -> d ∉ stk ->
    treeOK dns levels rec = true ->
    ancestorsOK dns ({[d]} ∪ stk) rec ->
    exists f',
      processMechanism dns levels rec d f = (f', Ok tt) /\
      flatOK dns stk (recursionErr f) f'.
Proof.
  induction levels as [|levels IH]; intros rec d stk f [Hc Hs] Hd Htree Hanc;
    [discriminate|].
  rewrite processMechanism_S, Hs, bool_decide_eq_false_2 by exact Hd.
  destruct (forEach_Ok_intro (flatOK dns ({[d]} ∪ stk) (recursionErr f))
              (processPart (processMechanism dns levels) dns d)
              (Fields rec) (pushDomain d f)) as (f1 & -> & [[Hc1 Hs1] Hre1]).
  - intros part s Hpart Hs0.
    destruct (HasPrefix part "include:") eqn:Hinc.
    2:{ destruct (processPart_leaf dns (processMechanism dns levels) d part s Hinc)
          as (s' & -> & Hsame).
        exists s'. split; [reflexivity|]. now apply (sameControl_flatOK _ _ s). }
    set (x := TrimPrefix part "include:").
    destruct (treeOK_step dns _ _ _ Htree Hpart Hinc) as (recs & Hlook & Hrecs).
    fold x in Hlook.
    unfold processPart. rewrite Hinc. fold x. unfold bind.
    destruct (includeLookupTXT dns x s) as [s2 r] eqn:El.
    destruct Hs0 as [[Hc0 Hstk0] Hre0].
    destruct (includeLookupTXT_spec dns _ _ _ _ Hc0 El) as (Hc2 & Hs2 & Hre2 & Hr).
    destruct r as [recs'|e]; [|destruct Hr as [e' Hr]; congruence].
    rewrite Hlook in Hr. injection Hr as <-.
    apply forEach_Ok_intro.
    2:{ repeat split; [exact Hc2|now rewrite Hs2|now rewrite Hre2]. }
    intros r s3 Hr Hs3.
    destruct (HasPrefix r "v=spf1") eqn:Hspf; [|now exists s3].
    destruct Hs3 as [Hinv3 Hre3].
    destruct (IH r x ({[d]} ∪ stk) s3 Hinv3) as (s4 & E4 & Hinv4 & Hre4).
    + (* [x] is not on the path *)
      intros Hx. destruct (Hanc x Hx) as (recs_x & rec_x & Hlx & Hin & Hsp & Hbelow).
      rewrite Hlook in Hlx. injection Hlx as <-.
      assert (Hnone : treeOK dns (S levels) rec = false).
      { apply (treeOK_no_self dns rec rec_x); [|exact Hbelow].
        intros l Hl.
        destruct (treeOK_step dns _ _ _ Hl Hpart Hinc) as (recs0 & Hl0 & Hall).
        fold x in Hl0. rewrite Hlook in Hl0. injection Hl0 as <-. now apply Hall. }
      congruence.
    + now apply Hrecs.
    + (* the path, extended by [x], still leads to [r] *)
      intros a Ha. apply elem_of_union in Ha as [Ha|Ha].
      * apply elem_of_singleton in Ha as ->.
        exists recs, r. repeat split; auto. now intros l.
      * destruct (Hanc a Ha) as (recs_a & rec_a & Hla & Hin & Hsp & Hbelow).
        exists recs_a, rec_a. repeat split; auto.
        intros [|l] Hl; [discriminate|].
        apply treeOK_mono.
        destruct (treeOK_step dns _ _ _ (Hbelow _ Hl) Hpart Hinc)
          as (recs0 & Hl0 & Hall).
        fold x in Hl0. rewrite Hlook in Hl0. injection Hl0 as <-. now apply Hall.
    + exists s4. split; [exact E4|]. split; [exact Hinv4|]. now rewrite Hre4.
  - repeat split; [exact Hc|simpl; now rewrite Hs].
  - exists (popDomain d f1). split; [reflexivity|].
    repeat split; [exact Hc1|simpl; rewrite Hs1; now apply pop_push|exact Hre1].
Qed.

Lemma firstSPF_In records :
  firstSPF records <> EmptyString ->
  In (firstSPF records) records /\ HasPrefix (firstSPF records) "v=spf1" = true.
Proof.
  unfold firstSPF.
  destruct (List.find _ records) as [r|] eqn:E; [|congruence].
  intros _. now apply List.find_some in E.
Qed.

(** When the lookup count of a published record has been obtained,
    [FlattenSPF] returns no error. *)
Lemma FlattenSPF_after_count (domain : string) (records : list string)
    (n : Z) (fuel : nat) (aggregate : bool) :
  CountDNSLookups dns domain = (n, None) ->
  LookupTXT dns domain = Ok records ->
  firstSPF records <> EmptyString ->
  forall original flattened err,
    FlattenSPF fuel domain dns aggregate = Ret (original, flattened, err) ->
    original = firstSPF records /\ err = None.
Proof.
  intros Hcount Hlook Hspf.
  assert (Htree : treeOK dns maxLevels (firstSPF records) = true).
  { unfold CountDNSLookups in Hcount. rewrite Hlook in Hcount.
    destruct (String.eqb_spec (firstSPF records) EmptyString); [contradiction|].
    destruct (countMechanisms dns maxLevels _ _ _) as [c [[]|e]] eqn:E;
      [|discriminate].
    refine (countMechanisms_Ok_treeOK dns _ _ _ _ _ _ E).
    intros d recs. cbn [counterCache]. now rewrite lookup_empty. }
  destruct (firstSPF_In _ Hspf) as [Hin Hpre].
  unfold FlattenSPF, cachedLookupTXT.
  cbn [newFlattener dnsCache]. rewrite lookup_empty, Hlook.
  destruct (String.eqb_spec (firstSPF records) EmptyString); [contradiction|].
  match goal with
  | |- context [processMechanism dns maxLevels _ domain ?f0] =>
      destruct (processMechanism_treeOK maxLevels (firstSPF records) domain ∅ f0)
        as (f1 & -> & _ & Hre)
  end.
  - split; [|reflexivity]. simpl. apply cacheOK_insert; [|exact Hlook].
    intros d recs. now rewrite lookup_empty.
  - apply not_elem_of_empty.
  - exact Htree.
  - intros a Ha. rewrite (right_id_L ∅ (∪)) in Ha.
    apply elem_of_singleton in Ha as ->.
    exists records, (firstSPF records). repeat split; auto. now intros l.
  - cbn [recursionErr] in Hre. rewrite Hre.
    intros original flattened err.
    destruct (length (elements (flattenedIPs f1)) =? 0)%nat;
      [now intros [= <- _ <-]|].
    destruct aggregate; [destruct (Cidr.AggregateCIDRs fuel _)|];
      cbn; try discriminate; now intros [= <- _ <-].
Qed.

End GateProofs.

(** The gate of [FlattenSPFWithThreshold] is the count of
    [CountDNSLookups]: for a domain with a published SPF record whose
    count [n] has been obtained, with [n <= 10] and [force = false] the
    call returns the original record as both records with
    [was_flattened = false], and does not run [FlattenSPF]; otherwise it
    runs [FlattenSPF], and what it returns is the original record, the
    record [FlattenSPF] returns, and [was_flattened = true]. *)
Lemma FlattenSPFWithThreshold_gate `{NetCodec} (dns : DNSProvider)
    (domain : string) (records : list string) (n : Z) (fuel : nat)
    (aggregate forceFlatten : bool) :
  CountDNSLookups dns domain = (n, None) ->
  LookupTXT dns domain = Ok records ->
  firstSPF records <> EmptyString ->
  FlattenSPFWithThreshold fuel domain dns aggregate forceFlatten =
  if (n <=? 10)%Z && negb forceFlatten
  then Ret (firstSPF records, firstSPF records, n, false, None)
  else
    '(_, flattened, _) ← FlattenSPF fuel domain dns aggregate;
    Ret (firstSPF records, flattened, n, true, None).
Proof.
  intros Hcount Hlook Hspf. unfold FlattenSPFWithThreshold.
  rewrite Hcount, Hlook.
  destruct (String.eqb_spec (firstSPF records) EmptyString); [contradiction|].
  cbv zeta. rewrite negb_orb, Z.gtb_ltb, <- Z.leb_antisym.
  destruct ((n <=? 10)%Z && negb forceFlatten); [reflexivity|].
  cbn [negb].
  pose proof (FlattenSPF_after_count dns domain records n fuel aggregate
                Hcount Hlook Hspf) as Herr.
  destruct (FlattenSPF fuel domain dns aggregate) as [[[o fl] e]| |];
    [|reflexivity..].
  destruct (Herr o fl e eq_refl) as [_ ->]. reflexivity.
Qed.

Lemma FlattenSPFWithThreshold_gate_forced :
  CountDNSLookups gateDNS "example.com" = (2%Z, None) /\
  LookupTXT gateDNS "example.com" = Ok ["v=spf1 include:_spf.google.com ~all"] /\
  firstSPF ["v=spf1 include:_spf.google.com ~all"] <> EmptyString /\
  @FlattenSPFWithThreshold dottedQuadCodec 0 "example.com" gateDNS false true =
  if (2 <=? 10)%Z && negb true
  then Ret (firstSPF ["v=spf1 include:_spf.google.com ~all"],
            firstSPF ["v=spf1 include:_spf.google.com ~all"], 2%Z, false, None)
  else
    '(_, flattened, _) ← @FlattenSPF dottedQuadCodec 0 "example.com" gateDNS false;
    Ret (firstSPF ["v=spf1 include:_spf.google.com ~all"], flattened, 2%Z, true, None).
Proof.
  split; [vm_compute; reflexivity|]. split; [reflexivity|].
  split; [discriminate|].
  apply (FlattenSPFWithThreshold_gate (H := dottedQuadCodec) gateDNS
           "example.com" ["v=spf1 include:_spf.google.com ~all"] 2%Z 0
           false true);
    [vm_compute; reflexivity|reflexivity|discriminate].
Defined.

Example FlattenSPFWithThreshold_low_count :
  @FlattenSPFWithThreshold dottedQuadCodec 0 "example.com" gateDNS false false
  = Ret ("v=spf1 include:_spf.google.com ~all",
         "v=spf1 include:_spf.google.com ~all", 2%Z, false, None).
Proof. vm_compute. reflexivity. Qed.

Example FlattenSPFWithThreshold_forced :
  @FlattenSPFWithThreshold dottedQuadCodec 0 "example.com" gateDNS false true
  = Ret ("v=spf1 include:_spf.google.com ~all",
         "v=spf1 ip4:74.125.0.0/16 ~all", 2%Z, true, None).
Proof. vm_compute. reflexivity. Qed.

(** C4. The record with nine [include:] mechanisms and a bare [all]
    requires ten lookups, one for its TXT record and one for each
    [include:], which is within the limit; [CountDNSLookups] counts
    eleven, the token [all] being taken for an [a] mechanism, and
    [FlattenSPFWithThreshold] called with [force = false] flattens the
    record: it returns a flattened record that is not the original one and
    reports [was_flattened = true]. *)
Theorem FlattenSPFWithThreshold_flattens_within_limit :
  requiredLookups nineIncludesDNS "example.com" = 10%Z /\
  CountDNSLookups nineIncludesDNS "example.com" = (11%Z, None) /\
  @FlattenSPFWithThreshold dottedQuadCodec 0 "example.com" nineIncludesDNS
     false false
  = Ret ("v=spf1 include:i1 include:i2 include:i3 include:i4 include:i5 include:i6 include:i7 include:i8 include:i9 all",
         "v=spf1 ip4:192.0.2.1 ip4:192.0.2.2 ip4:192.0.2.3 ip4:192.0.2.4 ip4:192.0.2.5 ip4:192.0.2.6 ip4:192.0.2.7 ip4:192.0.2.8 ip4:192.0.2.9 ~all",
         11%Z, true, None).
Proof. repeat split; vm_compute; reflexivity. Qed.

(** ** [CountDNSLookups] and the bare [all] *)

(** C5. For the record [v=spf1 all] the count is 2: the token [all]
    begins with [a] and is counted as an [a] mechanism, although the
    record holds no mechanism that needs a lookup. *)
Theorem CountDNSLookups_bare_all :
  List.filter isLookupMechanism (Fields "v=spf1 all") = [] /\
  CountDNSLookups bareAllDNS "example.com" = (2%Z, None).
Proof. split; vm_compute; reflexivity. Qed.

(** With a qualifier the token does not begin with [a]. *)
Example CountDNSLookups_qualified_all :
  CountDNSLookups (mockDNSProvider [("example.com", ["v=spf1 ~all"])] [] [])
                  "example.com" = (1%Z, None).
Proof. vm_compute. reflexivity. Qed.

(** ** The stale-record delete loop *)

(** The loop is left only at [name == spfName], with [isStale = false]. *)
Lemma staleLoop_never_stale fuel chainedRecords domain name :
  forall i, staleLoop fuel chainedRecords domain name i <> Ret true.
Proof.
  induction fuel as [|fuel IH]; intros i; [discriminate|].
  cbn [staleLoop].
  destruct (bool_decide _); cbn [negb andb].
  - destruct (String.eqb name _); [discriminate|apply IH].
  - destruct (String.eqb name _); cbn [negb]; [discriminate|apply IH].
Qed.

Lemma deleteStaleRecords_nothing fuel spfUnflat domain records chainedRecords
    names :
  fst (deleteStaleRecords fuel spfUnflat domain records chainedRecords names)
  = [].
Proof.
  induction names as [|name names IH]; [reflexivity|].
  cbn [deleteStaleRecords].
  destruct (HasPrefix name "spf" && Contains name domain); [|exact IH].
  destruct (spfUnflat && String.eqb name _); [exact IH|].
  pose proof (staleLoop_never_stale fuel chainedRecords domain name 0%Z) as Hs.
  destruct (staleLoop _ _ _ _ _) as [[|]| |]; try reflexivity; [congruence|].
  destruct (deleteStaleRecords _ _ _ _ _ names) as [more ended].
  simpl in IH. now subst.
Qed.

(** [strconv.Itoa] begins with a digit, or with the sign and a digit. *)
Lemma digitChar_isDigit k : (k < 10)%nat -> isDigit (digitChar k) = true.
Proof.
  intros Hk. do 10 (destruct k as [|k]; [reflexivity|]). lia.
Qed.

Lemma itoaFrom_head fuel :
  forall n acc, (fuel <> 0%nat \/ headDigit acc) -> headDigit (itoaFrom fuel n acc).
Proof.
  induction fuel as [|fuel IH]; intros n acc Hacc.
  - destruct Hacc as [Hf|Hacc]; [congruence|exact Hacc].
  - cbn [itoaFrom].
    assert (Hd : headDigit (String (digitChar (n mod 10)) acc)).
    { eexists _, _. split; [reflexivity|].
      apply digitChar_isDigit, Nat.mod_upper_bound. lia. }
    destruct (n <? 10)%nat; [exact Hd|]. apply IH. now right.
Qed.

Lemma Itoa_head n : headDigit (Itoa n).
Proof. apply itoaFrom_head. now left. Qed.




(** C2. Whatever the published records, the desired records, the option
    [--spf-unflat], the order in which the map is ranged over and the time
    the loop is given, no call of [DeleteRecord] made by the delete loop
    names a record [spf-unflat.<domain>]. *)
Theorem spf_unflat_never_deleted (fuel : nat) (spfUnflat : bool)
    (domain : string) (records : list Record)
    (chainedRecords : gmap string string) (names : list string) (rec : Record) :
  TrimSuffix (Name rec) "." = "spf-unflat." +:+ domain ->
  ~ In (DeleteRecord (ID rec))
       (fst (deleteStaleRecords fuel spfUnflat domain records chainedRecords
                                names)).
Proof. intros _. now rewrite deleteStaleRecords_nothing. Qed.

Lemma spf_unflat_never_deleted_witness :
  TrimSuffix (Name (mkRecord "42" "spf-unflat.example.com." "TXT"
                             "v=spf1 include:_spf.google.com ~all")) "."
  = "spf-unflat." +:+ "example.com" /\
  ~ In (DeleteRecord "42")
       (fst (deleteStaleRecords 100 false "example.com"
               [mkRecord "42" "spf-unflat.example.com." "TXT"
                         "v=spf1 include:_spf.google.com ~all"]
               {[ "example.com" := "v=spf1 ip4:74.125.0.0/16 ~all" ]}
               ["spf-unflat.example.com"])).
Proof.
  split; [reflexivity|].
  apply (spf_unflat_never_deleted 100 false "example.com"
           [mkRecord "42" "spf-unflat.example.com." "TXT"
                     "v=spf1 include:_spf.google.com ~all"]
           {[ "example.com" := "v=spf1 ip4:74.125.0.0/16 ~all" ]}
           ["spf-unflat.example.com"]
           (mkRecord "42" "spf-unflat.example.com." "TXT"
                     "v=spf1 include:_spf.google.com ~all")).
  reflexivity.
Defined.

(** ** Redaction *)

Lemma replaceFrom_prefix old c0 new' p :
  avoids c0 p = true ->
  forall s, HasPrefix (replaceFrom 0 s old (String c0 new')) p = true ->
            HasPrefix s p = true.
Proof.
  induction p as [|a p IH]; intros Hav s Hp; [apply HasPrefix_nil|].
  simpl in Hav. apply andb_prop in Hav as [Ha Hav].
  destruct s as [|c s]; [discriminate|].
  cbn [replaceFrom] in Hp. destruct (HasPrefix (String c s) old).
  - change (String c0 new' +:+ ?t) with (String c0 (new' +:+ t)) in Hp.
    rewrite HasPrefix_cons in Hp. apply andb_prop in Hp as [Hp _].
    rewrite Hp in Ha. discriminate.
  - rewrite HasPrefix_cons in Hp. apply andb_prop in Hp as [Hc Hp].
    rewrite HasPrefix_cons, Hc. now apply IH.
Qed.

(** After [ReplaceAll(s, "apikey", "[REDACTED]")] no occurrence of
    [apikey] is left. *)
Lemma replace_apikey_clean s :
  forall skip,
    Contains (replaceFrom skip s "apikey" "[REDACTED]") "apikey" = false.
Proof.
  induction s as [|c s IH]; intros skip; [reflexivity|].
  cbn [replaceFrom]. destruct skip as [|k]; [|apply IH].
  destruct (HasPrefix (String c s) "apikey") eqn:Hp.
  - change ("[REDACTED]" +:+ ?t)
      with (String "[" (String "R" (String "E" (String "D" (String "A"
             (String "C" (String "T" (String "E" (String "D" (String "]" t)))))))))).
    rewrite !Contains_cons. rewrite IH. reflexivity.
  - rewrite Contains_cons, IH, orb_false_r.
    destruct (HasPrefix (String c (replaceFrom 0 s "apikey" "[REDACTED]")) "apikey")
      eqn:Hq; [|reflexivity].
    change "apikey" with (String "a" "pikey") in Hq, Hp.
    rewrite HasPrefix_cons in Hq, Hp. apply andb_prop in Hq as [Hc Hq].
    apply (replaceFrom_prefix "apikey" "[" "REDACTED]" "pikey" eq_refl) in Hq.
    now rewrite Hc, Hq in Hp.
Qed.

Lemma Contains_secretapikey s :
  Contains s "secretapikey" = true -> Contains s "apikey" = true.
Proof.
  induction s as [|c s IH]; [discriminate|].
  rewrite !Contains_cons. intros Hs. apply orb_prop in Hs as [Hs|Hs].
  - destruct (HasPrefix_split _ _ Hs) as [r Hr].
    apply orb_true_iff. right.
    change ("secretapikey" +:+ r) with (String "s" ("ecret" +:+ ("apikey" +:+ r))) in Hr.
    injection Hr as _ ->.
    apply Contains_skip, Contains_of_prefix, HasPrefix_refl_app.
  - rewrite IH by exact Hs. apply orb_true_r.
Qed.

Lemma ReplaceAll_absent s old new :
  Contains s old = false -> ReplaceAll s old new = s.
Proof.
  unfold ReplaceAll. induction s as [|c s IH]; [reflexivity|].
  rewrite Contains_cons. intros Hc. apply orb_false_elim in Hc as [Hp Hc].
  cbn [replaceFrom]. rewrite Hp. now rewrite IH.
Qed.

(** The second replacement of [redactSensitive] finds nothing to
    replace. *)
Lemma redactSensitive_once s :
  redactSensitive s = ReplaceAll s "apikey" "[REDACTED]".
Proof.
  unfold redactSensitive. apply ReplaceAll_absent.
  destruct (Contains _ "secretapikey") eqn:E; [|reflexivity].
  apply Contains_secretapikey in E.
  unfold ReplaceAll in E. now rewrite replace_apikey_clean in E.
Qed.

(** [redactSensitive] leaves no occurrence of [apikey] or [secretapikey]
    in its result. *)
Lemma redactSensitive_clean (input : string) :
  Contains (redactSensitive input) "apikey" = false /\
  Contains (redactSensitive input) "secretapikey" = false.
Proof.
  assert (Hclean : Contains (redactSensitive input) "apikey" = false).
  { rewrite redactSensitive_once. apply replace_apikey_clean. }
  split; [exact Hclean|].
  destruct (Contains _ "secretapikey") eqn:E; [|reflexivity].
  apply Contains_secretapikey in E. congruence.
Qed.

(** C8. The client does not apply [redactSensitive] to the errors it
    returns: for a response whose status is not [SUCCESS] and holds the
    literal [apikey], the message of the error [RetrieveRecords] returns
    is built from the status as the provider sent it; it holds [apikey],
    and is not what [redactSensitive] makes of it. *)
Theorem RetrieveRecords_error_not_redacted (resp : Response)
    (answer : RetrieveRecordsResponse) :
  checkHTTPStatus resp = None ->
  Status answer <> "SUCCESS" ->
  Contains (Status answer) "apikey" = true ->
  exists msg,
    RetrieveRecords (Ok resp) (Ok answer) = Err msg /\
    msg = "Porkbun API error retrieving records: " +:+ Status answer /\
    Contains msg "apikey" = true /\
    redactSensitive msg <> msg.
Proof.
  intros Hhttp Hstatus Hkey.
  exists ("Porkbun API error retrieving records: " +:+ Status answer).
  assert (Hmsg : Contains ("Porkbun API error retrieving records: "
                             +:+ Status answer) "apikey" = true)
    by now apply Contains_skip.
  split; [|split; [reflexivity|split; [exact Hmsg|]]].
  - unfold RetrieveRecords. rewrite Hhttp.
    now destruct (String.eqb_spec (Status answer) "SUCCESS").
  - intros E. destruct (redactSensitive_clean
                          ("Porkbun API error retrieving records: "
                             +:+ Status answer)) as [Hclean _].
    rewrite E in Hclean. congruence.
Qed.

Lemma RetrieveRecords_error_not_redacted_witness :
  checkHTTPStatus (mkResponse 200 "200 OK" "{}") = None /\
  Status (mkRetrieveRecordsResponse "ERROR: invalid apikey" []) <> "SUCCESS" /\
  Contains (Status (mkRetrieveRecordsResponse "ERROR: invalid apikey" []))
           "apikey" = true /\
  exists msg,
    RetrieveRecords (Ok (mkResponse 200 "200 OK" "{}"))
                    (Ok (mkRetrieveRecordsResponse "ERROR: invalid apikey" []))
    = Err msg /\
    msg = "Porkbun API error retrieving records: "
            +:+ Status (mkRetrieveRecordsResponse "ERROR: invalid apikey" []) /\
    Contains msg "apikey" = true /\
    redactSensitive msg <> msg.
Proof.
  split; [reflexivity|]. split; [discriminate|]. split; [reflexivity|].
  apply (RetrieveRecords_error_not_redacted (mkResponse 200 "200 OK" "{}")
           (mkRetrieveRecordsResponse "ERROR: invalid apikey" []));
    [reflexivity|discriminate|reflexivity].
Defined.

(** The failing input, evaluated: the status text reaches the caller with
    its occurrence of [apikey], where the redaction would have given
    [[REDACTED]]; so does the body of a rate-limited response. *)
Example RetrieveRecords_status_with_key :
  RetrieveRecords (Ok (mkResponse 200 "200 OK" "{}"))
                  (Ok (mkRetrieveRecordsResponse "ERROR: invalid apikey" []))
  = Err "Porkbun API error retrieving records: ERROR: invalid apikey" /\
  redactSensitive "Porkbun API error retrieving records: ERROR: invalid apikey"
  = "Porkbun API error retrieving records: ERROR: invalid [REDACTED]" /\
  RetrieveRecords (Ok (mkResponse 429 "429 Too Many Requests"
                                  "too many requests for apikey pk1_0000"))
                  (Err "unexpected end of JSON input")
  = Err "HTTP 429 429 Too Many Requests: too many requests for apikey pk1_0000".
Proof. repeat split; vm_compute; reflexivity. Qed.

Example redactSensitive_example :
  redactSensitive "apikey=pk1 secretapikey=sk1"
  = "[REDACTED]=pk1 secret[REDACTED]=sk1".
Proof. reflexivity. Qed.

(** ** Retry and backoff *)

(** For the attempt 0 the delay is 0, whatever the configuration. *)
Lemma calculateBackoffDelay_zero bm rnd : calculateBackoffDelay bm 0 rnd = 0%Z.
Proof. reflexivity. Qed.

Lemma retryLoop_head bm operation fn rnd remaining attempt lastErr e :
  nth_error (fst (retryLoop bm operation fn rnd remaining attempt lastErr)) 0
  = Some e -> e = Call attempt.
Proof.
  destruct remaining as [|remaining]; [discriminate|]. cbn [retryLoop].
  destruct (fn attempt) as [err|]; [|now intros [= <-]].
  destruct (isRateLimitError err || isTemporaryError err);
    [|now intros [= <-]].
  destruct (attempt <? retryCount bm - 1)%Z;
    destruct (retryLoop _ _ _ _ _ _ _); now intros [= <-].
Qed.

(** The sleep that precedes the call of attempt [k] is the delay computed
    for the attempt [k - 1], the one that has just failed. *)
Lemma retryLoop_sleeps bm operation fn rnd remaining :
  forall attempt lastErr i d k,
    let events := fst (retryLoop bm operation fn rnd remaining attempt lastErr) in
    nth_error events i = Some (Sleep d) ->
    nth_error events (S i) = Some (Call k) ->
    d = calculateBackoffDelay bm (k - 1) (rnd (k - 1)%Z).
Proof.
  induction remaining as [|remaining IH]; intros attempt lastErr i d k events;
    subst events; [now destruct i|].
  cbn [retryLoop].
  destruct (fn attempt) as [err|]; [|now destruct i as [|[|i]]].
  destruct (isRateLimitError err || isTemporaryError err);
    [|now destruct i as [|[|i]]].
  pose proof (retryLoop_head bm operation fn rnd remaining (attempt + 1) err) as Hhd.
  specialize (IH (attempt + 1)%Z err).
  destruct (attempt <? retryCount bm - 1)%Z;
    destruct (retryLoop bm operation fn rnd remaining (attempt + 1) err)
      as [events res]; cbn [fst] in *.
  - destruct i as [|[|i]]; [discriminate| |apply IH].
    cbn [nth_error]. intros [= <-] Hk. apply Hhd in Hk. injection Hk as ->.
    now replace (attempt + 1 - 1)%Z with attempt by lia.
  - destruct i as [|i]; [discriminate|apply IH].
Qed.

(** C7. With the defaults (five attempts, 1 s, factor 2.0, cap 30 s, no
    jitter) and an operation that times out every time, the sleeps before
    the four retries are 0 s, 1 s, 2 s and 4 s: before the retry number [n]
    the wrapper sleeps the delay of [n - 1], not [1s * 2^(n-1)]. *)
Theorem withRetry_first_retry_without_delay :
  fst (withRetry defaultManager "retrieve records" alwaysTimeout (fun _ => 0%Q))
  = [Call 0; Sleep 0;
     Call 1; Sleep (1 * second);
     Call 2; Sleep (2 * second);
     Call 3; Sleep (4 * second);
     Call 4] /\
  (0 <> 1 * second)%Z.
Proof. split; [vm_compute; reflexivity|discriminate]. Qed.

(** A permanent error ends the wrapper after one call. *)
Example withRetry_permanent :
  withRetry defaultManager "retrieve records"
            (fun _ => Some "persistent error") (fun _ => 0%Q)
  = ([Call 0],
     Some "retrieve records failed after 5 attempts: persistent error").
Proof. vm_compute. reflexivity. Qed.

(** The delay grows by the factor and is capped: the attempts 1, 2, 5
    and 6. *)
Example calculateBackoffDelay_values :
  map (fun attempt => calculateBackoffDelay defaultManager attempt 0) [1; 2; 5; 6]%Z
  = [1 * second; 2 * second; 16 * second; 30 * second]%Z.
Proof. vm_compute. reflexivity. Qed.

(** ** The create/update loop and the desired names *)

(** The only other call of [DeleteRecord]: for an ID found under a desired
    name. *)
Lemma upsertRecord_delete domain ttl records entry recordID :
  In (DeleteRecord recordID) (upsertRecord domain ttl records entry) ->
  exists rec,
    In rec records /\ ID rec = recordID /\
    TrimSuffix (Name rec) "." = fst entry /\ Type_ rec = "TXT".
Proof.
  destruct entry as [name content]. unfold upsertRecord, findExistingID.
  destruct (List.find _ records) as [rec|] eqn:E.
  - apply List.find_some in E as [Hin Hrec].
    apply andb_prop in Hrec as [Hname Htype].
    apply String.eqb_eq in Hname, Htype.
    destruct (negb _); [destruct (String.eqb _ name)|]; simpl; intros Hd;
      repeat (destruct Hd as [Hd|Hd]; try discriminate); try contradiction.
    injection Hd as <-. now exists rec.
  - simpl. intros [Hd|[]]. discriminate.
Qed.

Lemma fold_chainStep_names domain n l acc m :
  (forall m0, acc = Ret m0 ->
              forall k, is_Some (m0 !! k) -> desiredName domain k) ->
  fold_left (chainStep domain n) l acc = Ret m ->
  forall k, is_Some (m !! k) -> desiredName domain k.
Proof.
  revert acc. induction l as [|[i record] l IH]; intros acc Hacc; simpl.
  - intros E. now apply Hacc.
  - apply IH. intros m0. unfold chainStep.
    destruct acc as [m1| |]; try discriminate. rewrite bind_Ret.
    destruct (_ <? _)%nat; [discriminate|]. intros [= <-] k.
    rewrite lookup_insert. case_decide as Hk.
    + intros _. right. now exists i.
    + now apply Hacc.
Qed.

Lemma SplitAndChainSPF_names spfRecord domain m k :
  SplitAndChainSPF spfRecord domain = Ret m ->
  is_Some (m !! k) -> desiredName domain k.
Proof.
  unfold SplitAndChainSPF. destruct (_ <=? _)%nat.
  - intros [= <-]. rewrite lookup_singleton. case_decide as Hk.
    + intros _. now left.
    + now intros [? [=]].
  - destruct (Fields _) as [|p0 rest]; [discriminate|].
    destruct (fold_left (chainStep domain _) _ (Ret ∅)) as [r| |] eqn:E;
      try discriminate.
    rewrite bind_Ret. intros [= <-]. rewrite lookup_insert. case_decide as Hk.
    + intros _. now left.
    + eapply fold_chainStep_names; [|exact E].
      intros m0 [= <-] k0. rewrite lookup_empty. now intros [? [=]].
Qed.

Lemma unflat_not_desired domain : ~ desiredName domain ("spf-unflat." +:+ domain).
Proof.
  intros [E|[i E]].
  - apply (f_equal len) in E. rewrite len_app in E. simpl in E. lia.
  - destruct (Itoa_head i) as (c & rest & Hrest & Hc).
    rewrite Hrest in E. injection E as E. now subst c.
Qed.

(** With [chainedRecords] computed by [SplitAndChainSPF], and record IDs
    that name one record, the production branch of the command makes no
    call of [DeleteRecord] for the record [spf-unflat.<domain>]. *)
Lemma applyChanges_spares_unflat fuel spfUnflat domain ttl flattenedSPF
    records chainedRecords names entries rec :
  SplitAndChainSPF flattenedSPF domain = Ret chainedRecords ->
  (forall name content, In (name, content) entries ->
                        chainedRecords !! name = Some content) ->
  TrimSuffix (Name rec) "." = "spf-unflat." +:+ domain ->
  (forall other, In other records -> ID other = ID rec ->
                 TrimSuffix (Name other) "." = TrimSuffix (Name rec) ".") ->
  ~ In (DeleteRecord (ID rec))
       (fst (applyChanges fuel spfUnflat domain ttl records chainedRecords
                          names entries)).
Proof.
  intros Hsplit Hentries Hname Hid. unfold applyChanges.
  pose proof (deleteStaleRecords_nothing fuel spfUnflat domain records
                chainedRecords names) as Hnone.
  destruct (deleteStaleRecords _ _ _ _ _ _) as [calls ended].
  cbn [fst] in Hnone. subst calls. destruct ended; [|now intros []].
  cbn [fst app]. rewrite in_flat_map. intros ([name content] & Hentry & Hdel).
  apply upsertRecord_delete in Hdel as (other & Hin & Hother & Hnm & _).
  cbn [fst] in Hnm.
  apply (unflat_not_desired domain).
  apply (SplitAndChainSPF_names flattenedSPF domain chainedRecords).
  - exact Hsplit.
  - rewrite <- Hname, <- (Hid other Hin Hother), Hnm.
    rewrite (Hentries name content Hentry). now eexists.
Qed.

(** * Further properties *)

(** ** The errors of [NormalizeSPF] and the extracted mechanisms *)

Lemma Fields_of_spf_record x :
  HasPrefix x "v=spf1" = true ->
  exists p0 rest, Fields x = p0 :: rest /\ isToken p0 /\ Forall isToken rest /\
                  HasPrefix p0 "v=spf1" = true.
Proof.
  intros Hp. destruct (HasPrefix_split _ _ Hp) as [s2 ->].
  assert (Hv : isToken "v=spf1") by (split; [discriminate|reflexivity]).
  destruct (Fields_head_keeps_prefix "v=spf1" s2 Hv) as (t' & rest & HF).
  pose proof (Fields_tokens ("v=spf1" +:+ s2)) as Htok. rewrite HF in Htok.
  inversion Htok as [|? ? H0 Hr]; subst.
  exists ("v=spf1" +:+ t'), rest. repeat split; try assumption.
  - now destruct H0.
  - now destruct H0.
  - apply HasPrefix_refl_app.
Qed.

(** The second error of [NormalizeSPF], [empty SPF record], is never
    returned: a record that begins with [v=spf1] has a first field.  The
    function fails exactly on the records without the version tag, with
    the error for them. *)
Theorem NormalizeSPF_error_iff (x : string) (e : error) :
  NormalizeSPF x = Err e <->
  HasPrefix x "v=spf1" = false /\
  e = "invalid SPF record: must start with v=spf1".
Proof.
  split.
  - intros E. destruct (HasPrefix x "v=spf1") eqn:Hp.
    + destruct (Fields_of_spf_record x Hp) as (p0 & rest & HF & _).
      rewrite (NormalizeSPF_parts x p0 rest Hp HF) in E. discriminate.
    + unfold NormalizeSPF in E. rewrite Hp in E. simpl in E.
      split; [reflexivity|]. now injection E as <-.
  - intros [Hp ->]. unfold NormalizeSPF. now rewrite Hp.
Qed.

Lemma fold_extract rest acc :
  fold_left
    (fun mechanisms part =>
       if HasSuffix part "all" then mechanisms
       else if isSPFMechanism part then mechanisms ++ [part] else mechanisms)
    rest acc
  = acc ++ List.filter isMech rest.
Proof.
  revert acc. induction rest as [|p rest IH]; intros acc; simpl.
  - now rewrite app_nil_r.
  - rewrite IH. unfold isMech, isAll.
    destruct (HasSuffix p "all"); simpl; [reflexivity|].
    destruct (isSPFMechanism p); simpl; [now rewrite <- app_assoc|reflexivity].
Qed.

Lemma ExtractMechanisms_parts x p0 rest :
  HasPrefix x "v=spf1" = true -> Fields x = p0 :: rest ->
  ExtractMechanisms x = Ok (sortStrings (List.filter isMech rest)).
Proof.
  intros Hp HF. unfold ExtractMechanisms. rewrite Hp, HF. simpl negb. cbv iota.
  now rewrite fold_extract.
Qed.

Lemma filter_isMech_normalized rest :
  Forall isToken rest ->
  List.filter isMech
    (List.filter isUnknown rest ++ sortStrings (List.filter isMech rest)
       ++ allTail rest)
  = sortStrings (List.filter isMech rest).
Proof.
  intros Hr.
  set (U := List.filter isUnknown rest).
  set (M := sortStrings (List.filter isMech rest)).
  assert (HU : Forall (fun p => isUnknown p = true) U)
    by apply Forall_filter_true.
  assert (HM : Forall (fun p => isMech p = true) M)
    by apply sortStrings_Forall, Forall_filter_true.
  assert (HA : Forall (fun p => isAll p = true) (allTail rest)).
  { destruct (allTail_spec rest Hr) as [[-> _]|(a & -> & Ha & _)];
      [constructor|constructor; [exact Ha|constructor]]. }
  rewrite !List.filter_app, (filter_all_true _ M HM).
  rewrite (filter_all_false _ U), (filter_all_false _ (allTail rest)).
  - now rewrite app_nil_r.
  - eapply List.Forall_impl; [|exact HA]. unfold isMech. now intros p ->.
  - eapply List.Forall_impl; [|exact HU]. unfold isUnknown, isMech.
    intros p Hp. apply andb_prop in Hp as [-> Hp].
    apply negb_true_iff in Hp. now rewrite Hp.
Qed.

(** Normalizing a record does not change the mechanisms extracted from
    it: [ExtractMechanisms(NormalizeSPF(x)) = ExtractMechanisms(x)], and
    both calls succeed on every record that begins with [v=spf1]. *)
Theorem ExtractMechanisms_NormalizeSPF (x : string) :
  HasPrefix x "v=spf1" = true ->
  exists y ms,
    NormalizeSPF x = Ok y /\ ExtractMechanisms x = Ok ms /\
    ExtractMechanisms y = Ok ms.
Proof.
  intros Hp.
  destruct (Fields_of_spf_record x Hp) as (p0 & rest & HF & H0 & Hr & Hp0).
  exists (Join (normalizedList p0 rest) " "),
         (sortStrings (List.filter isMech rest)).
  split; [now apply NormalizeSPF_parts|].
  split; [now apply (ExtractMechanisms_parts x p0)|].
  pose proof (normalizedList_tokens _ _ H0 Hr) as Htoks.
  unfold normalizedList in *. rewrite <- app_comm_cons in *.
  rewrite (ExtractMechanisms_parts _ p0 _ (Join_cons_prefix _ _ _ Hp0)
             (Fields_Join _ Htoks)).
  now rewrite filter_isMech_normalized, sortStrings_idempotent.
Qed.

Lemma ExtractMechanisms_NormalizeSPF_witness :
  HasPrefix "v=spf1 mx zzz a -all include:x.org ~all" "v=spf1" = true /\
  exists y ms,
    NormalizeSPF "v=spf1 mx zzz a -all include:x.org ~all" = Ok y /\
    ExtractMechanisms "v=spf1 mx zzz a -all include:x.org ~all" = Ok ms /\
    ExtractMechanisms y = Ok ms.
Proof.
  split; [reflexivity|].
  apply (ExtractMechanisms_NormalizeSPF
           "v=spf1 mx zzz a -all include:x.org ~all").
  reflexivity.
Defined.

Lemma insertString_In x l m : In m (insertString x l) <-> m = x \/ In m l.
Proof.
  induction l as [|y l IH]; simpl; [intuition|].
  destruct (String.leb x y); simpl; [intuition|].
  rewrite IH. intuition.
Qed.

Lemma sortStrings_In l m : In m (sortStrings l) <-> In m l.
Proof.
  induction l as [|x l IH]; simpl; [reflexivity|].
  rewrite insertString_In, IH. intuition.
Qed.

(** [ExtractMechanisms] returns, in ascending order, the fields after the
    first that are recognised as mechanisms and do not end in [all]:
    nothing else, and none of them is left out. *)
Theorem ExtractMechanisms_spec (x : string) (ms : list string) :
  ExtractMechanisms x = Ok ms ->
  Sorted lebS ms /\
  forall m, In m ms <->
            In m (tl (Fields x)) /\ HasSuffix m "all" = false /\
            isSPFMechanism m = true.
Proof.
  intros E. destruct (HasPrefix x "v=spf1") eqn:Hp.
  2:{ unfold ExtractMechanisms in E. rewrite Hp in E. discriminate. }
  destruct (Fields_of_spf_record x Hp) as (p0 & rest & HF & _).
  rewrite (ExtractMechanisms_parts x p0 rest Hp HF) in E. injection E as <-.
  split; [apply sortStrings_sorted|].
  intros m. rewrite sortStrings_In, List.filter_In, HF. cbn [tl].
  unfold isMech, isAll. rewrite andb_true_iff, negb_true_iff. tauto.
Qed.

Lemma ExtractMechanisms_spec_witness :
  ExtractMechanisms "v=spf1 mx zzz a -all include:x.org ~all"
  = Ok ["a"; "include:x.org"; "mx"] /\
  Sorted lebS ["a"; "include:x.org"; "mx"] /\
  forall m, In m ["a"; "include:x.org"; "mx"] <->
            In m (tl (Fields "v=spf1 mx zzz a -all include:x.org ~all")) /\
            HasSuffix m "all" = false /\ isSPFMechanism m = true.
Proof.
  split; [reflexivity|].
  apply (ExtractMechanisms_spec "v=spf1 mx zzz a -all include:x.org ~all").
  reflexivity.
Defined.

Lemma fold_mechSet (rest : list string) :
  forall (acc : gset string) (m : string),
    m ∈ fold_left
          (fun (mechSet : gset string) part =>
             if HasSuffix part "all" then {[ part ]} ∪ mechSet
             else if isSPFMechanism part then {[ part ]} ∪ mechSet
             else mechSet)
          rest acc
    <-> m ∈ acc \/
        (In m rest /\ (HasSuffix m "all" = true \/ isSPFMechanism m = true)).
Proof.
  induction rest as [|p rest IH]; intros acc m; cbn [fold_left].
  - split; [now left|]. now intros [H|[[] _]].
  - rewrite IH. cbn [In].
    destruct (HasSuffix p "all") eqn:Ha;
      [|destruct (isSPFMechanism p) eqn:Hm].
    + rewrite elem_of_union, elem_of_singleton. split.
      * intros [[->|H]|H]; [right; split; [now left|now left]|now left|].
        right. destruct H as [H1 H2]. split; [now right|exact H2].
      * intros [H|[[->|H1] H2]]; [left; now right|left; now left|].
        right. now split.
    + rewrite elem_of_union, elem_of_singleton. split.
      * intros [[->|H]|H]; [right; split; [now left|now right]|now left|].
        right. destruct H as [H1 H2]. split; [now right|exact H2].
      * intros [H|[[->|H1] H2]]; [left; now right|left; now left|].
        right. now split.
    + split.
      * intros [H|[H1 H2]]; [now left|]. right. split; [now right|exact H2].
      * intros [H|[[->|H1] H2]]; [now left| |right; now split].
        destruct H2 as [H2|H2]; congruence.
Qed.

(** [ExtractMechanismSet] agrees with [ExtractMechanisms]: for a record
    [ExtractMechanisms] accepts, it returns the set of the mechanisms
    [ExtractMechanisms] lists, together with the fields after the first
    that end in [all]. *)
Theorem ExtractMechanismSet_ExtractMechanisms (x : string)
    (ms : list string) :
  ExtractMechanisms x = Ok ms ->
  exists mechSet,
    ExtractMechanismSet x = Ret mechSet /\
    forall m, m ∈ mechSet <->
              In m ms \/ (In m (tl (Fields x)) /\ HasSuffix m "all" = true).
Proof.
  intros E. destruct (HasPrefix x "v=spf1") eqn:Hp.
  2:{ unfold ExtractMechanisms in E. rewrite Hp in E. discriminate. }
  destruct (Fields_of_spf_record x Hp) as (p0 & rest & HF & _).
  rewrite (ExtractMechanisms_parts x p0 rest Hp HF) in E. injection E as <-.
  unfold ExtractMechanismSet. rewrite HF. eexists. split; [reflexivity|].
  intros m. rewrite fold_mechSet, sortStrings_In, List.filter_In.
  cbn [tl]. unfold isMech, isAll. rewrite andb_true_iff, negb_true_iff.
  split.
  - intros [H|[H1 [H2|H2]]]; [now apply not_elem_of_empty in H|now right|].
    destruct (HasSuffix m "all") eqn:Ha; [now right|now left].
  - intros [(H1 & H2 & H3)|[H1 H2]]; right; (split; [exact H1|]);
      [now right|now left].
Qed.

Lemma ExtractMechanismSet_ExtractMechanisms_witness :
  ExtractMechanisms "v=spf1 mx zzz a -all include:x.org ~all"
  = Ok ["a"; "include:x.org"; "mx"] /\
  exists mechSet,
    ExtractMechanismSet "v=spf1 mx zzz a -all include:x.org ~all"
    = Ret mechSet /\
    forall m, m ∈ mechSet <->
              In m ["a"; "include:x.org"; "mx"] \/
              (In m (tl (Fields "v=spf1 mx zzz a -all include:x.org ~all")) /\
               HasSuffix m "all" = true).
Proof.
  split; [reflexivity|].
  apply (ExtractMechanismSet_ExtractMechanisms
           "v=spf1 mx zzz a -all include:x.org ~all").
  reflexivity.
Defined.

(** ** [NormalizeSPF] compares records up to the order of mechanisms *)

Lemma compare_le_trans a :
  forall b c, String.compare a b <> Gt -> String.compare b c <> Gt ->
              String.compare a c <> Gt.
Proof.
  induction a as [|c1 a IH]; intros [|c2 b] [|c3 c]; simpl; try congruence.
  unfold Ascii.compare.
  destruct (N.compare_spec (N_of_ascii c1) (N_of_ascii c2)) as [E12|L12|G12];
    try congruence;
    destruct (N.compare_spec (N_of_ascii c2) (N_of_ascii c3)) as [E23|L23|G23];
    try congruence; intros H1 H2.
  - rewrite E12, E23, N.compare_refl. now apply (IH b c).
  - rewrite E12. apply N.compare_lt_iff in L23. now rewrite L23.
  - rewrite <- E23. apply N.compare_lt_iff in L12. now rewrite L12.
  - assert (L13 : (N_of_ascii c1 < N_of_ascii c3)%N) by lia.
    apply N.compare_lt_iff in L13. now rewrite L13.
Qed.

Lemma lebS_trans x y z : lebS x y -> lebS y z -> lebS x z.
Proof.
  unfold lebS, String.leb. intros H1 H2.
  pose proof (compare_le_trans x y z) as Ht.
  destruct (String.compare x y); destruct (String.compare y z);
    destruct (String.compare x z); try reflexivity; try discriminate;
    exfalso; apply Ht; (discriminate || reflexivity).
Qed.

Lemma sorted_head_least x l :
  Sorted lebS (x :: l) -> forall y, In y (x :: l) -> lebS x y.
Proof.
  intros Hs. apply Sorted_StronglySorted in Hs; [|exact lebS_trans].
  inversion Hs as [|? ? _ Hall]; subst. intros y [<-|Hy].
  - unfold lebS. destruct (String.leb_total x x); assumption.
  - rewrite List.Forall_forall in Hall. now apply Hall.
Qed.

Lemma sorted_permutation_eq l1 :
  forall l2, Sorted lebS l1 -> Sorted lebS l2 -> Permutation l1 l2 -> l1 = l2.
Proof.
  induction l1 as [|x l1 IH]; intros [|y l2] H1 H2 Hp.
  - reflexivity.
  - now apply Permutation_nil in Hp.
  - symmetry in Hp. now apply Permutation_nil in Hp.
  - assert (Hxy : lebS x y).
    { apply (sorted_head_least x l1 H1).
      apply (Permutation_in _ (Permutation_sym Hp)). now left. }
    assert (Hyx : lebS y x).
    { apply (sorted_head_least y l2 H2).
      apply (Permutation_in _ Hp). now left. }
    pose proof (String.leb_antisym _ _ Hxy Hyx) as ->.
    f_equal. apply IH.
    + now inversion H1.
    + now inversion H2.
    + now apply Permutation_cons_inv in Hp.
Qed.

Lemma insertString_perm x l : Permutation (insertString x l) (x :: l).
Proof.
  induction l as [|y l IH]; simpl; [reflexivity|].
  destruct (String.leb x y); [reflexivity|].
  rewrite IH. apply perm_swap.
Qed.

Lemma sortStrings_perm l : Permutation (sortStrings l) l.
Proof.
  induction l as [|x l IH]; simpl; [reflexivity|].
  rewrite insertString_perm. now constructor.
Qed.

Lemma sortStrings_Permutation l1 l2 :
  Permutation l1 l2 -> sortStrings l1 = sortStrings l2.
Proof.
  intros Hp. apply sorted_permutation_eq; try apply sortStrings_sorted.
  now rewrite !sortStrings_perm.
Qed.

Lemma filter_Permutation_list {A} (f : A -> bool) l1 l2 :
  Permutation l1 l2 -> Permutation (List.filter f l1) (List.filter f l2).
Proof.
  induction 1 as [|x l1 l2 _ IH|x y l|l1 l2 l3 _ IH1 _ IH2]; simpl.
  - reflexivity.
  - destruct (f x); [now constructor|exact IH].
  - destruct (f x), (f y); try reflexivity. apply perm_swap.
  - now transitivity (List.filter f l2).
Qed.

(** Two records with the same first field, whose other fields are the
    same mechanisms in a different order and the same tokens ending in
    [all] in the same order, have the same normal form: [NormalizeSPF]
    decides equality of records up to the order of their mechanisms. *)
Theorem NormalizeSPF_permutation (x1 x2 : string) :
  HasPrefix x1 "v=spf1" = true -> HasPrefix x2 "v=spf1" = true ->
  hd EmptyString (Fields x1) = hd EmptyString (Fields x2) ->
  Permutation (tl (Fields x1)) (tl (Fields x2)) ->
  List.filter isUnknown (tl (Fields x1)) = [] ->
  List.filter isAll (tl (Fields x1)) = List.filter isAll (tl (Fields x2)) ->
  NormalizeSPF x1 = NormalizeSPF x2.
Proof.
  intros Hp1 Hp2 Hhd Hperm Hunk Hall.
  destruct (Fields_of_spf_record x1 Hp1) as (p1 & r1 & HF1 & _).
  destruct (Fields_of_spf_record x2 Hp2) as (p2 & r2 & HF2 & _).
  rewrite HF1, HF2 in *. cbn [hd tl] in *. subst p2.
  rewrite (NormalizeSPF_parts x1 p1 r1 Hp1 HF1).
  rewrite (NormalizeSPF_parts x2 p1 r2 Hp2 HF2).
  do 2 f_equal. unfold normalizedList, allTail. rewrite Hall. f_equal. f_equal.
  - rewrite Hunk. symmetry. apply Permutation_nil.
    rewrite <- Hunk. now apply filter_Permutation_list.
  - f_equal. now apply sortStrings_Permutation, filter_Permutation_list.
Qed.

Lemma NormalizeSPF_permutation_witness :
  HasPrefix "v=spf1 mx a include:x.org ~all" "v=spf1" = true /\
  HasPrefix "v=spf1 include:x.org ~all a mx" "v=spf1" = true /\
  NormalizeSPF "v=spf1 mx a include:x.org ~all"
  = NormalizeSPF "v=spf1 include:x.org ~all a mx".
Proof.
  split; [reflexivity|]. split; [reflexivity|].
  apply (NormalizeSPF_permutation "v=spf1 mx a include:x.org ~all"
           "v=spf1 include:x.org ~all a mx");
    [vm_compute; reflexivity|vm_compute; reflexivity|vm_compute; reflexivity
    | |vm_compute; reflexivity|vm_compute; reflexivity].
  change (Permutation ["mx"; "a"; "include:x.org"; "~all"]
                      ["include:x.org"; "~all"; "a"; "mx"]).
  apply (Permutation_trans
           (l' := ["include:x.org"; "mx"; "a"; "~all"])).
  - apply (Permutation_cons_app ["include:x.org"] ["a"; "~all"] "mx").
    apply (Permutation_cons_app ["include:x.org"] ["~all"] "a").
    reflexivity.
  - constructor.
    apply (Permutation_cons_app ["~all"; "a"] [] "mx").
    apply (Permutation_cons_app ["~all"] [] "a"). reflexivity.
Defined.

(** ** [SplitAndChainSPF] returns records within the limit *)

Lemma Fields_length s : (length (Fields s) <= len s)%nat.
Proof.
  unfold len. induction s as [|c s IH]; [simpl; lia|].
  cbn [Fields]. destruct (isSpace c); [simpl; lia|].
  destruct s as [|c' s']; [simpl; lia|].
  destruct (isSpace c'); [simpl in *; lia|].
  destruct (Fields (String c' s')); simpl in *; lia.
Qed.

Lemma itoaFrom_len fuel :
  forall n acc k,
    (1 <= k)%Z -> (Z.of_nat n < 10 ^ k)%Z ->
    (Z.of_nat (len (itoaFrom fuel n acc)) <= Z.of_nat (len acc) + k)%Z.
Proof.
  induction fuel as [|fuel IH]; intros n acc k Hk Hn; [simpl; lia|].
  cbn [itoaFrom]. destruct (Nat.ltb_spec n 10) as [Hlt|Hge].
  - unfold len. simpl. lia.
  - assert (Hk2 : (2 <= k)%Z).
    { destruct (Z.eq_dec k 1%Z) as [->|]; [|lia]. simpl in Hn. lia. }
    assert (Hdiv : (Z.of_nat (n / 10) < 10 ^ (k - 1))%Z).
    { rewrite Nat2Z.inj_div. change (Z.of_nat 10) with 10%Z.
      apply Z.div_lt_upper_bound; [lia|].
      replace (10 * 10 ^ (k - 1))%Z with (10 ^ k)%Z; [exact Hn|].
      replace k with (1 + (k - 1))%Z at 1 by lia.
      rewrite Z.pow_add_r by lia. reflexivity. }
    pose proof (IH (n / 10)%nat (String (digitChar (n mod 10)) acc) (k - 1)%Z
                  ltac:(lia) Hdiv) as IH'.
    unfold len in *. cbn [String.length] in IH'. lia.
Qed.

Lemma Itoa_len n k :
  (1 <= k)%Z -> (Z.of_nat n < 10 ^ k)%Z -> (Z.of_nat (len (Itoa n)) <= k)%Z.
Proof.
  intros Hk Hn. pose proof (itoaFrom_len (S n) n EmptyString k Hk Hn) as H.
  exact H.
Qed.

Lemma len_takeBytes_eq n s : len (takeBytes n s) = Nat.min n (len s).
Proof.
  unfold len. revert s. induction n as [|n IH]; intros [|c s]; simpl; auto.
Qed.

Lemma HasPrefix_takeBytes p :
  forall n s, HasPrefix s p = true -> (len p <= n)%nat ->
              HasPrefix (takeBytes n s) p = true.
Proof.
  unfold len. induction p as [|c p IH]; intros n s Hp Hn;
    [apply HasPrefix_nil|].
  destruct s as [|c' s]; [discriminate|].
  destruct n as [|n]; [simpl in Hn; lia|].
  rewrite HasPrefix_cons in Hp. apply andb_prop in Hp as [Hc Hp].
  cbn [takeBytes]. rewrite HasPrefix_cons, Hc. apply IH; [exact Hp|].
  simpl in Hn. lia.
Qed.

Lemma TrimSuffix_keeps_prefix s suffix p :
  HasPrefix s p = true -> (len p + len suffix <= len s)%nat ->
  HasPrefix (TrimSuffix s suffix) p = true /\
  (len s - len suffix <= len (TrimSuffix s suffix))%nat.
Proof.
  intros Hp Hl. unfold TrimSuffix. destruct (HasSuffix s suffix).
  - split; [apply HasPrefix_takeBytes; [exact Hp|lia]|].
    rewrite len_takeBytes_eq. lia.
  - split; [exact Hp|lia].
Qed.

Lemma indexed_bound {A} (l : list A) i x :
  In (i, x) (indexed l) -> (i < length l)%nat.
Proof.
  unfold indexed. intros Hin. apply in_combine_l in Hin.
  apply in_seq in Hin. lia.
Qed.

Lemma fold_packStep_length domain p0 nparts l :
  forall st,
    (length (records (fold_left (packStep domain p0 nparts) l st))
     <= length (records st) + length l)%nat.
Proof.
  induction l as [|[i part] l IH]; intros st; simpl; [lia|].
  etransitivity; [apply IH|].
  match goal with
  | |- context [if ?b then _ else _] => destruct b
  end; simpl; rewrite ?length_app; simpl; lia.
Qed.

Lemma fold_chainStep_Ret domain n l :
  (forall i record, In (i, record) l ->
     (Z.of_nat i + 1 < 10 ^ 7)%Z) ->
  (len domain <= 230)%nat ->
  forall m0, exists m, fold_left (chainStep domain n) l (Ret m0) = Ret m.
Proof.
  intros Hl Hd. induction l as [|[i record] l IH]; intros m0.
  - now exists m0.
  - assert (Hc : (len (if (i <? n - 1)%nat
                       then " include:spf" +:+ Itoa (i + 1) +:+ "." +:+ domain
                              +:+ " ~all"
                       else " ~all") <= maxSPFChars)%nat).
    { destruct (i <? n - 1)%nat; [|simpl; unfold maxSPFChars; lia].
      rewrite !len_app. change (len " include:spf") with 12%nat.
      change (len ".") with 1%nat. change (len " ~all") with 5%nat.
      pose proof (Itoa_len (i + 1) 7 ltac:(lia)) as Hi.
      rewrite Nat2Z.inj_add in Hi.
      specialize (Hi (Hl i record (or_introl eq_refl))).
      unfold maxSPFChars. lia. }
    assert (E : exists m1, chainStep domain n (Ret m0) (i, record) = Ret m1).
    { unfold chainStep. rewrite bind_Ret.
      destruct (Nat.ltb_spec maxSPFChars
                  (len (if (i <? n - 1)%nat
                        then " include:spf" +:+ Itoa (i + 1) +:+ "." +:+ domain
                               +:+ " ~all"
                        else " ~all"))) as [Hgt|_]; [lia|now eexists]. }
    destruct E as [m1 E]. cbn [fold_left]. rewrite E.
    apply IH. intros j r Hj. apply (Hl j r). now right.
Qed.

(** For a record that begins with [v=spf1] and a domain of at most 230
    bytes, [SplitAndChainSPF] returns (no slice expression panics) and
    every record it emits, the one at the apex and every [spfN], has at
    most 255 bytes.  The bound on the record, ten million bytes, keeps the
    index in the name [spfN] within seven digits. *)
Theorem SplitAndChainSPF_total_within (spfRecord domain : string) :
  HasPrefix spfRecord "v=spf1" = true ->
  (len domain <= 230)%nat ->
  (Z.of_nat (len spfRecord) < 10 ^ 7)%Z ->
  exists m, SplitAndChainSPF spfRecord domain = Ret m /\ allWithinLimit m.
Proof.
  intros Hp Hd Hr.
  assert (Hex : exists m, SplitAndChainSPF spfRecord domain = Ret m).
  { unfold SplitAndChainSPF.
    destruct (Nat.leb_spec (len spfRecord) maxSPFChars) as [Hs|Hs];
      [now eexists|].
    unfold maxSPFChars in Hs.
    destruct (TrimSuffix_keeps_prefix spfRecord " ~all" "v=spf1" Hp)
      as [Hp1 Hl1]; [simpl; lia|].
    change (len " ~all") with 5%nat in Hl1.
    destruct (TrimSuffix_keeps_prefix (TrimSuffix spfRecord " ~all") " -all"
                "v=spf1" Hp1) as [Hp2 _]; [simpl; lia|].
    assert (Hlen2 : (len (TrimSuffix (TrimSuffix spfRecord " ~all") " -all")
                     <= len spfRecord)%nat).
    { unfold TrimSuffix.
      destruct (HasSuffix (if HasSuffix spfRecord " ~all" then _ else _) _);
        destruct (HasSuffix spfRecord " ~all");
        rewrite ?len_takeBytes_eq; lia. }
    pose proof (Fields_length
                  (TrimSuffix (TrimSuffix spfRecord " ~all") " -all")) as HFl.
    destruct (Fields_of_spf_record _ Hp2) as (p0 & rest & HF & _).
    rewrite HF in *. simpl in HFl.
    set (st := fold_left _ (indexed rest) _).
    pose proof (fold_packStep_length domain p0 (S (length rest))
                  (indexed rest) (mkPackState [] p0)) as Hst.
    fold st in Hst. cbn [records length] in Hst.
    assert (Hidx : length (indexed rest) = length rest).
    { unfold indexed. rewrite length_combine, length_seq. lia. }
    rewrite Hidx in Hst.
    destruct (fold_chainStep_Ret domain
                (length (records st ++ [currentRecord st]))
                (indexed (records st ++ [currentRecord st]))) with (m0 := (∅ : gmap string string))
      as [m Hm]; [|exact Hd|].
    - intros i record Hin. apply indexed_bound in Hin.
      rewrite length_app in Hin. simpl in Hin. lia.
    - rewrite Hm, bind_Ret. now eexists. }
  destruct Hex as [m Hm]. exists m. split; [exact Hm|].
  now apply (SplitAndChainSPF_within spfRecord domain).
Qed.

Lemma SplitAndChainSPF_total_within_witness :
  HasPrefix longRecord "v=spf1" = true /\
  (len "example.com" <= 230)%nat /\
  (Z.of_nat (len longRecord) < 10 ^ 7)%Z /\
  exists m, SplitAndChainSPF longRecord "example.com" = Ret m /\
            allWithinLimit m.
Proof.
  split; [reflexivity|]. split; [simpl; lia|]. split; [vm_compute; reflexivity|].
  apply (SplitAndChainSPF_total_within longRecord "example.com");
    [reflexivity|simpl; lia|vm_compute; reflexivity].
Defined.

(** ** Redaction and the errors of the client *)

(** [redactSensitive] is idempotent: a redacted message is left as it is
    by a second pass. *)
Theorem redactSensitive_idempotent (s : string) :
  redactSensitive (redactSensitive s) = redactSensitive s.
Proof.
  rewrite (redactSensitive_once (redactSensitive s)).
  apply ReplaceAll_absent. rewrite redactSensitive_once.
  apply replace_apikey_clean.
Qed.

(** The error [checkHTTPStatus] builds for the status codes 429 and 503
    is one that [isRateLimitError] recognises: the retry wrapper retries
    the call. *)
Theorem checkHTTPStatus_is_rate_limit (resp : Response) (err : error) :
  checkHTTPStatus resp = Some err -> isRateLimitError err = true.
Proof.
  unfold checkHTTPStatus, isRateLimitError.
  destruct (Z.eqb_spec (StatusCode resp) 429) as [->|_]; simpl.
  - intros [= <-].
    change (ItoaZ 429) with "429".
    rewrite (Contains_skip "HTTP " _ "429"); [reflexivity|].
    apply Contains_of_prefix. apply (HasPrefix_refl_app "429").
  - destruct (Z.eqb_spec (StatusCode resp) 503) as [->|_]; [|discriminate].
    intros [= <-].
    change (ItoaZ 503) with "503".
    rewrite (Contains_skip "HTTP " _ "503"), orb_true_r; [reflexivity|].
    apply Contains_of_prefix. apply (HasPrefix_refl_app "503").
Qed.

Lemma checkHTTPStatus_is_rate_limit_witness :
  checkHTTPStatus (mkResponse 503 "503 Service Unavailable" "busy")
  = Some "HTTP 503 503 Service Unavailable: busy" /\
  isRateLimitError "HTTP 503 503 Service Unavailable: busy" = true.
Proof.
  split; [reflexivity|].
  apply (checkHTTPStatus_is_rate_limit
           (mkResponse 503 "503 Service Unavailable" "busy")).
  reflexivity.
Defined.

(** [RetrieveRecords] returns a response only when the transport
    succeeded, the HTTP status is neither 429 nor 503, the body was
    parsed, and the status field of the answer is [SUCCESS]; the response
    returned is the parsed answer. *)
Theorem RetrieveRecords_Ok_inv (transport : result Response)
    (parsed : result RetrieveRecordsResponse) (r : RetrieveRecordsResponse) :
  RetrieveRecords transport parsed = Ok r ->
  exists resp,
    transport = Ok resp /\ StatusCode resp <> 429%Z /\
    StatusCode resp <> 503%Z /\ parsed = Ok r /\ Status r = "SUCCESS".
Proof.
  unfold RetrieveRecords, checkHTTPStatus.
  destruct transport as [resp|e]; [|discriminate].
  destruct (Z.eqb_spec (StatusCode resp) 429) as [|H429]; [discriminate|].
  destruct (Z.eqb_spec (StatusCode resp) 503) as [|H503]; [discriminate|].
  simpl. destruct parsed as [answer|e]; [|discriminate].
  destruct (String.eqb_spec (Status answer) "SUCCESS") as [Hs|Hs];
    [|discriminate].
  simpl. intros [= <-]. now exists resp.
Qed.

Lemma RetrieveRecords_Ok_inv_witness :
  RetrieveRecords (Ok (mkResponse 200 "200 OK" "{}"))
                  (Ok (mkRetrieveRecordsResponse "SUCCESS" []))
  = Ok (mkRetrieveRecordsResponse "SUCCESS" []) /\
  exists resp,
    Ok (mkResponse 200 "200 OK" "{}") = Ok resp /\ StatusCode resp <> 429%Z /\
    StatusCode resp <> 503%Z /\
    Ok (mkRetrieveRecordsResponse "SUCCESS" [])
    = Ok (mkRetrieveRecordsResponse "SUCCESS" []) /\
    Status (mkRetrieveRecordsResponse "SUCCESS" []) = "SUCCESS".
Proof.
  split; [reflexivity|].
  apply (RetrieveRecords_Ok_inv (Ok (mkResponse 200 "200 OK" "{}"))
           (Ok (mkRetrieveRecordsResponse "SUCCESS" []))).
  reflexivity.
Defined.

(** ** The retry wrapper *)

(** A permanent error, one that is neither a rate-limit error nor a
    temporary one, is not retried: the wrapped function is called once, no
    sleep is made, and the error is returned wrapped in the message of
    [withRetry]. *)
Theorem withRetry_permanent_error (bm : BackupManager) (operation : string)
    (fn : Z -> option error) (rnd : Z -> Q) (err : error) :
  (1 <= retryCount bm)%Z -> fn 0%Z = Some err -> retryable err = false ->
  withRetry bm operation fn rnd
  = ([Call 0%Z], Some (failedAfter bm operation err)).
Proof.
  intros Hc Hfn Hr. unfold withRetry.
  destruct (Z.to_nat (retryCount bm)) as [|n] eqn:E; [lia|].
  cbn [retryLoop]. rewrite Hfn. unfold retryable in Hr. now rewrite Hr.
Qed.

Lemma withRetry_permanent_error_witness :
  (1 <= retryCount defaultManager)%Z /\
  retryable "record not found" = false /\
  withRetry defaultManager "delete record" (fun _ => Some "record not found")
            (fun _ => 0%Q)
  = ([Call 0%Z],
     Some (failedAfter defaultManager "delete record" "record not found")).
Proof.
  split; [vm_compute; discriminate|]. split; [reflexivity|].
  apply (withRetry_permanent_error defaultManager "delete record"
           (fun _ => Some "record not found") (fun _ => 0%Q) "record not found");
    [vm_compute; discriminate|reflexivity|reflexivity].
Defined.

Lemma retryLoop_calls bm operation fn rnd remaining :
  forall attempt lastErr,
    exists k, (k <= remaining)%nat /\
      List.filter isCall
        (fst (retryLoop bm operation fn rnd remaining attempt lastErr))
      = map (fun i => Call (attempt + Z.of_nat i)) (seq 0 k).
Proof.
  induction remaining as [|remaining IH]; intros attempt lastErr.
  - exists 0%nat. split; [lia|reflexivity].
  - cbn [retryLoop].
    assert (H1 : exists k, (k <= S remaining)%nat /\
               [Call attempt]
               = map (fun i => Call (attempt + Z.of_nat i)) (seq 0 k)).
    { exists 1%nat. split; [lia|]. simpl. now rewrite Z.add_0_r. }
    destruct (fn attempt) as [err|]; [|exact H1].
    destruct (isRateLimitError err || isTemporaryError err); [|exact H1].
    destruct (IH (attempt + 1)%Z err) as (k & Hk & E).
    assert (Hshift :
      Call attempt :: map (fun i => Call (attempt + 1 + Z.of_nat i)) (seq 0 k)
      = map (fun i => Call (attempt + Z.of_nat i)) (seq 0 (S k))).
    { cbn [seq map]. rewrite Z.add_0_r. f_equal.
      rewrite <- seq_shift, map_map. apply map_ext. intros i. f_equal. lia. }
    destruct (attempt <? retryCount bm - 1)%Z;
      destruct (retryLoop bm operation fn rnd remaining (attempt + 1) err)
        as [events res]; cbn [fst List.filter isCall] in *;
      exists (S k); (split; [lia|]); now rewrite E.
Qed.

(** The wrapped function is called at most [retryCount] times, for the
    attempts 0, 1, 2, ... in this order. *)
Theorem withRetry_calls (bm : BackupManager) (operation : string)
    (fn : Z -> option error) (rnd : Z -> Q) :
  exists k, (Z.of_nat k <= Z.max 0 (retryCount bm))%Z /\
    List.filter isCall (fst (withRetry bm operation fn rnd))
    = map (fun i => Call (Z.of_nat i)) (seq 0 k).
Proof.
  destruct (retryLoop_calls bm operation fn rnd (Z.to_nat (retryCount bm))
              0%Z "<nil>") as (k & Hk & E).
  exists k. split; [lia|]. exact E.
Qed.

Lemma retryLoop_nil_iff bm operation fn rnd remaining :
  forall attempt lastErr,
    snd (retryLoop bm operation fn rnd remaining attempt lastErr) = None <->
    exists k, (attempt <= k < attempt + Z.of_nat remaining)%Z /\
      fn k = None /\
      forall j, (attempt <= j < k)%Z ->
                exists err, fn j = Some err /\ retryable err = true.
Proof.
  induction remaining as [|remaining IH]; intros attempt lastErr.
  - simpl. split; [discriminate|]. intros (k & Hk & _). lia.
  - cbn [retryLoop]. destruct (fn attempt) as [err|] eqn:Ef.
    + destruct (isRateLimitError err || isTemporaryError err) eqn:Er.
      * assert (Hsnd :
          snd (if (attempt <? retryCount bm - 1)%Z
               then let '(events, res) :=
                      retryLoop bm operation fn rnd remaining (attempt + 1) err in
                    (Call attempt
                       :: Sleep (calculateBackoffDelay bm attempt (rnd attempt))
                       :: events, res)
               else let '(events, res) :=
                      retryLoop bm operation fn rnd remaining (attempt + 1) err in
                    (Call attempt :: events, res))
          = snd (retryLoop bm operation fn rnd remaining (attempt + 1) err)).
        { destruct (attempt <? retryCount bm - 1)%Z;
            now destruct (retryLoop bm operation fn rnd remaining
                            (attempt + 1) err). }
        rewrite Hsnd, IH. split.
        -- intros (k & Hk & Hfk & Hall). exists k. split; [lia|].
           split; [exact Hfk|]. intros j Hj.
           destruct (Z.eq_dec j attempt) as [->|Hne].
           ++ exists err. now split.
           ++ apply Hall. lia.
        -- intros (k & Hk & Hfk & Hall). exists k.
           assert (k <> attempt) by (intros ->; congruence).
           split; [lia|]. split; [exact Hfk|]. intros j Hj. apply Hall. lia.
      * simpl. split; [discriminate|]. intros (k & Hk & Hfk & Hall).
        destruct (Z.eq_dec k attempt) as [->|Hne]; [congruence|].
        destruct (Hall attempt ltac:(lia)) as (err' & Herr' & Hr).
        rewrite Ef in Herr'. injection Herr' as <-.
        unfold retryable in Hr. congruence.
    + simpl. split; [|reflexivity]. intros _. exists attempt.
      split; [lia|]. split; [exact Ef|]. intros j Hj. lia.
Qed.

(** [withRetry] returns [nil] exactly when one of the first [retryCount]
    attempts succeeds and every attempt before it failed with an error
    that is retried: success is never reported without a successful call,
    and a successful call within the budget is always reached. *)
Theorem withRetry_nil_iff (bm : BackupManager) (operation : string)
    (fn : Z -> option error) (rnd : Z -> Q) :
  snd (withRetry bm operation fn rnd) = None <->
  exists k, (0 <= k < retryCount bm)%Z /\ fn k = None /\
    forall j, (0 <= j < k)%Z ->
              exists err, fn j = Some err /\ retryable err = true.
Proof.
  unfold withRetry. rewrite retryLoop_nil_iff. split.
  - intros (k & Hk & H). exists k. split; [lia|exact H].
  - intros (k & Hk & H). exists k. split; [lia|exact H].
Qed.

(** ** Host names *)

Lemma dropBytes_app a b : dropBytes (len a) (a +:+ b) = b.
Proof. unfold len. induction a as [|c a IH]; simpl; [reflexivity|exact IH]. Qed.

Lemma takeBytes_app a b : takeBytes (len a) (a +:+ b) = a.
Proof.
  unfold len. induction a as [|c a IH]; simpl; [reflexivity|now rewrite IH].
Qed.

Lemma HasSuffix_app a b : HasSuffix (a +:+ b) b = true.
Proof.
  unfold HasSuffix. rewrite len_app.
  replace (len a + len b - len b)%nat with (len a) by lia.
  rewrite dropBytes_app, String.eqb_refl, andb_true_r.
  apply Nat.leb_le. lia.
Qed.

Lemma TrimSuffix_app a b : TrimSuffix (a +:+ b) b = a.
Proof.
  unfold TrimSuffix. rewrite HasSuffix_app, len_app.
  replace (len a + len b - len b)%nat with (len a) by lia.
  apply takeBytes_app.
Qed.

(** [extractHostnameFromFQDN] undoes the composition of a name: from
    [host.domain] it returns [host], for every non-empty [host] and every
    [domain]. *)
Theorem extractHostnameFromFQDN_compose (host domain : string) :
  host <> EmptyString ->
  extractHostnameFromFQDN (host +:+ "." +:+ domain) domain = host.
Proof.
  intros Hh. unfold extractHostnameFromFQDN.
  assert (Hlen : (0 < len host)%nat) by (destruct host; [congruence|simpl; lia]).
  destruct (String.eqb_spec (host +:+ "." +:+ domain) domain) as [E|_].
  - apply (f_equal len) in E. rewrite !len_app in E. lia.
  - rewrite HasSuffix_app, andb_true_r.
    destruct (Nat.ltb_spec (len domain + 1) (len (host +:+ "." +:+ domain)))
      as [_|Hge].
    + apply TrimSuffix_app.
    + rewrite !len_app in Hge. change (len ".") with 1%nat in Hge. lia.
Qed.

Lemma extractHostnameFromFQDN_compose_witness :
  "www" <> EmptyString /\
  extractHostnameFromFQDN ("www" +:+ "." +:+ "example.com") "example.com"
  = "www".
Proof.
  split; [discriminate|].
  apply (extractHostnameFromFQDN_compose "www" "example.com"). discriminate.
Defined.

(** ** The records the flatten command reads and writes *)

(** The map of existing SPF records holds, under the name of the domain,
    only a value that begins with [v=spf1], and otherwise only names that
    begin with [spf]; every entry is the content of a TXT record of the
    provider's answer with that name. *)
Theorem existingSPFTXTRecords_entries (domain : string)
    (records : list Record) (name content : string) :
  existingSPFTXTRecords domain records !! name = Some content ->
  (name = domain /\ HasPrefix content "v=spf1" = true \/
   name <> domain /\ HasPrefix name "spf" = true) /\
  exists record,
    In record records /\ Type_ record = "TXT" /\
    TrimSuffix (Name record) "." = name /\ Content record = content.
Proof.
  unfold existingSPFTXTRecords.
  enough (Hgen : forall done rest (m : gmap string string),
    (forall name content, m !! name = Some content ->
       (name = domain /\ HasPrefix content "v=spf1" = true \/
        name <> domain /\ HasPrefix name "spf" = true) /\
       exists record,
         In record done /\ Type_ record = "TXT" /\
         TrimSuffix (Name record) "." = name /\ Content record = content) ->
    forall name content,
      fold_left
        (fun m record =>
           if negb (String.eqb (Type_ record) "TXT") then m
           else
             let recordName := TrimSuffix (Name record) "." in
             if String.eqb recordName domain then
               if HasPrefix (Content record) "v=spf1"
               then <[recordName := Content record]> m
               else m
             else if HasPrefix recordName "spf"
                  then <[recordName := Content record]> m
                  else m)
        rest m !! name = Some content ->
      (name = domain /\ HasPrefix content "v=spf1" = true \/
       name <> domain /\ HasPrefix name "spf" = true) /\
      exists record,
        In record (done ++ rest) /\ Type_ record = "TXT" /\
        TrimSuffix (Name record) "." = name /\ Content record = content).
  { apply (Hgen [] records ∅). intros n c. now rewrite lookup_empty. }
  intros done rest. revert done.
  induction rest as [|r rest IH]; intros done m Hm n c.
  - cbn [fold_left]. rewrite app_nil_r. apply Hm.
  - cbn [fold_left].
    replace (done ++ r :: rest) with ((done ++ [r]) ++ rest)
      by now rewrite <- app_assoc.
    apply IH. clear n c. intros n c.
    assert (Hold : m !! n = Some c ->
      (n = domain /\ HasPrefix c "v=spf1" = true \/
       n <> domain /\ HasPrefix n "spf" = true) /\
      exists record,
        In record (done ++ [r]) /\ Type_ record = "TXT" /\
        TrimSuffix (Name record) "." = n /\ Content record = c).
    { intros Hn. destruct (Hm n c Hn) as [H1 (rec & Hin & H2)].
      split; [exact H1|]. exists rec. split; [|exact H2].
      apply in_or_app. now left. }
    assert (Hnew :
      Type_ r = "TXT" ->
      (TrimSuffix (Name r) "." = domain /\
         HasPrefix (Content r) "v=spf1" = true \/
       TrimSuffix (Name r) "." <> domain /\
         HasPrefix (TrimSuffix (Name r) ".") "spf" = true) ->
      <[TrimSuffix (Name r) "." := Content r]> m !! n = Some c ->
      (n = domain /\ HasPrefix c "v=spf1" = true \/
       n <> domain /\ HasPrefix n "spf" = true) /\
      exists record,
        In record (done ++ [r]) /\ Type_ record = "TXT" /\
        TrimSuffix (Name record) "." = n /\ Content record = c).
    { intros Ht Hcase. rewrite lookup_insert. case_decide as Hk.
      - intros [= <-]. subst n. split; [exact Hcase|].
        exists r. split; [apply in_or_app; right; now left|]. now repeat split.
      - exact Hold. }
    destruct (String.eqb_spec (Type_ r) "TXT") as [Ht|_]; cbn [negb];
      [|exact Hold].
    cbv zeta.
    destruct (String.eqb_spec (TrimSuffix (Name r) ".") domain) as [Hd|Hd].
    + destruct (HasPrefix (Content r) "v=spf1") eqn:Hc; [|exact Hold].
      apply (Hnew Ht). now left.
    + destruct (HasPrefix (TrimSuffix (Name r) ".") "spf") eqn:Hs; [|exact Hold].
      apply (Hnew Ht). now right.
Qed.

Lemma existingSPFTXTRecords_entries_witness :
  existingSPFTXTRecords "example.com"
    [mkRecord "1" "example.com" "TXT" "v=spf1 include:spf0.example.com ~all";
     mkRecord "2" "spf0.example.com." "TXT" "v=spf1 ip4:192.0.2.1 ~all"]
    !! "spf0.example.com"
  = Some "v=spf1 ip4:192.0.2.1 ~all" /\
  ("spf0.example.com" = "example.com" /\
     HasPrefix "v=spf1 ip4:192.0.2.1 ~all" "v=spf1" = true \/
   "spf0.example.com" <> "example.com" /\
     HasPrefix "spf0.example.com" "spf" = true) /\
  exists record,
    In record
      [mkRecord "1" "example.com" "TXT" "v=spf1 include:spf0.example.com ~all";
       mkRecord "2" "spf0.example.com." "TXT" "v=spf1 ip4:192.0.2.1 ~all"] /\
    Type_ record = "TXT" /\
    TrimSuffix (Name record) "." = "spf0.example.com" /\
    Content record = "v=spf1 ip4:192.0.2.1 ~all".
Proof.
  split; [vm_compute; reflexivity|].
  apply (existingSPFTXTRecords_entries "example.com"
    [mkRecord "1" "example.com" "TXT" "v=spf1 include:spf0.example.com ~all";
     mkRecord "2" "spf0.example.com." "TXT" "v=spf1 ip4:192.0.2.1 ~all"]).
  vm_compute. reflexivity.
Defined.

Lemma upsertRecord_delete_shared domain ttl records entry recordID :
  In (DeleteRecord recordID) (upsertRecord domain ttl records entry) ->
  exists other,
    In other records /\ ID other = recordID /\
    TrimSuffix (Name other) "." <> fst entry.
Proof.
  destruct entry as [name content]. unfold upsertRecord, hostnameOfID.
  destruct (String.eqb_spec (findExistingID records name) EmptyString)
    as [|Hfound]; cbn [negb]; [simpl; intros [Hd|[]]; discriminate|].
  destruct (List.find (fun rec => String.eqb (ID rec)
                                            (findExistingID records name))
                      records) as [other|] eqn:E.
  - apply List.find_some in E as [Hin Hid]. apply String.eqb_eq in Hid.
    destruct (String.eqb_spec (TrimSuffix (Name other) ".") name) as [|Hne];
      simpl; intros Hd;
      repeat (destruct Hd as [Hd|Hd]; try discriminate); try contradiction.
    injection Hd as <-. now exists other.
  - destruct (String.eqb_spec EmptyString name) as [|Hne];
      simpl; intros Hd;
      repeat (destruct Hd as [Hd|Hd]; try discriminate); try contradiction.
    injection Hd as <-.
    unfold findExistingID in E, Hfound.
    destruct (List.find (fun rec => String.eqb (TrimSuffix (Name rec) ".") name
                                    && String.eqb (Type_ rec) "TXT") records)
      as [rec|] eqn:Er; [|congruence].
    apply List.find_some in Er as [Hin _].
    apply (List.find_none _ _ E) in Hin. now rewrite String.eqb_refl in Hin.
Qed.

(** Every [DeleteRecord] call of the production branch is made in the
    create/update loop, with the ID of a TXT record of the provider's
    answer that carries the name of a desired record, and only when a
    record of the answer with the same ID carries another name: the
    stale-record loop deletes nothing. *)
Theorem applyChanges_deletes_only_desired (fuel : nat) (spfUnflat : bool)
    (domain : string) (ttl : Z) (records : list Record)
    (chainedRecords : gmap string string) (names : list string)
    (entries : list (string * string)) (recordID : string) :
  In (DeleteRecord recordID)
     (fst (applyChanges fuel spfUnflat domain ttl records chainedRecords
                        names entries)) ->
  exists rec content other,
    In (TrimSuffix (Name rec) ".", content) entries /\
    In rec records /\ ID rec = recordID /\ Type_ rec = "TXT" /\
    In other records /\ ID other = recordID /\
    TrimSuffix (Name other) "." <> TrimSuffix (Name rec) ".".
Proof.
  unfold applyChanges.
  pose proof (deleteStaleRecords_nothing fuel spfUnflat domain records
                chainedRecords names) as Hnone.
  destruct (deleteStaleRecords _ _ _ _ _ _) as [calls ended].
  cbn [fst] in Hnone. subst calls. destruct ended; [|now intros []].
  cbn [fst app]. rewrite in_flat_map. intros ([name content] & Hentry & Hdel).
  pose proof (upsertRecord_delete_shared _ _ _ _ _ Hdel)
    as (other & Hino & Hido & Hneo).
  apply upsertRecord_delete in Hdel as (rec & Hin & Hid & Hnm & Hty).
  cbn [fst] in Hnm, Hneo. exists rec, content, other.
  rewrite Hnm. now repeat split.
Qed.

Lemma applyChanges_deletes_only_desired_witness :
  In (DeleteRecord "7")
     (fst (applyChanges 10 false "example.com" 600
             [mkRecord "7" "old.example.com" "A" "192.0.2.1";
              mkRecord "7" "example.com." "TXT" "v=spf1 -all"]
             {[ "example.com" := "v=spf1 ip4:192.0.2.1 ~all" ]}
             ["example.com"]
             [("example.com", "v=spf1 ip4:192.0.2.1 ~all")])) /\
  exists rec content other,
    In (TrimSuffix (Name rec) ".", content)
       [("example.com", "v=spf1 ip4:192.0.2.1 ~all")] /\
    In rec [mkRecord "7" "old.example.com" "A" "192.0.2.1";
            mkRecord "7" "example.com." "TXT" "v=spf1 -all"] /\
    ID rec = "7" /\ Type_ rec = "TXT" /\
    In other [mkRecord "7" "old.example.com" "A" "192.0.2.1";
              mkRecord "7" "example.com." "TXT" "v=spf1 -all"] /\
    ID other = "7" /\
    TrimSuffix (Name other) "." <> TrimSuffix (Name rec) ".".
Proof.
  split; [vm_compute; now left|].
  apply (applyChanges_deletes_only_desired 10 false "example.com" 600
           [mkRecord "7" "old.example.com" "A" "192.0.2.1";
            mkRecord "7" "example.com." "TXT" "v=spf1 -all"]
           {[ "example.com" := "v=spf1 ip4:192.0.2.1 ~all" ]}
           ["example.com"]
           [("example.com", "v=spf1 ip4:192.0.2.1 ~all")] "7").
  vm_compute. now left.
Defined.

Lemma NoDup_map_eq {A B} (f : A -> B) (l : list A) a b :
  List.NoDup (map f l) -> In a l -> In b l -> f a = f b -> a = b.
Proof.
  induction l as [|x l IH]; [contradiction|]. cbn [map].
  intros Hnd Ha Hb Hf. apply List.NoDup_cons_iff in Hnd as [Hx Hnd].
  destruct Ha as [->|Ha], Hb as [->|Hb].
  - reflexivity.
  - exfalso. apply Hx. rewrite Hf. now apply in_map.
  - exfalso. apply Hx. rewrite <- Hf. now apply in_map.
  - now apply IH.
Qed.

Lemma upsertRecord_unique_ids domain ttl records entry recordID :
  List.NoDup (map ID records) ->
  ~ In (DeleteRecord recordID) (upsertRecord domain ttl records entry).
Proof.
  intros Hnd. destruct entry as [name content].
  unfold upsertRecord, findExistingID, hostnameOfID.
  destruct (List.find _ records) as [rec|] eqn:E.
  2:{ simpl. intros [Hd|[]]. discriminate. }
  destruct (String.eqb (ID rec) EmptyString); simpl.
  { intros [Hd|[]]. discriminate. }
  apply List.find_some in E as [Hin Hrec].
  apply andb_prop in Hrec as [Hname _]. apply String.eqb_eq in Hname.
  destruct (List.find (fun rec0 => String.eqb (ID rec0) (ID rec)) records)
    as [rec'|] eqn:E'.
  - apply List.find_some in E' as [Hin' Hid']. apply String.eqb_eq in Hid'.
    rewrite (NoDup_map_eq ID records rec' rec Hnd Hin' Hin Hid'), Hname.
    rewrite String.eqb_refl. intros [Hd|[]]. discriminate.
  - exfalso. apply (List.find_none _ _ E' rec) in Hin.
    now rewrite String.eqb_refl in Hin.
Qed.

(** When the records of the provider's answer have distinct IDs, the
    production branch of the command makes no [DeleteRecord] call at all:
    it only creates and updates. *)
Theorem applyChanges_never_deletes (fuel : nat) (spfUnflat : bool)
    (domain : string) (ttl : Z) (records : list Record)
    (chainedRecords : gmap string string) (names : list string)
    (entries : list (string * string)) (recordID : string) :
  List.NoDup (map ID records) ->
  ~ In (DeleteRecord recordID)
       (fst (applyChanges fuel spfUnflat domain ttl records chainedRecords
                          names entries)).
Proof.
  intros Hnd. unfold applyChanges.
  pose proof (deleteStaleRecords_nothing fuel spfUnflat domain records
                chainedRecords names) as Hnone.
  destruct (deleteStaleRecords _ _ _ _ _ _) as [calls ended].
  cbn [fst] in Hnone. subst calls. destruct ended; [|now intros []].
  cbn [fst app]. rewrite in_flat_map. intros (entry & _ & Hdel).
  now apply (upsertRecord_unique_ids domain ttl records entry recordID Hnd).
Qed.

Lemma applyChanges_never_deletes_witness :
  List.NoDup (map ID [mkRecord "1" "example.com" "TXT" "v=spf1 -all";
                 mkRecord "2" "spf7.example.com" "TXT" "v=spf1 -all"]) /\
  ~ In (DeleteRecord "2")
       (fst (applyChanges 10 false "example.com" 600
               [mkRecord "1" "example.com" "TXT" "v=spf1 -all";
                mkRecord "2" "spf7.example.com" "TXT" "v=spf1 -all"]
               {[ "example.com" := "v=spf1 ip4:192.0.2.1 ~all" ]}
               ["example.com"; "spf7.example.com"]
               [("example.com", "v=spf1 ip4:192.0.2.1 ~all")])).
Proof.
  assert (Hnd : List.NoDup (map ID
                  [mkRecord "1" "example.com" "TXT" "v=spf1 -all";
                   mkRecord "2" "spf7.example.com" "TXT" "v=spf1 -all"])).
  { simpl. repeat constructor; simpl; intuition discriminate. }
  split; [exact Hnd|].
  apply (applyChanges_never_deletes 10 false "example.com" 600
           [mkRecord "1" "example.com" "TXT" "v=spf1 -all";
            mkRecord "2" "spf7.example.com" "TXT" "v=spf1 -all"]
           {[ "example.com" := "v=spf1 ip4:192.0.2.1 ~all" ]}
           ["example.com"; "spf7.example.com"]
           [("example.com", "v=spf1 ip4:192.0.2.1 ~all")] "2" Hnd).
Defined.

Lemma applyChanges_spares_unflat_witness :
  SplitAndChainSPF "v=spf1 ip4:192.0.2.1 ~all" "example.com"
  = Ret {[ "example.com" := "v=spf1 ip4:192.0.2.1 ~all" ]} /\
  TrimSuffix (Name (mkRecord "9" "spf-unflat.example.com." "TXT"
                             "v=spf1 include:_spf.google.com ~all")) "."
  = "spf-unflat." +:+ "example.com" /\
  ~ In (DeleteRecord "9")
       (fst (applyChanges 10 true "example.com" 600
               [mkRecord "1" "example.com" "TXT" "v=spf1 -all";
                mkRecord "9" "spf-unflat.example.com." "TXT"
                         "v=spf1 include:_spf.google.com ~all"]
               {[ "example.com" := "v=spf1 ip4:192.0.2.1 ~all" ]}
               ["example.com"; "spf-unflat.example.com"]
               [("example.com", "v=spf1 ip4:192.0.2.1 ~all")])).
Proof.
  split; [reflexivity|]. split; [reflexivity|].
  apply (applyChanges_spares_unflat 10 true "example.com" 600
           "v=spf1 ip4:192.0.2.1 ~all"
           [mkRecord "1" "example.com" "TXT" "v=spf1 -all";
            mkRecord "9" "spf-unflat.example.com." "TXT"
                     "v=spf1 include:_spf.google.com ~all"]
           {[ "example.com" := "v=spf1 ip4:192.0.2.1 ~all" ]}
           ["example.com"; "spf-unflat.example.com"]
           [("example.com", "v=spf1 ip4:192.0.2.1 ~all")]
           (mkRecord "9" "spf-unflat.example.com." "TXT"
                     "v=spf1 include:_spf.google.com ~all")).
  - reflexivity.
  - intros name content [[= <- <-]|[]]. reflexivity.
  - reflexivity.
  - intros other [<-|[<-|[]]]; [discriminate|reflexivity].
Defined.

(** ** What [CountDNSLookups] counts *)

Lemma totalLookups_visit d c :
  totalLookups (fst (visit d c)) = (totalLookups c + 1)%Z.
Proof.
  unfold totalLookups, visit, modify. cbn [fst visited].
  assert (Hcomm : forall (m : gmap string Z) (j1 j2 : string) (z1 z2 y : Z),
            j1 <> j2 -> m !! j1 = Some z1 -> m !! j2 = Some z2 ->
            (y + z2 + z1 = y + z1 + z2)%Z) by (intros; lia).
  destruct (visited c !! d) as [v|] eqn:E; cbn [default].
  - rewrite (map_fold_delete_L _ _ d v (visited c) (Hcomm _) E).
    rewrite <- (insert_delete_eq (visited c)).
    rewrite map_fold_insert_L; [cbv beta; unfold id; lia|apply Hcomm|apply lookup_delete_eq].
  - rewrite map_fold_insert_L; [cbv beta; lia|apply Hcomm|exact E].
Qed.

Section ForEachSum.

Context {S A : Type}.
Variable I : S -> Prop.
Variable mu : S -> Z.
Variable body : A -> stateErr S unit.
Variable f : A -> option Z.

(** A loop whose bodies add [f x] to the measure [mu], or fail when
    [f x] is [None], adds the sum, or fails. *)
Lemma forEach_sum l :
  (forall x s, In x l -> I s ->
     match f x with
     | Some n => snd (body x s) = Ok tt /\ I (fst (body x s)) /\
                 mu (fst (body x s)) = (mu s + n)%Z
     | None => exists e, snd (body x s) = Err e
     end) ->
  forall s, I s ->
    match sumOpt f l with
    | Some n => snd (forEach l body s) = Ok tt /\ I (fst (forEach l body s)) /\
                mu (fst (forEach l body s)) = (mu s + n)%Z
    | None => exists e, snd (forEach l body s) = Err e
    end.
Proof.
  induction l as [|x l IH]; intros Hb s Hs.
  - simpl. repeat split; [exact Hs|lia].
  - cbn [sumOpt fold_right]. fold (sumOpt f l). rewrite forEach_cons.
    pose proof (Hb x s (or_introl eq_refl) Hs) as Hx.
    assert (Hl : forall y s0, In y l -> I s0 ->
              match f y with
              | Some n => snd (body y s0) = Ok tt /\ I (fst (body y s0)) /\
                          mu (fst (body y s0)) = (mu s0 + n)%Z
              | None => exists e, snd (body y s0) = Err e
              end) by (intros y s0 Hy; apply Hb; now right).
    destruct (f x) as [a|].
    + destruct (body x s) as [s1 r]. cbn [fst snd] in Hx.
      destruct Hx as (-> & Hs1 & Hmu). specialize (IH Hl s1 Hs1).
      destruct (sumOpt f l) as [b|].
      * destruct IH as (H1 & H2 & H3). repeat split; [exact H1|exact H2|lia].
      * exact IH.
    + destruct (body x s) as [s1 r]. cbn [snd] in Hx. destruct Hx as [e ->].
      now exists e.
Qed.

End ForEachSum.

Section CountSum.

Variable dns : DNSProvider.

Lemma countMechanisms_counts levels :
  forall rec d c,
    counterInv dns c ->
    match lookupsOf dns levels rec with
    | Some n =>
        snd (countMechanisms dns levels rec d c) = Ok tt /\
        counterInv dns (fst (countMechanisms dns levels rec d c)) /\
        totalLookups (fst (countMechanisms dns levels rec d c))
        = (totalLookups c + n)%Z
    | None => exists e, snd (countMechanisms dns levels rec d c) = Err e
    end.
Proof.
  induction levels as [|levels IH]; intros rec d c Hc.
  - simpl. now eexists.
  - cbn [lookupsOf countMechanisms].
    apply (forEach_sum (counterInv dns) totalLookups); [|exact Hc].
    intros part s _ Hs. unfold countPart.
    destruct (HasPrefix part "include:").
    + unfold bind.
      pose proof (totalLookups_visit (TrimPrefix part "include:") s) as Hv.
      destruct (visit (TrimPrefix part "include:") s) as [s1 r1] eqn:Ev.
      assert (Hr1 : r1 = Ok tt) by (unfold visit, modify in Ev; congruence).
      assert (Hs1 : counterInv dns s1).
      { unfold visit, modify in Ev. injection Ev as <- _. exact Hs. }
      subst r1. cbn [fst] in Hv.
      destruct (counterLookupTXT dns (TrimPrefix part "include:") s1)
        as [s2 r2] eqn:El.
      assert (Hl : counterInv dns s2 /\ totalLookups s2 = totalLookups s1 /\
                   match r2 with
                   | Ok recs => LookupTXT dns (TrimPrefix part "include:") = Ok recs
                   | Err _ => exists e, LookupTXT dns (TrimPrefix part "include:") = Err e
                   end).
      { unfold counterLookupTXT in El.
        destruct (counterCache s1 !! TrimPrefix part "include:") as [cached|] eqn:Ec.
        - injection El as <- <-.
          split; [exact Hs1|]. split; [reflexivity|]. now apply Hs1.
        - destruct (LookupTXT dns (TrimPrefix part "include:")) as [recs|e] eqn:E;
            injection El as <- <-.
          + split; [|split; reflexivity].
            unfold counterInv. cbn [counterCache].
            intros d' recs'. rewrite lookup_insert. case_decide.
            * intros [= <-]. now subst.
            * apply Hs1.
          + split; [exact Hs1|]. split; [reflexivity|]. now exists e. }
      destruct Hl as (Hs2 & Ht2 & Hr2).
      destruct r2 as [recs|e].
      * rewrite Hr2.
        pose proof (forEach_sum (counterInv dns) totalLookups
                      (fun r => if HasPrefix r "v=spf1"
                                then countMechanisms dns levels r
                                       (TrimPrefix part "include:")
                                else ret tt)
                      (fun r => if HasPrefix r "v=spf1"
                                then lookupsOf dns levels r else Some 0%Z)
                      recs) as Hloop.
        specialize (Hloop
          (fun r s0 _ Hs0 =>
             match HasPrefix r "v=spf1" as b
             return match (if b then lookupsOf dns levels r else Some 0%Z) with
                    | Some n =>
                        snd ((if b then countMechanisms dns levels r
                                          (TrimPrefix part "include:")
                              else ret tt) s0) = Ok tt /\
                        counterInv dns
                          (fst ((if b then countMechanisms dns levels r
                                            (TrimPrefix part "include:")
                                 else ret tt) s0)) /\
                        totalLookups
                          (fst ((if b then countMechanisms dns levels r
                                            (TrimPrefix part "include:")
                                 else ret tt) s0))
                        = (totalLookups s0 + n)%Z
                    | None =>
                        exists e,
                          snd ((if b then countMechanisms dns levels r
                                            (TrimPrefix part "include:")
                                else ret tt) s0) = Err e
                    end
             with
             | true => IH r (TrimPrefix part "include:") s0 Hs0
             | false => conj eq_refl (conj Hs0 (eq_sym (Z.add_0_r _)))
             end)
          s2 Hs2).
        destruct (sumOpt _ recs) as [n|]; cbn [option_map].
        -- destruct Hloop as (H1 & H2 & H3). repeat split; [exact H1|exact H2|].
           rewrite H3, Ht2, Hv. lia.
        -- exact Hloop.
      * destruct Hr2 as [e' ->]. now exists e.
    + assert (Hvisit : forall d0,
                snd (visit d0 s) = Ok tt /\ counterInv dns (fst (visit d0 s)) /\
                totalLookups (fst (visit d0 s)) = (totalLookups s + 1)%Z).
      { intros d0. repeat split; [exact Hs|apply totalLookups_visit]. }
      destruct (HasPrefix part "a"); [apply Hvisit|].
      destruct (HasPrefix part "mx"); [apply Hvisit|].
      repeat split; [exact Hs|simpl; lia].
Qed.

End CountSum.

(** [CountDNSLookups] returns one for the TXT fetch of the domain, plus
    one for every field that begins with [include:], [a] or [mx] met in
    the expansion of the record, counted each time it is met (the TXT
    cache and the per-domain counters do not merge repeated targets); it
    returns an error exactly when the expansion fails. *)
Theorem CountDNSLookups_counts (dns : DNSProvider) (domain : string)
    (records : list string) :
  LookupTXT dns domain = Ok records ->
  firstSPF records <> EmptyString ->
  match lookupsOf dns maxLevels (firstSPF records) with
  | Some n => CountDNSLookups dns domain = ((1 + n)%Z, None)
  | None => exists e, CountDNSLookups dns domain = (0%Z, Some e)
  end.
Proof.
  intros Hlook Hspf. unfold CountDNSLookups. rewrite Hlook.
  destruct (String.eqb_spec (firstSPF records) EmptyString) as [E|_];
    [contradiction|].
  pose proof (countMechanisms_counts dns maxLevels (firstSPF records) domain
                (mkLookupCounter {[ domain := 1%Z ]} ∅)) as Hc.
  assert (Hinv : counterInv dns (mkLookupCounter {[ domain := 1%Z ]} ∅)).
  { intros d recs. cbn [counterCache]. now rewrite lookup_empty. }
  specialize (Hc Hinv).
  destruct (lookupsOf dns maxLevels (firstSPF records)) as [n|].
  - destruct Hc as (H1 & _ & H3).
    destruct (countMechanisms dns maxLevels (firstSPF records) domain _)
      as [c r]. cbn [fst snd] in *. subst r. f_equal.
    unfold totalLookups in H3. rewrite H3. cbn [visited].
    rewrite map_fold_singleton. lia.
  - destruct Hc as [e He].
    destruct (countMechanisms dns maxLevels (firstSPF records) domain _)
      as [c r]. cbn [snd] in He. subst r. now exists e.
Qed.

Lemma CountDNSLookups_counts_witness :
  LookupTXT gateDNS "example.com" = Ok ["v=spf1 include:_spf.google.com ~all"] /\
  firstSPF ["v=spf1 include:_spf.google.com ~all"] <> EmptyString /\
  CountDNSLookups gateDNS "example.com" = (2%Z, None).
Proof.
  split; [reflexivity|]. split; [discriminate|].
  apply (CountDNSLookups_counts gateDNS "example.com"
           ["v=spf1 include:_spf.google.com ~all"]);
    [reflexivity|discriminate].
Defined.

(** ** What [FlattenSPF] returns *)

Section ForEachMono.

Context {S A : Type}.
Variable P : S -> Prop.
Variable R : S -> S -> Prop.
Variable body : A -> stateErr S unit.
Hypothesis R_refl : forall s, R s s.
Hypothesis R_trans : forall s1 s2 s3, R s1 s2 -> R s2 s3 -> R s1 s3.

Lemma forEach_mono l :
  (forall x s, In x l -> R s (fst (body x s))) ->
  forall s, R s (fst (forEach l body s)).
Proof.
  induction l as [|x l IH]; intros Hb s; [apply R_refl|].
  rewrite forEach_cons.
  pose proof (Hb x s (or_introl eq_refl)) as Hx.
  destruct (body x s) as [s1 [u|e]]; [|exact Hx].
  apply (R_trans _ s1); [exact Hx|].
  apply IH. intros y s2 Hy. apply Hb. now right.
Qed.

Lemma forEach_Ok_elim_mono l :
  (forall x s, In x l -> P s -> P (fst (body x s))) ->
  (forall x s, In x l -> R s (fst (body x s))) ->
  forall s s', P s -> forEach l body s = (s', Ok tt) ->
  forall x, In x l ->
    exists s0 s1, P s0 /\ body x s0 = (s1, Ok tt) /\ R s1 s'.
Proof.
  induction l as [|y l IH]; intros Hb Hm s s' Hs E x Hx; [contradiction|].
  rewrite forEach_cons in E.
  pose proof (Hb y s (or_introl eq_refl) Hs) as Hy.
  destruct (body y s) as [s1 [[]|e]] eqn:Ey; [|discriminate].
  assert (Hb' : forall z s2, In z l -> P s2 -> P (fst (body z s2)))
    by (intros z s2 Hz; apply Hb; now right).
  assert (Hm' : forall z s2, In z l -> R s2 (fst (body z s2)))
    by (intros z s2 Hz; apply Hm; now right).
  destruct Hx as [->|Hx].
  - exists s, s1. split; [exact Hs|]. split; [exact Ey|].
    replace s' with (fst (forEach l body s1)) by now rewrite E.
    now apply forEach_mono.
  - now apply (IH Hb' Hm' s1 s').
Qed.

End ForEachMono.

Lemma grows_refl f : grows f f.
Proof. unfold grows. set_solver. Qed.

Lemma grows_trans f1 f2 f3 : grows f1 f2 -> grows f2 f3 -> grows f1 f3.
Proof. unfold grows. set_solver. Qed.

Section FlattenKeeps.

Context `{NetCodec}.
Variable dns : DNSProvider.

Lemma sameControl_addMechanism_grows mech f :
  grows f (fst (addMechanism mech f)).
Proof. unfold grows, addMechanism, modify. cbn [fst flattenedIPs]. set_solver. Qed.

Lemma addIPs_grows ips f : grows f (fst (addIPs ips f)).
Proof.
  unfold addIPs. apply (forEach_mono grows); [exact grows_refl|exact grows_trans|].
  intros ip s _. destruct (To4 ip); apply sameControl_addMechanism_grows.
Qed.

Lemma processPart_grows recur d part f :
  (forall rec x f, grows f (fst (recur rec x f))) ->
  grows f (fst (processPart recur dns d part f)).
Proof.
  intros Hrec. unfold processPart.
  destruct (HasPrefix part "include:").
  - unfold bind, includeLookupTXT, cachedLookupTXT.
    destruct (dnsCache f !! TrimPrefix part "include:") as [cached|].
    + apply (forEach_mono grows); [exact grows_refl|exact grows_trans|].
      intros rec s _. destruct (HasPrefix rec "v=spf1");
        [apply Hrec|apply grows_refl].
    + destruct (LookupTXT dns (TrimPrefix part "include:")) as [recs|e];
        [|apply grows_refl].
      eapply grows_trans;
        [|apply (forEach_mono grows); [exact grows_refl|exact grows_trans|]].
      * unfold grows. cbn [flattenedIPs]. set_solver.
      * intros rec s _. destruct (HasPrefix rec "v=spf1");
          [apply Hrec|apply grows_refl].
  - destruct (HasPrefix part "ip4:" || HasPrefix part "ip6:");
      [apply sameControl_addMechanism_grows|].
    destruct (HasPrefix part "a").
    { destruct (LookupIP dns _); [apply addIPs_grows|apply grows_refl]. }
    destruct (HasPrefix part "mx"); [|apply grows_refl].
    destruct (LookupMX dns _) as [mxs|e]; [|apply grows_refl].
    apply (forEach_mono grows); [exact grows_refl|exact grows_trans|].
    intros mx s _. destruct (LookupIP dns (Host mx));
      [apply addIPs_grows|apply grows_refl].
Qed.

Lemma processMechanism_grows levels :
  forall rec d f, grows f (fst (processMechanism dns levels rec d f)).
Proof.
  induction levels as [|levels IH]; intros rec d f.
  - unfold grows. reflexivity.
  - rewrite processMechanism_S. case_bool_decide; [unfold grows; reflexivity|].
    pose proof (forEach_mono grows
                  (processPart (processMechanism dns levels) dns d)
                  grows_refl grows_trans (Fields rec)
                  (fun part s _ => processPart_grows _ d part s IH)
                  (pushDomain d f)) as Hg.
    destruct (forEach _ _ _) as [f' err]. exact Hg.
Qed.

(** A literal mechanism of the record, or of a record it includes, is in
    the set of collected mechanisms when the record has been processed
    without error. *)
Lemma processMechanism_literal rec m :
  literal dns rec m ->
  forall levels d stk f f',
    flatInv dns stk f ->
    processMechanism dns levels rec d f = (f', Ok tt) ->
    m ∈ flattenedIPs f'.
Proof.
  induction 1 as [rec m Hin Hip
                 |rec part recs rec' m Hpart Hinc Hlook Hrec' Hspf _ IH];
    intros [|levels] d stk f f' [Hc Hs]; try discriminate;
    rewrite processMechanism_S; (case_bool_decide as Hd; [discriminate|]);
    destruct (forEach _ _ _) as [f1 err] eqn:E; intros [= <- ->];
    assert (Hpush : flatInv dns ({[d]} ∪ stk) (pushDomain d f))
      by (split; [exact Hc|simpl; now rewrite Hs]).
  - destruct (forEach_Ok_elim_mono (flatInv dns ({[d]} ∪ stk)) grows
                (processPart (processMechanism dns levels) dns d)
                grows_refl grows_trans (Fields rec)
                (fun part s _ Hs' =>
                   processPart_inv dns _ _ d part s
                     (fun rec0 x f0 => processMechanism_inv dns levels _ rec0 x f0)
                     Hs')
                (fun part s _ =>
                   processPart_grows _ d part s (processMechanism_grows levels))
                _ _ Hpush E m Hin)
      as (s0 & s1 & _ & Epart & Hg).
    cbn [popDomain flattenedIPs]. apply Hg.
    unfold processPart in Epart.
    assert (Hni : HasPrefix m "include:" = false).
    { destruct m as [|c m]; [reflexivity|].
      change "include:" with (String "i" (String "n" "clude:")).
      rewrite HasPrefix_cons.
      apply orb_prop in Hip as [Hip|Hip];
        [change "ip4:" with (String "i" (String "p" "4:")) in Hip
        |change "ip6:" with (String "i" (String "p" "6:")) in Hip];
        rewrite HasPrefix_cons in Hip; apply andb_prop in Hip as [Hi Hip];
        rewrite Hi; cbn [andb];
        (destruct m as [|c' m]; [discriminate|]);
        rewrite HasPrefix_cons in Hip |- *;
        apply andb_prop in Hip as [Hp _];
        apply Ascii.eqb_eq in Hp; now subst c'. }
    rewrite Hni, Hip in Epart.
    unfold addMechanism, modify in Epart. injection Epart as <-.
    cbn [flattenedIPs]. set_solver.
  - destruct (forEach_Ok_elim_mono (flatInv dns ({[d]} ∪ stk)) grows
                (processPart (processMechanism dns levels) dns d)
                grows_refl grows_trans (Fields rec)
                (fun part s _ Hs' =>
                   processPart_inv dns _ _ d part s
                     (fun rec0 x f0 => processMechanism_inv dns levels _ rec0 x f0)
                     Hs')
                (fun part s _ =>
                   processPart_grows _ d part s (processMechanism_grows levels))
                _ _ Hpush E part Hpart)
      as (s0 & s1 & [Hc0 Hs0] & Epart & Hg).
    cbn [popDomain flattenedIPs]. apply Hg.
    unfold processPart in Epart. rewrite Hinc in Epart. unfold bind in Epart.
    destruct (includeLookupTXT dns _ s0) as [s2 r] eqn:El.
    destruct (includeLookupTXT_spec dns _ _ _ _ Hc0 El) as (Hc2 & Hs2 & _ & Hr).
    destruct r as [recs0|e]; [|discriminate].
    rewrite Hlook in Hr. injection Hr as <-.
    assert (Hinv2 : flatInv dns ({[d]} ∪ stk) s2)
      by (split; [exact Hc2|now rewrite Hs2]).
    destruct (forEach_Ok_elim_mono (flatInv dns ({[d]} ∪ stk)) grows
                (fun rec0 =>
                   if HasPrefix rec0 "v=spf1"
                   then processMechanism dns levels rec0 (TrimPrefix part "include:")
                   else ret tt)
                grows_refl grows_trans recs
                (fun rec0 s _ Hs' =>
                   match HasPrefix rec0 "v=spf1" as b
                   return flatInv dns _ (fst ((if b then _ else ret tt) s))
                   with
                   | true => processMechanism_inv dns levels _ rec0 _ s Hs'
                   | false => Hs'
                   end)
                (fun rec0 s _ =>
                   match HasPrefix rec0 "v=spf1" as b
                   return grows s (fst ((if b then _ else ret tt) s))
                   with
                   | true => processMechanism_grows levels rec0 _ s
                   | false => grows_refl s
                   end)
                _ _ Hinv2 Epart rec' Hrec')
      as (s3 & s4 & Hinv3 & Erec & Hg4).
    rewrite Hspf in Erec. apply Hg4.
    exact (IH levels _ _ s3 s4 Hinv3 Erec).
Qed.

End FlattenKeeps.

(** Flattening without aggregation loses no literal mechanism: when
    [FlattenSPF] returns without error, the flattened record is [v=spf1],
    a sorted list of distinct mechanisms, and [~all]; every [ip4:] or
    [ip6:] mechanism written in the record of the domain, or in a record
    reached from it through [include:], is in the list. *)
Theorem FlattenSPF_keeps_literals `{NetCodec} (dns : DNSProvider)
    (domain : string) (records : list string) (fuel : nat)
    (orig flat m : string) :
  LookupTXT dns domain = Ok records ->
  literal dns (firstSPF records) m ->
  FlattenSPF fuel domain dns false = Ret (orig, flat, None) ->
  exists l,
    flat = "v=spf1 " +:+ Join l " " +:+ " ~all" /\
    In m l /\ Sorted lebS l /\ List.NoDup l.
Proof.
  intros Hlook Hlit. unfold FlattenSPF, cachedLookupTXT.
  cbn [newFlattener dnsCache]. rewrite lookup_empty, Hlook.
  destruct (String.eqb (firstSPF records) EmptyString); [discriminate|].
  destruct (processMechanism dns maxLevels (firstSPF records) domain _)
    as [f r] eqn:E.
  destruct (recursionErr f); [discriminate|].
  destruct r as [[]|e]; [|discriminate].
  assert (Hm : m ∈ flattenedIPs f).
  { refine (processMechanism_literal dns _ _ Hlit maxLevels domain ∅ _ f _ E).
    split; [|reflexivity]. simpl. apply cacheOK_insert; [|exact Hlook].
    intros d recs. now rewrite lookup_empty. }
  assert (Hin : In m (elements (flattenedIPs f))).
  { apply list_elem_of_In, elem_of_elements, Hm. }
  destruct (elements (flattenedIPs f)) as [|x l] eqn:El; [contradiction|].
  cbn [length Nat.eqb]. rewrite bind_Ret. intros [= _ <-].
  exists (sortStrings (x :: l)). split; [reflexivity|].
  split; [now apply sortStrings_In|].
  split; [apply sortStrings_sorted|].
  apply (Permutation_NoDup (Permutation_sym (sortStrings_perm (x :: l)))).
  rewrite <- El. apply NoDup_ListNoDup, NoDup_elements.
Qed.

Lemma FlattenSPF_keeps_literals_witness :
  LookupTXT gateDNS "example.com" = Ok ["v=spf1 include:_spf.google.com ~all"] /\
  literal gateDNS (firstSPF ["v=spf1 include:_spf.google.com ~all"])
          "ip4:74.125.0.0/16" /\
  @FlattenSPF dottedQuadCodec 0 "example.com" gateDNS false
  = Ret ("v=spf1 include:_spf.google.com ~all",
         "v=spf1 ip4:74.125.0.0/16 ~all", None) /\
  exists l,
    "v=spf1 ip4:74.125.0.0/16 ~all" = "v=spf1 " +:+ Join l " " +:+ " ~all" /\
    In "ip4:74.125.0.0/16" l /\ Sorted lebS l /\ List.NoDup l.
Proof.
  assert (Hlit : literal gateDNS
                   (firstSPF ["v=spf1 include:_spf.google.com ~all"])
                   "ip4:74.125.0.0/16").
  { eapply (literal_step gateDNS _ "include:_spf.google.com");
      [right; left; reflexivity|reflexivity|vm_compute; reflexivity
      |left; reflexivity|reflexivity|].
    apply literal_here; [right; left; reflexivity|reflexivity]. }
  split; [reflexivity|]. split; [exact Hlit|].
  split; [vm_compute; reflexivity|].
  apply (FlattenSPF_keeps_literals (H := dottedQuadCodec) gateDNS "example.com"
           ["v=spf1 include:_spf.google.com ~all"] 0
           "v=spf1 include:_spf.google.com ~all"
           "v=spf1 ip4:74.125.0.0/16 ~all" "ip4:74.125.0.0/16");
    [reflexivity|exact Hlit|vm_compute; reflexivity].
Defined.

Lemma firstSPF_prefix records :
  firstSPF records <> EmptyString -> HasPrefix (firstSPF records) "v=spf1" = true.
Proof.
  unfold firstSPF.
  destruct (List.find _ records) as [r|] eqn:E; [|congruence].
  intros _. now apply List.find_some in E as [_ Hr].
Qed.

(** When [FlattenSPF] returns without error, the original record it
    returns begins with [v=spf1], and the flattened record is either the
    original record, unchanged (no address was collected), or [v=spf1],
    a sorted list of mechanisms, and [~all]: whatever the qualifier of the
    original [all], a flattened record ends in [~all]. *)
Theorem FlattenSPF_shape `{NetCodec} (dns : DNSProvider) (domain : string)
    (fuel : nat) (aggregate : bool) (orig flat : string) :
  FlattenSPF fuel domain dns aggregate = Ret (orig, flat, None) ->
  HasPrefix orig "v=spf1" = true /\
  (flat = orig \/
   exists l, Sorted lebS l /\ flat = "v=spf1 " +:+ Join l " " +:+ " ~all").
Proof.
  unfold FlattenSPF.
  destruct (cachedLookupTXT dns domain newFlattener) as [f0 [records|e]];
    [|discriminate].
  destruct (String.eqb_spec (firstSPF records) EmptyString) as [|Hne];
    [discriminate|].
  destruct (processMechanism dns maxLevels (firstSPF records) domain f0)
    as [f r].
  destruct (recursionErr f); [discriminate|].
  destruct r as [[]|e]; [|discriminate].
  destruct (length (elements (flattenedIPs f)) =? 0)%nat.
  - intros [= <- <-]. split; [now apply firstSPF_prefix|now left].
  - destruct (if aggregate then _ else _) as [sorted| |]; try discriminate.
    rewrite bind_Ret. intros [= <- <-].
    split; [now apply firstSPF_prefix|right].
    exists (sortStrings sorted). split; [apply sortStrings_sorted|reflexivity].
Qed.

Lemma FlattenSPF_shape_witness :
  @FlattenSPF dottedQuadCodec 0 "example.com" gateDNS false
  = Ret ("v=spf1 include:_spf.google.com ~all",
         "v=spf1 ip4:74.125.0.0/16 ~all", None) /\
  HasPrefix "v=spf1 include:_spf.google.com ~all" "v=spf1" = true /\
  ("v=spf1 ip4:74.125.0.0/16 ~all" = "v=spf1 include:_spf.google.com ~all" \/
   exists l, Sorted lebS l /\
     "v=spf1 ip4:74.125.0.0/16 ~all" = "v=spf1 " +:+ Join l " " +:+ " ~all").
Proof.
  split; [vm_compute; reflexivity|].
  apply (FlattenSPF_shape (H := dottedQuadCodec) gateDNS "example.com" 0 false).
  vm_compute. reflexivity.
Defined.

(** ** The IPv4 aggregator away from the last address *)

Section AggregateExact.

Context `{NetCodec}.

Local Open Scope Z_scope.

Lemma alignLoop_spec start (n : nat) :
  forall fuel, (n < fuel)%nat ->
    exists j, 0 <= j <= Z.of_nat n /\
              alignLoop fuel start (2 ^ Z.of_nat n) = Ret (2 ^ j) /\
              start mod 2 ^ j = 0.
Proof.
  induction n as [|n IH]; intros [|fuel] Hfuel; try lia.
  - exists 0. split; [lia|]. cbn [alignLoop]. change (2 ^ Z.of_nat 0) with 1.
    change (1 =? 0) with false. cbv iota. rewrite Z.mod_1_r.
    change (0 =? 0) with true. cbn [negb]. split; [reflexivity|].
    change (2 ^ 0) with 1. apply Z.mod_1_r.
  - cbn [alignLoop].
    assert (Hpos : 0 < 2 ^ Z.of_nat (S n)) by (apply Z.pow_pos_nonneg; lia).
    destruct (Z.eqb_spec (2 ^ Z.of_nat (S n)) 0) as [E|_]; [lia|].
    destruct (Z.eqb_spec (start mod 2 ^ Z.of_nat (S n)) 0) as [E|E]; cbn [negb].
    + exists (Z.of_nat (S n)). split; [lia|]. now split.
    + replace (2 ^ Z.of_nat (S n) / 2) with (2 ^ Z.of_nat n).
      * destruct (IH fuel ltac:(lia)) as (j & Hj & E1 & E2).
        exists j. split; [lia|]. now split.
      * rewrite Nat2Z.inj_succ, Z.pow_succ_r by lia.
        rewrite Z.mul_comm, Z.div_mul by lia. reflexivity.
Qed.

Lemma covers_nil a : ~ covers [] a.
Proof. unfold covers. intros Hc. inversion Hc. Qed.

Lemma covers_cons b blocks a :
  covers (b :: blocks) a <-> inBlock a b \/ covers blocks a.
Proof. unfold covers. apply Exists_cons. Qed.

Lemma covers_app b1 b2 a : covers (b1 ++ b2) a <-> covers b1 a \/ covers b2 a.
Proof. unfold covers. apply Exists_app. Qed.

(** The loop of [rangeToExactCIDRs], for a range that ends before the
    last address and holds fewer than [2^31] addresses. *)
Lemma rangeLoop_exact (n : nat) :
  forall fuel start end_ cidrs,
    (33 <= fuel)%nat -> 0 <= start -> end_ < 2 ^ 32 - 1 ->
    end_ - start + 1 < 2 ^ 31 ->
    (Z.to_nat (end_ - start + 1) < n)%nat ->
    exists blocks,
      rangeLoop fuel n start end_ cidrs = Ret (cidrs ++ map cidrText blocks) /\
      Forall okBlock blocks /\
      forall a, covers blocks a <-> start <= a <= end_.
Proof.
  induction n as [|n IH]; intros fuel start end_ cidrs Hfuel Hs He Hr Hn; [lia|].
  rewrite rangeLoop_S. destruct (Z.leb_spec start end_) as [Hle|Hgt].
  2:{ exists []. split; [now rewrite app_nil_r|]. split; [constructor|].
      intros a. split; [intros Hc; now apply covers_nil in Hc|lia]. }
  set (r := end_ - start + 1) in *.
  assert (Hr1 : 0 < r < 2 ^ 31) by (unfold r; lia).
  assert (Hu : u32 r = r) by (unfold u32; apply Z.mod_small; lia).
  rewrite Hu, (largestPowerOfTwo_terminates fuel r Hr1 Hfuel), bind_Ret.
  pose proof (Z.log2_spec r (proj1 Hr1)) as Hlog.
  pose proof (Z.log2_nonneg r) as Hnn.
  assert (Hk : Z.log2 r <= 30).
  { apply Z.lt_succ_r, (Z.pow_lt_mono_r_iff 2); lia. }
  destruct (alignLoop_spec start (Z.to_nat (Z.log2 r)) fuel ltac:(lia))
    as (j & Hj & Ealign & Hmod).
  rewrite Z2Nat.id in Ealign, Hj by lia.
  rewrite Ealign, bind_Ret. cbv zeta.
  assert (Hpow : 0 < 2 ^ j <= r).
  { split; [apply Z.pow_pos_nonneg; lia|].
    transitivity (2 ^ Z.log2 r); [apply Z.pow_le_mono_r; lia|lia]. }
  assert (Hnext : u32 (start + 2 ^ j) = start + 2 ^ j).
  { unfold u32. apply Z.mod_small. unfold r in Hpow. lia. }
  rewrite Hnext.
  destruct (IH fuel (start + 2 ^ j) end_
              (cidrs ++ [cidrText (start, 2 ^ j)]) Hfuel ltac:(lia) He
              ltac:(lia) ltac:(unfold r in *; lia))
    as (blocks & Eloop & Hok & Hcov).
  exists ((start, 2 ^ j) :: blocks). split; [|split].
  - unfold cidrText in Eloop at 1. cbn [fst snd] in Eloop.
    rewrite Eloop, <- app_assoc. reflexivity.
  - constructor; [|exact Hok]. exists j. cbn [fst snd].
    unfold r in Hpow. repeat split; lia.
  - intros a. rewrite covers_cons, Hcov. unfold inBlock. cbn [fst snd].
    unfold r in Hpow. lia.
Qed.

Lemma rangeToExactCIDRs_exact fuel start end_ :
  0 <= start -> end_ < 2 ^ 32 - 1 -> end_ - start + 1 < 2 ^ 31 ->
  (33 <= fuel)%nat -> (Z.to_nat (end_ - start + 1) < fuel)%nat ->
  exists blocks,
    rangeToExactCIDRs fuel start end_ = Ret (map cidrText blocks) /\
    Forall okBlock blocks /\
    forall a, covers blocks a <-> start <= a <= end_.
Proof.
  intros Hs He Hr Hf Hn.
  apply (rangeLoop_exact fuel fuel start end_ [] Hf Hs He Hr Hn).
Qed.

Lemma insertZ_perm x l : Permutation (insertZ x l) (x :: l).
Proof.
  induction l as [|y l IH]; simpl; [reflexivity|].
  destruct (x <=? y); [reflexivity|]. rewrite IH. apply perm_swap.
Qed.

Lemma sortZ_perm l : Permutation (sortZ l) l.
Proof.
  induction l as [|x l IH]; simpl; [reflexivity|].
  rewrite insertZ_perm. now constructor.
Qed.

Lemma insertZ_sorted x l : Sorted Z.le l -> Sorted Z.le (insertZ x l).
Proof.
  induction 1 as [|y l Hl IH Hhd]; simpl.
  - repeat constructor.
  - destruct (Z.leb_spec x y) as [Hxy|Hxy].
    + constructor; [now constructor|]. now constructor.
    + constructor; [exact IH|].
      destruct l as [|z l']; simpl.
      * constructor. lia.
      * destruct (x <=? z); constructor; [lia|]. now inversion Hhd.
Qed.

Lemma sortZ_sorted l : Sorted Z.le (sortZ l).
Proof.
  induction l as [|x l IH]; simpl; [constructor|].
  now apply insertZ_sorted.
Qed.

Lemma sorted_strict l :
  StronglySorted Z.le l -> List.NoDup l -> StronglySorted Z.lt l.
Proof.
  induction 1 as [|x l Hl IH Hall]; intros Hnd; [constructor|].
  apply List.NoDup_cons_iff in Hnd as [Hx Hnd].
  constructor; [now apply IH|].
  rewrite List.Forall_forall in *. intros y Hy.
  specialize (Hall y Hy). assert (x <> y) by (intros ->; contradiction). lia.
Qed.

(** The runs of a strictly ascending list of addresses, none of them the
    last address. *)
Lemma mergeRuns_exact fuel (rest : list Z) :
  forall start end_,
    (33 <= fuel)%nat -> 0 <= start <= end_ ->
    StronglySorted Z.lt (end_ :: rest) ->
    Forall (fun x => x < 2 ^ 32 - 1) (end_ :: rest) ->
    end_ - start + 1 + Z.of_nat (length rest) < 2 ^ 31 ->
    (Z.to_nat (end_ - start + 1 + Z.of_nat (length rest)) < fuel)%nat ->
    exists blocks,
      mergeRuns fuel start end_ rest = Ret (map cidrText blocks) /\
      Forall okBlock blocks /\
      forall a, covers blocks a <-> start <= a <= end_ \/ In a rest.
Proof.
  induction rest as [|x rest IH]; intros start end_ Hf Hs Hsorted Hb Hlen Hfuel.
  - cbn [mergeRuns]. cbn [length] in *.
    inversion Hb as [|? ? He _]; subst.
    destruct (rangeToExactCIDRs_exact fuel start end_) as (blocks & E & Hok & Hc);
      try lia.
    exists blocks. split; [exact E|]. split; [exact Hok|].
    intros a. rewrite Hc. simpl. tauto.
  - cbn [mergeRuns]. cbn [length] in *.
    inversion Hsorted as [|? ? Hsorted' Hall]; subst.
    inversion Hall as [|? ? Hx Hall']; subst.
    inversion Hb as [|? ? He Hb']; subst.
    inversion Hb' as [|? ? Hxb _]; subst.
    assert (Hu : u32 (end_ + 1) = end_ + 1).
    { unfold u32. apply Z.mod_small. lia. }
    rewrite Hu. destruct (Z.eqb_spec x (end_ + 1)) as [->|Hne].
    + destruct (IH start (end_ + 1)) as (blocks & E & Hok & Hc);
        try assumption; try lia.
      exists blocks. split; [exact E|]. split; [exact Hok|].
      intros a. rewrite Hc. simpl. intuition lia.
    + destruct (rangeToExactCIDRs_exact fuel start end_)
        as (b1 & E1 & Hok1 & Hc1); try lia.
      destruct (IH x x) as (b2 & E2 & Hok2 & Hc2); try assumption; try lia.
      rewrite E1, bind_Ret, E2, bind_Ret.
      exists (b1 ++ b2). split; [now rewrite map_app|].
      split; [now apply Forall_app|].
      intros a. rewrite covers_app, Hc1, Hc2. simpl. intuition lia.
Qed.

Lemma lor_shift_add hi n lo :
  0 <= hi -> 0 <= n -> 0 <= lo < 2 ^ n ->
  Z.lor (hi * 2 ^ n) lo = hi * 2 ^ n + lo.
Proof.
  intros Hhi Hn Hlo. apply Z.bits_inj'. intros i Hi.
  rewrite Z.lor_spec. destruct (Z_lt_le_dec i n) as [Hlt|Hge].
  - rewrite Z.mul_pow2_bits_low by lia. cbn [orb].
    rewrite <- (Z.mod_pow2_bits_low (hi * 2 ^ n + lo) n i) by lia.
    rewrite Z.add_comm, Z.mod_add by lia. now rewrite Z.mod_small by lia.
  - rewrite Z.mul_pow2_bits by lia.
    replace (Z.testbit lo i) with false.
    2:{ symmetry. rewrite <- (Z.mod_small lo (2 ^ n)) by lia.
        apply Z.mod_pow2_bits_high. lia. }
    rewrite orb_false_r.
    replace i with ((i - n) + n) at 2 by lia.
    rewrite <- Z.div_pow2_bits by lia.
    rewrite Z.add_comm, Z.div_add by lia.
    now rewrite Z.div_small by lia.
Qed.

Lemma ipToUint32_value a b c d :
  0 <= a < 256 -> 0 <= b < 256 -> 0 <= c < 256 -> 0 <= d < 256 ->
  ipToUint32 [a; b; c; d] = a * 2 ^ 24 + b * 2 ^ 16 + c * 2 ^ 8 + d.
Proof.
  intros Ha Hb Hc Hd. unfold ipToUint32.
  change (To4 [a; b; c; d]) with (Some [a; b; c; d]). cbv iota.
  rewrite !Z.shiftl_mul_pow2 by lia.
  rewrite (lor_shift_add a 24 (b * 2 ^ 16)) by lia.
  replace (a * 2 ^ 24 + b * 2 ^ 16) with ((a * 2 ^ 8 + b) * 2 ^ 16) by lia.
  rewrite (lor_shift_add (a * 2 ^ 8 + b) 16 (c * 2 ^ 8)) by lia.
  replace ((a * 2 ^ 8 + b) * 2 ^ 16 + c * 2 ^ 8)
    with ((a * 2 ^ 16 + b * 2 ^ 8 + c) * 2 ^ 8) by lia.
  rewrite (lor_shift_add (a * 2 ^ 16 + b * 2 ^ 8 + c) 8 d) by lia.
  lia.
Qed.

Lemma uniqueIPs_spec (ips : list IP) :
  Forall isIPv4 ips ->
  forall (m : gset Z) a,
    a ∈ fold_left
          (fun (m : gset Z) ip =>
             match To4 ip with
             | Some ipv4 => {[ ipToUint32 ipv4 ]} ∪ m
             | None => m
             end)
          ips m
    <-> a ∈ m \/ exists ip, In ip ips /\ ipToUint32 ip = a.
Proof.
  induction 1 as [|ip ips Hip _ IH]; intros m a; cbn [fold_left].
  - split; [now left|]. intros [Ha|(ip & [] & _)]. exact Ha.
  - destruct Hip as (x & y & z & w & -> & _).
    change (To4 [x; y; z; w]) with (Some [x; y; z; w]). cbv iota.
    rewrite IH, elem_of_union, elem_of_singleton. split.
    + intros [[->|Ha]|(ip & Hin & E)].
      * right. exists [x; y; z; w]. split; [now left|reflexivity].
      * now left.
      * right. exists ip. split; [now right|exact E].
    + intros [Ha|(ip & [<-|Hin] & E)].
      * left. now right.
      * left. left. now symmetry.
      * right. now exists ip.
Qed.

End AggregateExact.

(** [aggregateIPv4] away from the last address: for four-byte addresses,
    none of them [255.255.255.255], it returns (with enough fuel) the
    mechanisms of a list of blocks, each a power of two in size and aligned
    on its size, and an address lies in one of the blocks exactly when it
    is one of the input addresses. *)
Lemma aggregateIPv4_blocks `{NetCodec} (fuel : nat) (ips : list IP) :
  Forall isIPv4 ips ->
  Forall (fun ip => ip <> [255; 255; 255; 255]%Z) ips ->
  (Z.of_nat (length ips) < 2 ^ 31)%Z ->
  (33 + length ips <= fuel)%nat ->
  exists blocks,
    aggregateIPv4 fuel ips = Ret (map cidrText blocks) /\
    Forall okBlock blocks /\
    forall a, covers blocks a <-> exists ip, In ip ips /\ ipToUint32 ip = a.
Proof.
  intros Hv4 Hlast Hlen Hfuel. unfold aggregateIPv4.
  destruct ips as [|ip0 ips0] eqn:Eips.
  { exists []. split; [reflexivity|]. split; [constructor|].
    intros a. split; [intros Hc; now apply covers_nil in Hc|].
    now intros (ip & [] & _). }
  rewrite <- Eips in *. replace (length ips =? 0)%nat with false
    by (now rewrite Eips). clear ip0 ips0 Eips.
  set (S := fold_left _ ips ∅).
  assert (HS : forall a, a ∈ S <-> exists ip, In ip ips /\ ipToUint32 ip = a).
  { intros a. unfold S. rewrite (uniqueIPs_spec ips Hv4 ∅ a).
    split; [intros [Ha|Ha]; [now apply not_elem_of_empty in Ha|exact Ha]
           |now right]. }
  assert (Hperm : Permutation (sortZ (elements S)) (elements S))
    by apply sortZ_perm.
  assert (Hin : forall a, In a (sortZ (elements S)) <->
                          exists ip, In ip ips /\ ipToUint32 ip = a).
  { intros a. rewrite <- HS, <- elem_of_elements, list_elem_of_In.
    split; apply Permutation_in; [exact Hperm|now symmetry]. }
  assert (Hnd : List.NoDup (sortZ (elements S))).
  { apply (Permutation_NoDup (Permutation_sym Hperm)).
    apply NoDup_ListNoDup, NoDup_elements. }
  assert (Hsorted : StronglySorted Z.lt (sortZ (elements S))).
  { apply sorted_strict; [|exact Hnd].
    apply Sorted_StronglySorted; [intros x y z; apply Z.le_trans|].
    apply sortZ_sorted. }
  assert (Hrange : Forall (fun x => 0 <= x < 2 ^ 32 - 1)%Z
                          (sortZ (elements S))).
  { apply List.Forall_forall. intros a Ha. apply Hin in Ha as (ip & Hip & <-).
    rewrite List.Forall_forall in Hv4, Hlast.
    destruct (Hv4 ip Hip) as (x & y & z & w & -> & Hx & Hy & Hz & Hw).
    rewrite ipToUint32_value by assumption.
    assert (Hne : [x; y; z; w] <> [255; 255; 255; 255]%Z) by now apply Hlast.
    split; [lia|].
    destruct (Z.eq_dec x 255%Z) as [->|]; [|lia].
    destruct (Z.eq_dec y 255%Z) as [->|]; [|lia].
    destruct (Z.eq_dec z 255%Z) as [->|]; [|lia].
    destruct (Z.eq_dec w 255%Z) as [->|]; [congruence|lia]. }
  assert (Hcount : (length (sortZ (elements S)) <= length ips)%nat).
  { transitivity (length (map ipToUint32 ips)); [|now rewrite length_map].
    apply List.NoDup_incl_length; [exact Hnd|].
    intros a Ha. apply Hin in Ha as (ip & Hip & <-). now apply in_map. }
  unfold mergeContiguousRanges.
  destruct (sortZ (elements S)) as [|x rest] eqn:Esorted.
  { exists []. split; [reflexivity|]. split; [constructor|].
    intros a. rewrite <- Hin. split; [intros Hc; now apply covers_nil in Hc|].
    intros []. }
  cbn [length] in Hcount.
  inversion Hrange as [|? ? Hx Hrest]; subst.
  destruct (mergeRuns_exact fuel rest x x) as (blocks & E & Hok & Hc);
    try lia; try assumption.
  - constructor; [lia|]. eapply List.Forall_impl; [|exact Hrest].
    intros a Ha. cbv beta in Ha. lia.
  - exists blocks. split; [exact E|]. split; [exact Hok|].
    intros a. rewrite Hc, <- Hin. simpl. intuition lia.
Qed.

Example aggregateIPv4_example :
  @aggregateIPv4 dottedQuadCodec 40
     [[192; 0; 2; 0]; [192; 0; 2; 1]; [192; 0; 2; 3]]%Z
  = Ret ["ip4:192.0.2.0/31"; "ip4:192.0.2.3"].
Proof. vm_compute. reflexivity. Qed.

(** ** Addresses as numbers *)

(** [uint32ToIP] and [ipToUint32] are inverse to each other: a 32-bit
    number is the number of the address made from it, and the address of
    four bytes [a.b.c.d] is made again from its number
    [a * 2^24 + b * 2^16 + c * 2^8 + d]. *)
Theorem ipToUint32_uint32ToIP (n a b c d : Z) :
  (0 <= n < 2 ^ 32)%Z ->
  (0 <= a < 256)%Z -> (0 <= b < 256)%Z -> (0 <= c < 256)%Z ->
  (0 <= d < 256)%Z ->
  ipToUint32 (uint32ToIP n) = n /\
  ipToUint32 [a; b; c; d] = (a * 2 ^ 24 + b * 2 ^ 16 + c * 2 ^ 8 + d)%Z /\
  uint32ToIP (ipToUint32 [a; b; c; d]) = IPv4 a b c d.
Proof.
  intros Hn Ha Hb Hc Hd.
  assert (Hvalue :
    ipToUint32 [a; b; c; d] = (a * 2 ^ 24 + b * 2 ^ 16 + c * 2 ^ 8 + d)%Z)
    by now apply ipToUint32_value.
  split; [|split; [exact Hvalue|]].
  - unfold uint32ToIP, ipToUint32.
    change (To4 (IPv4 ?w ?x ?y ?z)) with (Some [w; x; y; z]). cbv iota.
    rewrite !Z.shiftr_div_pow2 by lia.
    pose proof (ipToUint32_value ((n / 2 ^ 24) mod 256) ((n / 2 ^ 16) mod 256)
                  ((n / 2 ^ 8) mod 256) (n mod 256)) as Hv.
    unfold ipToUint32 in Hv.
    change (To4 [?w; ?x; ?y; ?z]) with (Some [w; x; y; z]) in Hv.
    cbv iota in Hv.
    rewrite Hv by (apply Z.mod_pos_bound; lia).
    change (2 ^ 24)%Z with (256 * 256 * 256)%Z.
    change (2 ^ 16)%Z with (256 * 256)%Z.
    change (2 ^ 8)%Z with 256%Z. change (2 ^ 32)%Z with 4294967296%Z in Hn.
    rewrite <- !Z.div_div by lia.
    pose proof (Z.div_mod n 256 ltac:(lia)) as E0.
    pose proof (Z.div_mod (n / 256) 256 ltac:(lia)) as E1.
    pose proof (Z.div_mod (n / 256 / 256) 256 ltac:(lia)) as E2.
    pose proof (Z.mod_pos_bound n 256 ltac:(lia)) as B0.
    pose proof (Z.mod_pos_bound (n / 256) 256 ltac:(lia)) as B1.
    pose proof (Z.mod_pos_bound (n / 256 / 256) 256 ltac:(lia)) as B2.
    assert (B3 : (0 <= n / 256 / 256 / 256 < 256)%Z).
    { rewrite !Z.div_div by lia. split; [apply Z.div_pos; lia|].
      apply Z.div_lt_upper_bound; lia. }
    rewrite (Z.mod_small (n / 256 / 256 / 256) 256) by exact B3.
    set (q1 := (n / 256)%Z) in *. set (q2 := (q1 / 256)%Z) in *.
    set (q3 := (q2 / 256)%Z) in *.
    set (r0 := (n mod 256)%Z) in *. set (r1 := (q1 mod 256)%Z) in *.
    set (r2 := (q2 mod 256)%Z) in *.
    lia.
  - rewrite Hvalue. unfold uint32ToIP.
    rewrite !Z.shiftr_div_pow2 by lia.
    change (2 ^ 24)%Z with 16777216%Z. change (2 ^ 16)%Z with 65536%Z.
    change (2 ^ 8)%Z with 256%Z.
    assert (E3 : ((a * 16777216 + b * 65536 + c * 256 + d) / 16777216 = a)%Z).
    { symmetry. apply (Z.div_unique _ _ a (b * 65536 + c * 256 + d)); lia. }
    assert (E2 : ((a * 16777216 + b * 65536 + c * 256 + d) / 65536
                  = a * 256 + b)%Z).
    { symmetry. apply (Z.div_unique _ _ (a * 256 + b) (c * 256 + d)); lia. }
    assert (E1 : ((a * 16777216 + b * 65536 + c * 256 + d) / 256
                  = a * 65536 + b * 256 + c)%Z).
    { symmetry. apply (Z.div_unique _ _ (a * 65536 + b * 256 + c) d); lia. }
    rewrite E3, E2, E1.
    rewrite (Z.mod_small a 256) by lia.
    replace ((a * 256 + b) mod 256)%Z with b
      by (apply (Z.mod_unique _ _ a b); lia).
    replace ((a * 65536 + b * 256 + c) mod 256)%Z with c
      by (apply (Z.mod_unique _ _ (a * 256 + b) c); lia).
    replace ((a * 16777216 + b * 65536 + c * 256 + d) mod 256)%Z with d
      by (apply (Z.mod_unique _ _ (a * 65536 + b * 256 + c) d); lia).
    reflexivity.
Qed.

Lemma ipToUint32_uint32ToIP_witness :
  (0 <= 3221225985 < 2 ^ 32)%Z /\
  ipToUint32 (uint32ToIP 3221225985) = 3221225985%Z /\
  ipToUint32 [192; 0; 2; 1]%Z
  = (192 * 2 ^ 24 + 0 * 2 ^ 16 + 2 * 2 ^ 8 + 1)%Z /\
  uint32ToIP (ipToUint32 [192; 0; 2; 1]%Z) = IPv4 192 0 2 1.
Proof.
  split; [lia|].
  apply (ipToUint32_uint32ToIP 3221225985 192 0 2 1); lia.
Defined.

(** [largestPowerOfTwoLessOrEqual] on a 32-bit value: it returns 1 for 0,
    the largest power of two that does not exceed the value when the value
    is below [2^31], and does not terminate from [2^31] on, where the
    power wraps to 0 before it exceeds the value. *)
Theorem largestPowerOfTwoLessOrEqual_spec (fuel : nat) (value : Z) :
  (0 <= value < 2 ^ 32)%Z -> (33 <= fuel)%nat ->
  largestPowerOfTwoLessOrEqual fuel value =
  if (value =? 0)%Z then Ret 1%Z
  else if (value <? 2 ^ 31)%Z then Ret (2 ^ Z.log2 value)%Z
       else OutOfFuel.
Proof.
  intros Hv Hfuel. destruct (Z.eqb_spec value 0) as [->|Hne]; [reflexivity|].
  destruct (Z.ltb_spec value (2 ^ 31)) as [Hlt|Hge].
  - apply largestPowerOfTwo_terminates; lia.
  - now apply largestPowerOfTwo_diverges.
Qed.

Lemma largestPowerOfTwoLessOrEqual_spec_witness :
  (0 <= 1000 < 2 ^ 32)%Z /\ (33 <= 40)%nat /\
  largestPowerOfTwoLessOrEqual 40 1000 = Ret 512%Z.
Proof.
  split; [lia|]. split; [lia|].
  apply (largestPowerOfTwoLessOrEqual_spec 40 1000); lia.
Defined.

(** ** The chain of records of [SplitAndChainSPF] *)

Lemma itoaFrom_value fuel :
  forall n rest acc,
    (n < fuel)%nat ->
    decimalValue acc (itoaFrom fuel n rest)
    = decimalValue (acc * 10 ^ digitCount fuel n + n) rest.
Proof.
  induction fuel as [|fuel IH]; intros n rest acc Hn; [lia|].
  cbn [itoaFrom digitCount]. destruct (Nat.ltb_spec n 10) as [Hlt|Hge].
  - cbn [decimalValue]. f_equal. unfold digitChar.
    rewrite Nat.mod_small by lia.
    rewrite nat_ascii_embedding by lia. simpl. lia.
  - assert (Hdiv : (n / 10 < fuel)%nat).
    { apply Nat.Div0.div_lt_upper_bound. lia. }
    rewrite IH by exact Hdiv. cbn [decimalValue]. f_equal. unfold digitChar.
    rewrite nat_ascii_embedding
      by (pose proof (Nat.mod_upper_bound n 10); lia).
    pose proof (Nat.div_mod_eq n 10) as Hdm.
    replace (48 + n mod 10 - 48)%nat with (n mod 10)%nat by lia.
    rewrite Nat.pow_succ_r'. nia.
Qed.

Lemma Itoa_value n : decimalValue 0 (Itoa n) = n.
Proof.
  unfold Itoa. rewrite itoaFrom_value by lia. simpl. lia.
Qed.

Lemma Itoa_inj i j : Itoa i = Itoa j -> i = j.
Proof.
  intros E. rewrite <- (Itoa_value i), <- (Itoa_value j). now rewrite E.
Qed.

Lemma append_inv_tail a :
  forall b c, a +:+ c = b +:+ c -> a = b.
Proof.
  induction a as [|x a IH]; intros [|y b] c E.
  - reflexivity.
  - exfalso. apply (f_equal len) in E. rewrite !len_app in E.
    unfold len in E. simpl in E. lia.
  - exfalso. apply (f_equal len) in E. rewrite !len_app in E.
    unfold len in E. simpl in E. lia.
  - simpl in E. injection E as -> E. f_equal. now apply (IH b c).
Qed.

Lemma spfName_inj domain i j : spfName domain i = spfName domain j -> i = j.
Proof.
  unfold spfName. intros E. simpl in E.
  injection E as E. apply Itoa_inj.
  now apply (append_inv_tail _ _ ("." +:+ domain)).
Qed.

Lemma spfName_not_domain domain i : spfName domain i <> domain.
Proof.
  unfold spfName. intros E. apply (f_equal len) in E.
  rewrite !len_app in E. change (len "spf") with 3%nat in E. lia.
Qed.

Lemma fold_chainStep_not_Ret domain n l acc :
  (forall m, acc <> Ret m) ->
  forall m, fold_left (chainStep domain n) l acc <> Ret m.
Proof.
  revert acc. induction l as [|ir l IH]; intros acc Hacc; [exact Hacc|].
  cbn [fold_left]. apply IH. intros m.
  destruct acc as [m0| |]; [now destruct (Hacc m0)|discriminate..].
Qed.

Lemma fold_chainStep_entries domain n (recs : list string) :
  forall s (acc m : gmap string string),
    fold_left (chainStep domain n) (combine (seq s (length recs)) recs)
              (Ret acc) = Ret m ->
    (forall i, (s <= i < s + length recs)%nat ->
       exists body, m !! spfName domain i
                    = Some (body +:+ chainLink domain n i)) /\
    (forall k, (forall i, (s <= i < s + length recs)%nat ->
                          k <> spfName domain i) ->
               m !! k = acc !! k).
Proof.
  induction recs as [|r recs IH]; intros s acc m E.
  - simpl in E. injection E as <-. split; [intros i Hi; simpl in Hi; lia|].
    reflexivity.
  - cbn [length seq combine fold_left] in E.
    destruct (chainStep domain n (Ret acc) (s, r)) as [acc'| |] eqn:Estep.
    2,3: exfalso; revert E; apply fold_chainStep_not_Ret; discriminate.
    destruct (IH (S s) acc' m E) as [Hent Hother].
    unfold chainStep in Estep. rewrite bind_Ret in Estep.
    fold (spfName domain s) in Estep. fold (chainLink domain n s) in Estep.
    destruct (maxSPFChars <? len (chainLink domain n s))%nat; [discriminate|].
    injection Estep as <-. split.
    + intros i Hi. cbn [length] in Hi.
      destruct (Nat.eq_dec i s) as [->|Hne].
      * rewrite Hother.
        -- rewrite lookup_insert_eq. now eexists.
        -- intros j Hj Ej. apply spfName_inj in Ej. lia.
      * apply Hent. lia.
    + intros k Hk. rewrite Hother.
      * apply lookup_insert_ne. intros Ek. apply (Hk s); [cbn [length]; lia|].
        now symmetry.
      * intros i Hi. apply Hk. cbn [length]. lia.
Qed.

(** The records [SplitAndChainSPF] emits for a record of more than 255
    bytes form one chain: the apex record is
    [v=spf1 include:spf0.<domain> ~all]; there are [n >= 1] continuation
    records [spf0] to [spf(n-1)]; each but the last ends with the
    [include:] of the next one and [~all], the last ends with [~all]; and
    the map holds no other name. *)
Theorem SplitAndChainSPF_chain (spfRecord domain : string)
    (m : gmap string string) :
  (maxSPFChars < len spfRecord)%nat ->
  SplitAndChainSPF spfRecord domain = Ret m ->
  m !! domain = Some ("v=spf1 include:spf0." +:+ domain +:+ " ~all") /\
  exists n,
    (1 <= n)%nat /\
    (forall i, (i < n)%nat ->
       exists body, m !! spfName domain i
                    = Some (body +:+ chainLink domain n i)) /\
    (forall k, is_Some (m !! k) ->
       k = domain \/ exists i, (i < n)%nat /\ k = spfName domain i).
Proof.
  intros Hlen. unfold SplitAndChainSPF.
  destruct (Nat.leb_spec (len spfRecord) maxSPFChars) as [Hle|_]; [lia|].
  destruct (Fields _) as [|p0 rest]; [discriminate|].
  set (st := fold_left _ (indexed rest) _).
  set (recs := records st ++ [currentRecord st]).
  destruct (fold_left (chainStep domain (length recs)) (indexed recs) (Ret ∅))
    as [m0| |] eqn:E; try discriminate.
  rewrite bind_Ret. intros [= <-].
  destruct (fold_chainStep_entries domain (length recs) recs 0 ∅ m0 E)
    as [Hent Hother].
  split; [apply lookup_insert_eq|].
  exists (length recs). split; [|split].
  - unfold recs. rewrite length_app. simpl. lia.
  - intros i Hi. rewrite lookup_insert_ne by (apply not_eq_sym, spfName_not_domain).
    apply Hent. lia.
  - intros k Hk. destruct (String.eqb_spec k domain) as [->|Hne]; [now left|].
    right. rewrite lookup_insert_ne in Hk by congruence.
    assert (Hdec : forall bound,
              (exists i, (i < bound)%nat /\ k = spfName domain i) \/
              (forall i, (i < bound)%nat -> k <> spfName domain i)).
    { induction bound as [|b [IHb|IHb]].
      - right. intros i Hi. lia.
      - left. destruct IHb as (i & Hi & Ei). exists i. split; [lia|exact Ei].
      - destruct (String.eqb_spec k (spfName domain b)) as [Eb|Nb].
        + left. exists b. split; [lia|exact Eb].
        + right. intros i Hi. destruct (Nat.eq_dec i b) as [->|]; [exact Nb|].
          apply IHb. lia. }
    destruct (Hdec (length recs)) as [Hex|Hnone]; [exact Hex|].
    rewrite Hother in Hk.
    + rewrite lookup_empty in Hk. now destruct Hk.
    + intros i Hi. apply Hnone. lia.
Qed.

Lemma longRecord_split_returns :
  exists m, SplitAndChainSPF longRecord "example.com" = Ret m.
Proof.
  destruct (run_Ret_inv (SplitAndChainSPF longRecord "example.com")
              (fun _ => True)) as (m & E & _); [vm_compute; exact I|].
  now exists m.
Qed.

Lemma SplitAndChainSPF_chain_witness :
  (maxSPFChars < len longRecord)%nat /\
  exists m,
    SplitAndChainSPF longRecord "example.com" = Ret m /\
    m !! "example.com" = Some "v=spf1 include:spf0.example.com ~all" /\
    exists n,
      (1 <= n)%nat /\
      (forall i, (i < n)%nat ->
         exists body, m !! spfName "example.com" i
                      = Some (body +:+ chainLink "example.com" n i)) /\
      (forall k, is_Some (m !! k) ->
         k = "example.com" \/
         exists i, (i < n)%nat /\ k = spfName "example.com" i).
Proof.
  split; [vm_compute; lia|].
  destruct longRecord_split_returns as [m E].
  exists m. split; [exact E|].
  apply (SplitAndChainSPF_chain longRecord "example.com" m);
    [vm_compute; lia|exact E].
Defined.

(** ** The IPv6 aggregator *)

Section AggregateExact6.

Context `{NetCodec}.

Local Open Scope Z_scope.

Lemma blockLoop_spec maxSize (d : nat) :
  forall fuel i,
    0 <= i -> 2 ^ i <= maxSize -> Z.log2 maxSize - i = Z.of_nat d ->
    (d < fuel)%nat ->
    blockLoop fuel (2 ^ i) maxSize = Ret (2 ^ Z.log2 maxSize).
Proof.
  induction d as [|d IH]; intros [|fuel] i Hi Hle Hd Hfuel; try lia;
    cbn [blockLoop]; rewrite Z.shiftl_mul_pow2 by lia;
    rewrite <- Z.pow_add_r by lia.
  - assert (Hmax : 0 < maxSize)
      by (pose proof (Z.pow_pos_nonneg 2 i ltac:(lia) Hi); lia).
    pose proof (Z.log2_spec maxSize Hmax) as Hlog.
    replace (i + 1) with (Z.succ (Z.log2 maxSize)) by lia.
    destruct (Z.leb_spec (2 ^ Z.succ (Z.log2 maxSize)) maxSize); [lia|].
    f_equal. f_equal. lia.
  - assert (Hmax : 0 < maxSize)
      by (pose proof (Z.pow_pos_nonneg 2 i ltac:(lia) Hi); lia).
    pose proof (Z.log2_spec maxSize Hmax) as Hlog.
    assert (Hle' : 2 ^ (i + 1) <= maxSize).
    { transitivity (2 ^ Z.log2 maxSize); [apply Z.pow_le_mono_r; lia|lia]. }
    destruct (Z.leb_spec (2 ^ (i + 1)) maxSize); [|lia].
    apply IH; lia.
Qed.

Lemma alignLoop6_spec current (n : nat) :
  forall fuel, (n < fuel)%nat ->
    exists j, 0 <= j <= Z.of_nat n /\
              alignLoop6 fuel current (2 ^ Z.of_nat n) = Ret (2 ^ j) /\
              current mod 2 ^ j = 0.
Proof.
  induction n as [|n IH]; intros [|fuel] Hfuel; try lia.
  - exists 0. split; [lia|]. cbn [alignLoop6]. change (2 ^ Z.of_nat 0) with 1.
    change (1 =? 0) with false. cbv iota. rewrite Z.mod_1_r.
    change (0 =? 0) with true. cbv iota. split; [reflexivity|].
    change (2 ^ 0) with 1. apply Z.mod_1_r.
  - cbn [alignLoop6].
    assert (Hpos : 0 < 2 ^ Z.of_nat (S n)) by (apply Z.pow_pos_nonneg; lia).
    destruct (Z.eqb_spec (2 ^ Z.of_nat (S n)) 0) as [E|_]; [lia|].
    destruct (Z.eqb_spec (current mod 2 ^ Z.of_nat (S n)) 0) as [E|E].
    + exists (Z.of_nat (S n)). split; [lia|]. now split.
    + replace (Z.shiftr (2 ^ Z.of_nat (S n)) 1) with (2 ^ Z.of_nat n).
      * destruct (IH fuel ltac:(lia)) as (j & Hj & E1 & E2).
        exists j. split; [lia|]. now split.
      * rewrite Z.shiftr_div_pow2 by lia.
        rewrite Nat2Z.inj_succ, Z.pow_succ_r by lia.
        change (2 ^ 1) with 2.
        rewrite Z.mul_comm, Z.div_mul by lia. reflexivity.
Qed.

Lemma prefixLoop_spec (n : nat) :
  forall fuel p, (n < fuel)%nat ->
    prefixLoop fuel (2 ^ Z.of_nat n) p = Ret (p - Z.of_nat n).
Proof.
  induction n as [|n IH]; intros [|fuel] p Hfuel; try lia; cbn [prefixLoop].
  - change (2 ^ Z.of_nat 0 >? 1) with false. cbv iota. f_equal. lia.
  - assert (Hgt : 1 < 2 ^ Z.of_nat (S n)).
    { change 1 with (2 ^ 0) at 1. apply Z.pow_lt_mono_r; lia. }
    destruct (Z.gtb_spec (2 ^ Z.of_nat (S n)) 1) as [_|Hle]; [|lia].
    replace (Z.shiftr (2 ^ Z.of_nat (S n)) 1) with (2 ^ Z.of_nat n).
    + rewrite IH by lia. f_equal. lia.
    + rewrite Z.shiftr_div_pow2 by lia.
      rewrite Nat2Z.inj_succ, Z.pow_succ_r by lia.
      change (2 ^ 1) with 2.
      rewrite Z.mul_comm, Z.div_mul by lia. reflexivity.
Qed.

Lemma covers6_cons b blocks a :
  covers (b :: blocks) a <-> inBlock a b \/ covers blocks a.
Proof. unfold covers. apply Exists_cons. Qed.

Lemma rangeLoop6_exact (n : nat) :
  forall fuel current end_ cidrs,
    0 <= current -> end_ < 2 ^ 128 ->
    (Z.to_nat (end_ - current + 1) < fuel)%nat ->
    (Z.to_nat (end_ - current + 1) < n)%nat ->
    exists blocks,
      rangeLoop6 fuel n current end_ cidrs
      = Ret (cidrs ++ map cidrText6 blocks) /\
      Forall okBlock6 blocks /\
      forall a, covers blocks a <-> current <= a <= end_.
Proof.
  induction n as [|n IH]; intros fuel current end_ cidrs Hc He Hfuel Hn; [lia|].
  cbn [rangeLoop6]. destruct (Z.leb_spec current end_) as [Hle|Hgt].
  2:{ exists []. split; [now rewrite app_nil_r|]. split; [constructor|].
      intros a. split; [intros Hcov; inversion Hcov|lia]. }
  set (r := end_ - current + 1) in *.
  assert (Hr : 0 < r) by (unfold r; lia).
  pose proof (Z.log2_spec r Hr) as Hlog.
  pose proof (Z.log2_nonneg r) as Hnn.
  pose proof (Z.log2_lt_lin r Hr) as Hlin.
  change 1 with (2 ^ 0) at 1.
  rewrite (blockLoop_spec r (Z.to_nat (Z.log2 r)) fuel 0) by (simpl; lia).
  rewrite bind_Ret.
  destruct (alignLoop6_spec current (Z.to_nat (Z.log2 r)) fuel ltac:(lia))
    as (j & Hj & Ealign & Hmod).
  rewrite Z2Nat.id in Ealign, Hj by lia.
  rewrite Ealign, bind_Ret.
  pose proof (prefixLoop_spec (Z.to_nat j) fuel 128 ltac:(lia)) as Hpre.
  rewrite Z2Nat.id in Hpre by lia. rewrite Hpre, bind_Ret.
  assert (Hpow : 0 < 2 ^ j <= r).
  { split; [apply Z.pow_pos_nonneg; lia|].
    transitivity (2 ^ Z.log2 r); [apply Z.pow_le_mono_r; lia|lia]. }
  destruct (IH fuel (current + 2 ^ j) end_
              (cidrs ++ [cidrText6 (current, 2 ^ j)]) ltac:(lia) He
              ltac:(unfold r in *; lia) ltac:(unfold r in *; lia))
    as (blocks & Eloop & Hok & Hcov).
  exists ((current, 2 ^ j) :: blocks). split; [|split].
  - unfold cidrText6 in Eloop at 1. cbn [fst snd] in Eloop.
    rewrite Z.log2_pow2 in Eloop by lia.
    cbv zeta. rewrite Eloop, <- app_assoc. reflexivity.
  - constructor; [|exact Hok]. exists j. cbn [fst snd].
    assert (Hj128 : j <= 128).
    { apply (Z.pow_le_mono_r_iff 2); [lia|lia|]. unfold r in Hpow. lia. }
    unfold r in Hpow. repeat split; lia.
  - intros a. rewrite covers6_cons, Hcov. unfold inBlock. cbn [fst snd].
    unfold r in Hpow. lia.
Qed.

Lemma mergeRuns6_exact fuel (rest : list Z) :
  forall start end_,
    0 <= start <= end_ ->
    StronglySorted Z.lt (end_ :: rest) ->
    Forall (fun x => x < 2 ^ 128) (end_ :: rest) ->
    (Z.to_nat (end_ - start + 1 + Z.of_nat (length rest)) < fuel)%nat ->
    exists blocks,
      mergeRuns6 fuel start end_ rest = Ret (map cidrText6 blocks) /\
      Forall okBlock6 blocks /\
      forall a, covers blocks a <-> start <= a <= end_ \/ In a rest.
Proof.
  induction rest as [|x rest IH]; intros start end_ Hs Hsorted Hb Hfuel.
  - cbn [mergeRuns6]. cbn [length] in *.
    inversion Hb as [|? ? He _]; subst.
    destruct (rangeLoop6_exact fuel fuel start end_ [])
      as (blocks & E & Hok & Hc); try lia.
    exists blocks. split; [exact E|]. split; [exact Hok|].
    intros a. rewrite Hc. simpl. tauto.
  - cbn [mergeRuns6]. cbn [length] in *.
    inversion Hsorted as [|? ? Hsorted' Hall]; subst.
    inversion Hall as [|? ? Hx Hall']; subst.
    inversion Hb as [|? ? He Hb']; subst.
    destruct (Z.eqb_spec x (end_ + 1)) as [->|Hne].
    + destruct (IH start (end_ + 1)) as (blocks & E & Hok & Hc);
        try assumption; try lia.
      exists blocks. split; [exact E|]. split; [exact Hok|].
      intros a. rewrite Hc. simpl. intuition lia.
    + destruct (rangeLoop6_exact fuel fuel start end_ [])
        as (b1 & E1 & Hok1 & Hc1); try lia.
      destruct (IH x x) as (b2 & E2 & Hok2 & Hc2); try assumption; try lia.
      unfold ipv6RangeToExactCIDRs.
      rewrite E1, bind_Ret, E2, bind_Ret.
      exists (b1 ++ b2). split; [now rewrite map_app|].
      split; [now apply Forall_app|].
      intros a. unfold covers. rewrite Exists_app.
      fold (covers b1 a). fold (covers b2 a). rewrite Hc1, Hc2.
      simpl. intuition lia.
Qed.

Lemma bytes_value_bound (bytes : list Z) :
  Forall (fun b => 0 <= b < 256) bytes ->
  forall acc k,
    0 <= k -> 0 <= acc < 256 ^ k ->
    0 <= fold_left (fun acc b => acc * 256 + b) bytes acc
      < 256 ^ (k + Z.of_nat (length bytes)).
Proof.
  induction 1 as [|b bytes Hb _ IH]; intros acc k Hk Hacc.
  - cbn [fold_left length]. now rewrite Z.add_0_r.
  - cbn [fold_left length].
    replace (k + Z.of_nat (S (length bytes)))
      with ((k + 1) + Z.of_nat (length bytes)) by lia.
    apply IH; [lia|]. rewrite Z.pow_add_r by lia. change (256 ^ 1) with 256.
    nia.
Qed.

Lemma ipv6ToBigInt_bound ip :
  isIPv6 ip -> 0 <= ipv6ToBigInt ip < 2 ^ 128.
Proof.
  intros (Hlen & _ & Hbytes). unfold ipv6ToBigInt, To16. rewrite Hlen.
  cbn [Nat.eqb]. pose proof (bytes_value_bound ip Hbytes 0 0) as Hb.
  rewrite Hlen in Hb. change (256 ^ (0 + Z.of_nat 16)) with (2 ^ 128) in Hb.
  apply Hb; simpl; lia.
Qed.

Lemma uniqueIPs6_spec (ips : list IP) :
  Forall isIPv6 ips ->
  forall (m : gset Z) a,
    a ∈ fold_left
          (fun (m : gset Z) ip =>
             match To16 ip, To4 ip with
             | Some ipv6, None => {[ ipv6ToBigInt ipv6 ]} ∪ m
             | _, _ => m
             end)
          ips m
    <-> a ∈ m \/ exists ip, In ip ips /\ ipv6ToBigInt ip = a.
Proof.
  induction 1 as [|ip ips Hip _ IH]; intros m a; cbn [fold_left].
  - split; [now left|]. intros [Ha|(ip & [] & _)]. exact Ha.
  - destruct Hip as (Hlen & H4 & _).
    assert (H16 : To16 ip = Some ip) by (unfold To16; now rewrite Hlen).
    rewrite H16, H4, IH, elem_of_union, elem_of_singleton. split.
    + intros [[->|Ha]|(ip' & Hin & E)].
      * right. exists ip. split; [now left|reflexivity].
      * now left.
      * right. exists ip'. split; [now right|exact E].
    + intros [Ha|(ip' & [<-|Hin] & E)].
      * left. now right.
      * left. left. now symmetry.
      * right. now exists ip'.
Qed.

End AggregateExact6.

(** [aggregateIPv6] is exact on every input: for sixteen-byte addresses
    that are not IPv4-mapped it returns (with enough fuel) the mechanisms
    of a list of blocks, each a power of two in size and aligned on its
    size, and an address lies in one of the blocks exactly when it is one
    of the input addresses.  The 128-bit arithmetic does not wrap: the
    last address is no exception here. *)
Theorem aggregateIPv6_exact `{NetCodec} (fuel : nat) (ips : list IP) :
  Forall isIPv6 ips ->
  (length ips < fuel)%nat ->
  exists blocks,
    aggregateIPv6 fuel ips = Ret (map cidrText6 blocks) /\
    Forall okBlock6 blocks /\
    forall a, covers blocks a <-> exists ip, In ip ips /\ ipv6ToBigInt ip = a.
Proof.
  intros Hv6 Hfuel. unfold aggregateIPv6.
  destruct ips as [|ip0 ips0] eqn:Eips.
  { exists []. split; [reflexivity|]. split; [constructor|].
    intros a. split; [intros Hc; inversion Hc|]. now intros (ip & [] & _). }
  rewrite <- Eips in *. replace (length ips =? 0)%nat with false
    by (now rewrite Eips). clear ip0 ips0 Eips.
  set (S := fold_left _ ips ∅).
  assert (HS : forall a, a ∈ S <-> exists ip, In ip ips /\ ipv6ToBigInt ip = a).
  { intros a. unfold S. rewrite (uniqueIPs6_spec ips Hv6 ∅ a).
    split; [intros [Ha|Ha]; [now apply not_elem_of_empty in Ha|exact Ha]
           |now right]. }
  assert (Hperm : Permutation (sortZ (elements S)) (elements S))
    by apply sortZ_perm.
  assert (Hin : forall a, In a (sortZ (elements S)) <->
                          exists ip, In ip ips /\ ipv6ToBigInt ip = a).
  { intros a. rewrite <- HS, <- elem_of_elements, list_elem_of_In.
    split; apply Permutation_in; [exact Hperm|now symmetry]. }
  assert (Hnd : List.NoDup (sortZ (elements S))).
  { apply (Permutation_NoDup (Permutation_sym Hperm)).
    apply NoDup_ListNoDup, NoDup_elements. }
  assert (Hsorted : StronglySorted Z.lt (sortZ (elements S))).
  { apply sorted_strict; [|exact Hnd].
    apply Sorted_StronglySorted; [intros x y z; apply Z.le_trans|].
    apply sortZ_sorted. }
  assert (Hrange : Forall (fun x => 0 <= x < 2 ^ 128)%Z (sortZ (elements S))).
  { apply List.Forall_forall. intros a Ha. apply Hin in Ha as (ip & Hip & <-).
    rewrite List.Forall_forall in Hv6. now apply ipv6ToBigInt_bound, Hv6. }
  assert (Hcount : (length (sortZ (elements S)) <= length ips)%nat).
  { transitivity (length (map ipv6ToBigInt ips)); [|now rewrite length_map].
    apply List.NoDup_incl_length; [exact Hnd|].
    intros a Ha. apply Hin in Ha as (ip & Hip & <-). now apply in_map. }
  unfold mergeContiguousIPv6Ranges.
  destruct (sortZ (elements S)) as [|x rest] eqn:Esorted.
  { exists []. split; [reflexivity|]. split; [constructor|].
    intros a. rewrite <- Hin. split; [intros Hc; inversion Hc|intros []]. }
  cbn [length] in Hcount.
  inversion Hrange as [|? ? Hx Hrest]; subst.
  destruct (mergeRuns6_exact fuel rest x x) as (blocks & E & Hok & Hc);
    try lia; try assumption.
  - constructor; [lia|]. eapply List.Forall_impl; [|exact Hrest].
    intros a Ha. cbv beta in Ha. lia.
  - exists blocks. split; [exact E|]. split; [exact Hok|].
    intros a. rewrite Hc, <- Hin. simpl. intuition lia.
Qed.

Lemma aggregateIPv6_exact_witness :
  Forall isIPv6
    [[32; 1; 13; 184; 0; 0; 0; 0; 0; 0; 0; 0; 0; 0; 0; 2];
     [32; 1; 13; 184; 0; 0; 0; 0; 0; 0; 0; 0; 0; 0; 0; 3]]%Z /\
  exists blocks,
    @aggregateIPv6 dottedQuadCodec 10
      [[32; 1; 13; 184; 0; 0; 0; 0; 0; 0; 0; 0; 0; 0; 0; 2];
       [32; 1; 13; 184; 0; 0; 0; 0; 0; 0; 0; 0; 0; 0; 0; 3]]%Z
    = Ret (map (@cidrText6 dottedQuadCodec) blocks) /\
    Forall okBlock6 blocks /\
    forall a, covers blocks a <->
      exists ip,
        In ip [[32; 1; 13; 184; 0; 0; 0; 0; 0; 0; 0; 0; 0; 0; 0; 2];
               [32; 1; 13; 184; 0; 0; 0; 0; 0; 0; 0; 0; 0; 0; 0; 3]]%Z /\
        ipv6ToBigInt ip = a.
Proof.
  assert (H6 : Forall isIPv6
    [[32; 1; 13; 184; 0; 0; 0; 0; 0; 0; 0; 0; 0; 0; 0; 2];
     [32; 1; 13; 184; 0; 0; 0; 0; 0; 0; 0; 0; 0; 0; 0; 3]]%Z).
  { repeat constructor; lia. }
  split; [exact H6|].
  apply (aggregateIPv6_exact (H := dottedQuadCodec) 10 _ H6). simpl. lia.
Defined.

(** ** What the aggregator leaves as it is *)

Section AggregateKeeps.

Context `{NetCodec}.

Lemma separateIPv4_keeps ms :
  forall acc m,
    (In m (snd acc) \/
     In m ms /\ HasPrefix m "ip4:" = true /\
     Contains (TrimPrefix m "ip4:") "/" = true /\
     is_Some (ParseCIDR (TrimPrefix m "ip4:"))) ->
    In m (snd (fold_left
      (fun '(individualIPs, existingCIDRs) mechanism =>
         if negb (HasPrefix mechanism "ip4:") then (individualIPs, existingCIDRs)
         else
           let ipStr := TrimPrefix mechanism "ip4:" in
           if Contains ipStr "/" then
             match ParseCIDR ipStr with
             | Some _ => (individualIPs, existingCIDRs ++ [mechanism])
             | None => (individualIPs, existingCIDRs)
             end
           else
             match ParseIP ipStr with
             | Some ip =>
                 match To4 ip with
                 | Some ip4 => (individualIPs ++ [ip4], existingCIDRs)
                 | None => (individualIPs, existingCIDRs)
                 end
             | None => (individualIPs, existingCIDRs)
             end)
      ms acc)).
Proof.
  induction ms as [|x ms IH]; intros [ind ex] m Hm; cbn [fold_left].
  - destruct Hm as [Hm|[[] _]]. exact Hm.
  - apply IH. cbn [snd] in Hm.
    destruct Hm as [Hm|([<-|Hin] & Hp & Hc & Hs)].
    + left. destruct (negb (HasPrefix x "ip4:")); [exact Hm|]. cbv zeta.
      destruct (Contains _ "/").
      * destruct (ParseCIDR _); cbn [snd]; [apply in_or_app; now left|exact Hm].
      * destruct (ParseIP _) as [ip|]; [destruct (To4 ip)|]; exact Hm.
    + left. rewrite Hp. cbn [negb]. cbv zeta. rewrite Hc.
      destruct Hs as [c ->]. cbn [snd]. apply in_or_app. right. now left.
    + right. now repeat split.
Qed.

Lemma separateIPv6_keeps ms :
  forall acc m,
    (In m (snd acc) \/
     In m ms /\ HasPrefix m "ip6:" = true /\
     Contains (TrimPrefix m "ip6:") "/" = true /\
     is_Some (ParseCIDR (TrimPrefix m "ip6:"))) ->
    In m (snd (fold_left
      (fun '(individualIPs, existingCIDRs) mechanism =>
         if negb (HasPrefix mechanism "ip6:") then (individualIPs, existingCIDRs)
         else
           let ipStr := TrimPrefix mechanism "ip6:" in
           if Contains ipStr "/" then
             match ParseCIDR ipStr with
             | Some _ => (individualIPs, existingCIDRs ++ [mechanism])
             | None => (individualIPs, existingCIDRs)
             end
           else
             match ParseIP ipStr with
             | Some ip =>
                 match To4 ip, To16 ip with
                 | None, Some ip16 => (individualIPs ++ [ip16], existingCIDRs)
                 | _, _ => (individualIPs, existingCIDRs)
                 end
             | None => (individualIPs, existingCIDRs)
             end)
      ms acc)).
Proof.
  induction ms as [|x ms IH]; intros [ind ex] m Hm; cbn [fold_left].
  - destruct Hm as [Hm|[[] _]]. exact Hm.
  - apply IH. cbn [snd] in Hm.
    destruct Hm as [Hm|([<-|Hin] & Hp & Hc & Hs)].
    + left. destruct (negb (HasPrefix x "ip6:")); [exact Hm|]. cbv zeta.
      destruct (Contains _ "/").
      * destruct (ParseCIDR _); cbn [snd]; [apply in_or_app; now left|exact Hm].
      * destruct (ParseIP _) as [ip|]; [destruct (To4 ip), (To16 ip)|]; exact Hm.
    + left. rewrite Hp. cbn [negb]. cbv zeta. rewrite Hc.
      destruct Hs as [c ->]. cbn [snd]. apply in_or_app. right. now left.
    + right. now repeat split.
Qed.

Lemma separateIPv4IndividualFromCIDR_keeps ms m :
  In m ms -> HasPrefix m "ip4:" = true ->
  Contains (TrimPrefix m "ip4:") "/" = true ->
  is_Some (ParseCIDR (TrimPrefix m "ip4:")) ->
  In m (snd (separateIPv4IndividualFromCIDR ms)).
Proof.
  intros Hin Hp Hc Hs. unfold separateIPv4IndividualFromCIDR.
  apply separateIPv4_keeps. right. now repeat split.
Qed.

Lemma separateIPv6IndividualFromCIDR_keeps ms m :
  In m ms -> HasPrefix m "ip6:" = true ->
  Contains (TrimPrefix m "ip6:") "/" = true ->
  is_Some (ParseCIDR (TrimPrefix m "ip6:")) ->
  In m (snd (separateIPv6IndividualFromCIDR ms)).
Proof.
  intros Hin Hp Hc Hs. unfold separateIPv6IndividualFromCIDR.
  apply separateIPv6_keeps. right. now repeat split.
Qed.

End AggregateKeeps.

(** Whatever the configuration, when [AggregateCIDRsWithConfig] returns,
    its result holds every input mechanism that is neither [ip4:] nor
    [ip6:], and every [ip4:] or [ip6:] mechanism that is already a CIDR
    block [net.ParseCIDR] accepts: only individual addresses are
    aggregated. *)
Theorem AggregateCIDRsWithConfig_keeps `{NetCodec} (fuel : nat)
    (ipMechanisms : list string) (config : option AggregationConfig)
    (out : list string) (m : string) :
  AggregateCIDRsWithConfig fuel ipMechanisms config = Ret out ->
  In m ipMechanisms -> keptAsIs m -> In m out.
Proof.
  unfold AggregateCIDRsWithConfig. intros E Hin Hkept.
  destruct ipMechanisms as [|m0 ms0] eqn:Ems; [contradiction|].
  rewrite <- Ems in *. replace (length ipMechanisms =? 0)%nat with false in E
    by (now rewrite Ems). clear m0 ms0 Ems.
  pose proof (separateIPv4IndividualFromCIDR_keeps ipMechanisms m Hin) as H4.
  pose proof (separateIPv6IndividualFromCIDR_keeps ipMechanisms m Hin) as H6.
  destruct (separateIPv4IndividualFromCIDR ipMechanisms) as [i4 c4].
  destruct (separateIPv6IndividualFromCIDR ipMechanisms) as [i6 c6].
  cbn [snd] in H4, H6.
  destruct (aggregateIPv4WithConfig fuel i4 _) as [a4| |]; try discriminate.
  rewrite bind_Ret in E.
  destruct (aggregateIPv6WithConfig fuel i6 _) as [a6| |]; try discriminate.
  rewrite bind_Ret in E. injection E as <-.
  rewrite !in_app_iff.
  destruct Hkept as [[Hn4 Hn6]|[(Hp & Hc & Hs)|(Hp & Hc & Hs)]].
  - do 4 right. unfold extractNonIPMechanisms. apply List.filter_In.
    split; [exact Hin|]. now rewrite Hn4, Hn6.
  - right. right. left. now apply H4.
  - do 3 right. left. now apply H6.
Qed.

Lemma AggregateCIDRsWithConfig_keeps_witness :
  @AggregateCIDRsWithConfig dottedQuadCodec 40
     ["ip4:192.0.2.0"; "ip4:192.0.2.1"; "ip4:198.51.100.0/24"; "include:x.org"]
     None
  = Ret ["ip4:192.0.2.0/31"; "ip4:198.51.100.0/24"; "include:x.org"] /\
  @keptAsIs dottedQuadCodec "ip4:198.51.100.0/24" /\
  In "ip4:198.51.100.0/24"
     ["ip4:192.0.2.0/31"; "ip4:198.51.100.0/24"; "include:x.org"].
Proof.
  assert (Hk : @keptAsIs dottedQuadCodec "ip4:198.51.100.0/24").
  { right. left. split; [reflexivity|]. split; [reflexivity|].
    vm_compute. now eexists. }
  split; [vm_compute; reflexivity|]. split; [exact Hk|].
  apply (AggregateCIDRsWithConfig_keeps (H := dottedQuadCodec) 40
           ["ip4:192.0.2.0"; "ip4:192.0.2.1"; "ip4:198.51.100.0/24";
            "include:x.org"] None _ "ip4:198.51.100.0/24");
    [vm_compute; reflexivity|right; right; now left|exact Hk].
Defined.

(** ** The aggregator on individual IPv4 mechanisms *)

Lemma leadingDigits_cons c s :
  leadingDigits (String c s) = String c s ->
  isDigit c = true /\ leadingDigits s = s.
Proof.
  cbn [leadingDigits]. destruct (isDigit c); [|discriminate].
  intros E. split; [reflexivity|congruence].
Qed.

Lemma leadingDigits_itoaFrom fuel :
  forall n acc,
    leadingDigits acc = acc ->
    leadingDigits (itoaFrom fuel n acc) = itoaFrom fuel n acc.
Proof.
  induction fuel as [|fuel IH]; intros n acc Hacc; [exact Hacc|].
  cbn [itoaFrom].
  assert (Hd : leadingDigits (String (digitChar (n mod 10)) acc)
               = String (digitChar (n mod 10)) acc).
  { cbn [leadingDigits]. rewrite digitChar_isDigit
      by (apply Nat.mod_upper_bound; lia). now rewrite Hacc. }
  destruct (n <? 10)%nat; [exact Hd|]. now apply IH.
Qed.

Lemma leadingDigits_Itoa n : leadingDigits (Itoa n) = Itoa n.
Proof. now apply leadingDigits_itoaFrom. Qed.

Lemma digits_no_slash s : leadingDigits s = s -> Contains s "/" = false.
Proof.
  induction s as [|c s IH]; intros E; [reflexivity|].
  apply leadingDigits_cons in E as [Hd Hs].
  rewrite Contains_cons, HasPrefix_cons, HasPrefix_nil, (IH Hs).
  destruct (Ascii.eqb_spec c "/") as [->|_]; [discriminate Hd|reflexivity].
Qed.

Lemma digitsValue_digits s :
  forall acc,
    leadingDigits s = s ->
    digitsValue (Z.of_nat acc) s = Some (Z.of_nat (decimalValue acc s)).
Proof.
  induction s as [|c s IH]; intros acc E; [reflexivity|].
  apply leadingDigits_cons in E as [Hd Hs].
  cbn [digitsValue decimalValue]. rewrite Hd.
  replace (10 * Z.of_nat acc + Z.of_nat (nat_of_ascii c - 48))%Z
    with (Z.of_nat (10 * acc + (nat_of_ascii c - 48))) by lia.
  now apply IH.
Qed.

Lemma scanInt_digit c rest :
  isDigit c = true ->
  scanInt (String c rest)
  = match leadingDigits (String c rest) with
    | EmptyString => None
    | ds => match digitsValue 0 ds with
            | Some v => Some v
            | None => None
            end
    end.
Proof.
  intros Hd.
  destruct c as [[] [] [] [] [] [] [] []];
    try discriminate Hd; reflexivity.
Qed.

Lemma scanInt_Itoa n : scanInt (Itoa n) = Some (Z.of_nat n).
Proof.
  destruct (Itoa_head n) as (c & rest & E & Hd).
  pose proof (leadingDigits_Itoa n) as Hl.
  pose proof (digitsValue_digits (Itoa n) 0 Hl) as Hv.
  rewrite Itoa_value in Hv. rewrite E in *.
  rewrite (scanInt_digit c rest Hd), Hl.
  change (Z.of_nat 0) with 0%Z in Hv. now rewrite Hv.
Qed.

Lemma ItoaZ_nonneg z : (0 <= z)%Z -> ItoaZ z = Itoa (Z.to_nat z).
Proof.
  intros Hz. unfold ItoaZ. destruct (Z.ltb_spec z 0); [lia|reflexivity].
Qed.

Lemma Contains_ItoaZ z : Contains (ItoaZ z) "/" = false.
Proof.
  unfold ItoaZ. destruct (z <? 0)%Z.
  - rewrite Contains_cons, HasPrefix_cons.
    rewrite (digits_no_slash _ (leadingDigits_Itoa _)). reflexivity.
  - apply digits_no_slash, leadingDigits_Itoa.
Qed.

Lemma Contains_app_slash a b :
  Contains (a +:+ b) "/" = Contains a "/" || Contains b "/".
Proof.
  induction a as [|c a IH]; [reflexivity|].
  change (String c a +:+ b) with (String c (a +:+ b)).
  rewrite !Contains_cons, IH, !HasPrefix_cons, !HasPrefix_nil.
  apply orb_assoc.
Qed.

Lemma Split1_no_slash s : Contains s "/" = false -> Split1 s "/" = [s].
Proof.
  induction s as [|c s IH]; intros Hc; [reflexivity|].
  rewrite Contains_cons, HasPrefix_cons, HasPrefix_nil, andb_true_r in Hc.
  apply orb_false_elim in Hc as [Hne Hs].
  cbn [Split1]. now rewrite Hne, (IH Hs).
Qed.

Lemma Split1_slash a b :
  Contains a "/" = false -> Contains b "/" = false ->
  Split1 (a +:+ String "/" b) "/" = [a; b].
Proof.
  intros Ha Hb. induction a as [|c a IH].
  - change (EmptyString +:+ String "/" b) with (String "/" b).
    cbn [Split1]. rewrite Ascii.eqb_refl. now rewrite Split1_no_slash.
  - rewrite Contains_cons, HasPrefix_cons, HasPrefix_nil, andb_true_r in Ha.
    apply orb_false_elim in Ha as [Hne Ha].
    change (String c a +:+ String "/" b) with (String c (a +:+ String "/" b)).
    cbn [Split1]. now rewrite Hne, (IH Ha).
Qed.

Lemma append_assoc_s a b c : (a +:+ b) +:+ c = a +:+ (b +:+ c).
Proof.
  induction a as [|x a IH]; [reflexivity|].
  change (String x a +:+ b) with (String x (a +:+ b)).
  change (String x (a +:+ b) +:+ c) with (String x ((a +:+ b) +:+ c)).
  now rewrite IH.
Qed.

Section AggregateTexts.

Context `{NetCodec}.

Lemma Contains_IPString (a : Z) :
  Contains (IPString (uint32ToIP a)) "/" = false.
Proof.
  unfold uint32ToIP.
  set (w := (Z.shiftr a 24 mod 256)%Z). set (x := (Z.shiftr a 16 mod 256)%Z).
  set (y := (Z.shiftr a 8 mod 256)%Z). set (z := (a mod 256)%Z).
  change (IPString (IPv4 w x y z))
    with (ItoaZ w +:+ "." +:+ ItoaZ x +:+ "." +:+ ItoaZ y +:+ "." +:+ ItoaZ z).
  rewrite !Contains_app_slash, !Contains_ItoaZ. reflexivity.
Qed.

Lemma okBlock_oneAddress (b : Z * Z) :
  okBlock b ->
  (32 - Z.log2 (snd b) =? 32)%Z = oneAddress b /\
  (oneAddress b = false -> 1 <= 32 - Z.log2 (snd b))%Z.
Proof.
  intros (k & Hk & Hs & _). unfold oneAddress. rewrite Hs.
  rewrite Z.log2_pow2 by lia.
  destruct (Z.eq_dec k 0%Z) as [->|Hne].
  - split; [reflexivity|discriminate].
  - assert (2 ^ 1 <= 2 ^ k)%Z by (apply Z.pow_le_mono_r; lia).
    change (2 ^ 1)%Z with 2%Z in *.
    split; [|lia].
    destruct (Z.eqb_spec (32 - k) 32); [lia|].
    destruct (Z.eqb_spec (2 ^ k) 1); [lia|reflexivity].
Qed.

Lemma cidrText_address (b : Z * Z) :
  okBlock b -> oneAddress b = true -> Contains (cidrText b) "/" = false.
Proof.
  intros Hok Hone. destruct (okBlock_oneAddress b Hok) as [E _].
  unfold cidrText. rewrite E, Hone.
  now rewrite Contains_app_slash, Contains_IPString.
Qed.

Lemma cidrText_prefix (b : Z * Z) :
  okBlock b -> oneAddress b = false ->
  Contains (cidrText b) "/" = true /\
  exists address prefixStr prefix,
    Split1 (cidrText b) "/" = [address; prefixStr] /\
    scanInt prefixStr = Some prefix /\ (1 <= prefix)%Z.
Proof.
  intros Hok Hone. destruct (okBlock_oneAddress b Hok) as [E Hp].
  specialize (Hp Hone). unfold cidrText. rewrite E, Hone.
  set (p := (32 - Z.log2 (snd b))%Z) in *.
  change ("/" +:+ ItoaZ p) with (String "/" (ItoaZ p)).
  split.
  - apply Contains_skip, Contains_skip, Contains_of_prefix.
    rewrite HasPrefix_cons, HasPrefix_nil. reflexivity.
  - exists ("ip4:" +:+ IPString (uint32ToIP (fst b))), (ItoaZ p), p.
    split; [|split; [|exact Hp]].
    + rewrite <- append_assoc_s. apply Split1_slash.
      * now rewrite Contains_app_slash, Contains_IPString.
      * apply Contains_ItoaZ.
    + rewrite ItoaZ_nonneg by lia. rewrite scanInt_Itoa. f_equal. lia.
Qed.

Lemma filterByPrefix_blocks (blocks : list (Z * Z)) (individualIPs : list string) :
  Forall okBlock blocks ->
  filterByPrefix "ip4:" 1 (map cidrText blocks) individualIPs
  = (map cidrText (List.filter (fun b => negb (oneAddress b)) blocks),
     individualIPs ++ map cidrText (List.filter oneAddress blocks)).
Proof.
  intros Hok. unfold filterByPrefix.
  match goal with |- fold_left ?f _ _ = _ => set (step := f) end.
  assert (Hstep : forall fc ind b,
            okBlock b ->
            step (fc, ind) (cidrText b)
            = if oneAddress b then (fc, ind ++ [cidrText b])
              else (fc ++ [cidrText b], ind)).
  { intros fc ind b Hb. subst step. cbv beta iota.
    destruct (oneAddress b) eqn:Hone.
    - now rewrite (cidrText_address b Hb Hone).
    - destruct (cidrText_prefix b Hb Hone)
        as (Hc & address & prefixStr & prefix & Hsplit & Hscan & Hp).
      rewrite Hc, Hsplit, Hscan.
      destruct (Z.geb_spec prefix 1); [reflexivity|lia]. }
  assert (Hgen : forall fc ind,
            fold_left step (map cidrText blocks) (fc, ind)
            = (fc ++ map cidrText
                       (List.filter (fun b => negb (oneAddress b)) blocks),
               ind ++ map cidrText (List.filter oneAddress blocks))).
  { induction Hok as [|b blocks Hb Hblocks IH]; intros fc ind.
    - cbn. now rewrite !app_nil_r.
    - cbn [map fold_left List.filter]. rewrite (Hstep fc ind b Hb).
      destruct (oneAddress b); cbn [negb map]; rewrite IH;
        now rewrite <- app_assoc. }
  apply (Hgen [] individualIPs).
Qed.

Lemma splitPreserved_none (tag : string) (ips : list IP) :
  splitPreserved tag (list_to_set []) ips = (ips, []).
Proof.
  unfold splitPreserved.
  match goal with |- fold_left ?f _ _ = _ => set (step := f) end.
  assert (Hgen : forall acc, fold_left step ips (acc, []) = (acc ++ ips, [])).
  { induction ips as [|ip ips IH]; intros acc.
    - cbn. now rewrite app_nil_r.
    - cbn [fold_left].
      replace (step (acc, []) ip) with (acc ++ [ip], @nil string).
      + rewrite IH. now rewrite <- app_assoc.
      + subst step. cbv beta iota zeta.
        rewrite bool_decide_eq_false_2; [reflexivity|].
        change (list_to_set []) with (∅ : gset string). set_solver. }
  apply (Hgen []).
Qed.

Lemma separateIPv4_individual (ms : list string) (ips : list IP) :
  Forall2 individualIPv4 ms ips ->
  separateIPv4IndividualFromCIDR ms = (ips, []).
Proof.
  intros Hms. unfold separateIPv4IndividualFromCIDR.
  match goal with |- fold_left ?f _ _ = _ => set (step := f) end.
  assert (Hgen : forall acc, fold_left step ms (acc, []) = (acc ++ ips, [])).
  { induction Hms as [|m ip ms ips Hm Hms IH]; intros acc.
    - cbn. now rewrite app_nil_r.
    - cbn [fold_left].
      replace (step (acc, []) m) with (acc ++ [ip], @nil string).
      + rewrite IH. now rewrite <- app_assoc.
      + destruct Hm as (Hp & Hc & parsed & Hparse & H4 & _).
        subst step. cbv beta iota zeta.
        now rewrite Hp, Hc, Hparse, H4. }
  apply (Hgen []).
Qed.

Lemma separateIPv6_individual (ms : list string) (ips : list IP) :
  Forall2 individualIPv4 ms ips ->
  separateIPv6IndividualFromCIDR ms = ([], []).
Proof.
  intros Hms. unfold separateIPv6IndividualFromCIDR.
  match goal with |- fold_left ?f _ _ = _ => set (step := f) end.
  induction Hms as [|m ip ms ips Hm Hms IH]; [reflexivity|].
  cbn [fold_left].
  replace (step ([], []) m) with (@nil IP, @nil string); [exact IH|].
  destruct Hm as (Hp & _). apply HasPrefix_split in Hp as [rest ->].
  reflexivity.
Qed.

Lemma extractNonIPMechanisms_individual (ms : list string) (ips : list IP) :
  Forall2 individualIPv4 ms ips -> extractNonIPMechanisms ms = [].
Proof.
  intros Hms. unfold extractNonIPMechanisms.
  induction Hms as [|m ip ms ips Hm Hms IH]; [reflexivity|].
  cbn [List.filter]. destruct Hm as (Hp & _). now rewrite Hp.
Qed.

Lemma covers_filter (blocks : list (Z * Z)) (a : Z) :
  covers (List.filter (fun b => negb (oneAddress b)) blocks
            ++ List.filter oneAddress blocks) a
  <-> covers blocks a.
Proof.
  unfold covers. rewrite Exists_app, !List.Exists_exists.
  split.
  - intros [(b & Hin & Hb)|(b & Hin & Hb)];
      apply List.filter_In in Hin as [Hin _]; now exists b.
  - intros (b & Hin & Hb). destruct (oneAddress b) eqn:Hone.
    + right. exists b. split; [|exact Hb]. apply List.filter_In. now split.
    + left. exists b. split; [|exact Hb]. apply List.filter_In.
      split; [exact Hin|]. now rewrite Hone.
Qed.

End AggregateTexts.

(** The aggregation of the flatten path is exact on individual IPv4
    addresses away from the last one: for [ip4:] mechanisms without a
    prefix length whose addresses [net.ParseIP] reads, none of them
    [255.255.255.255], [AggregateCIDRs] returns (with enough fuel) the
    mechanisms of a list of CIDR blocks and nothing else, each block a
    power of two in size and aligned on its size, and an address lies in
    one of the blocks exactly when it is the address of one of the input
    mechanisms: no address is lost and none is added. *)
Theorem AggregateCIDRs_individual_ipv4 `{NetCodec} (fuel : nat)
    (ipMechanisms : list string) (ips : list IP) :
  Forall2 individualIPv4 ipMechanisms ips ->
  Forall (fun ip => ip <> [255; 255; 255; 255]%Z) ips ->
  (Z.of_nat (length ips) < 2 ^ 31)%Z ->
  (33 + length ips <= fuel)%nat ->
  exists blocks,
    AggregateCIDRs fuel ipMechanisms = Ret (map cidrText blocks) /\
    Forall okBlock blocks /\
    forall a, covers blocks a <-> exists ip, In ip ips /\ ipToUint32 ip = a.
Proof.
  intros Hms Hlast Hlen Hfuel.
  destruct ipMechanisms as [|m ms].
  { inversion Hms; subst. exists []. split; [reflexivity|].
    split; [constructor|]. intros a.
    split; [intros Hc; inversion Hc|now intros (ip & [] & _)]. }
  assert (Hne : (length ips =? 0)%nat = false) by (inversion Hms; reflexivity).
  assert (Hv4 : Forall isIPv4 ips).
  { clear - Hms. induction Hms as [|m' ip ms' ips Hm Hms IH]; constructor.
    - now destruct Hm as (_ & _ & parsed & _ & _ & Hip).
    - exact IH. }
  destruct (aggregateIPv4_blocks fuel ips Hv4 Hlast Hlen Hfuel)
    as (blocks & Eagg & Hok & Hcov).
  exists (List.filter (fun b => negb (oneAddress b)) blocks
            ++ List.filter oneAddress blocks).
  split; [|split].
  - unfold AggregateCIDRs, AggregateCIDRsWithConfig.
    change (length (m :: ms) =? 0)%nat with false. cbv iota.
    rewrite (separateIPv4_individual _ _ Hms).
    rewrite (separateIPv6_individual _ _ Hms).
    rewrite (extractNonIPMechanisms_individual _ _ Hms).
    unfold aggregateIPv4WithConfig. rewrite Hne.
    cbn [PreserveIndividual IPv4MaxPrefix].
    rewrite splitPreserved_none, Eagg, bind_Ret.
    rewrite (filterByPrefix_blocks blocks [] Hok).
    rewrite bind_Ret.
    change (aggregateIPv6WithConfig fuel [] _) with (Ret (@nil string)).
    rewrite bind_Ret. cbn [app]. rewrite !app_nil_r. now rewrite map_app.
  - apply Forall_app. split; apply List.Forall_forall; intros b Hb;
      apply List.filter_In in Hb as [Hb _];
      rewrite List.Forall_forall in Hok; now apply Hok.
  - intros a. rewrite covers_filter. apply Hcov.
Qed.

Lemma AggregateCIDRs_individual_ipv4_witness :
  @Forall2 string IP (@individualIPv4 dottedQuadCodec)
     ["ip4:192.0.2.0"; "ip4:192.0.2.1"; "ip4:192.0.2.3"]
     [[192; 0; 2; 0]; [192; 0; 2; 1]; [192; 0; 2; 3]]%Z /\
  Forall (fun ip => ip <> [255; 255; 255; 255]%Z)
         [[192; 0; 2; 0]; [192; 0; 2; 1]; [192; 0; 2; 3]]%Z /\
  exists blocks,
    @AggregateCIDRs dottedQuadCodec 40
       ["ip4:192.0.2.0"; "ip4:192.0.2.1"; "ip4:192.0.2.3"]
    = Ret (map (@cidrText dottedQuadCodec) blocks) /\
    Forall okBlock blocks /\
    forall a, covers blocks a <->
              exists ip,
                In ip [[192; 0; 2; 0]; [192; 0; 2; 1]; [192; 0; 2; 3]]%Z /\
                ipToUint32 ip = a.
Proof.
  assert (Hms : @Forall2 string IP (@individualIPv4 dottedQuadCodec)
                  ["ip4:192.0.2.0"; "ip4:192.0.2.1"; "ip4:192.0.2.3"]
                  [[192; 0; 2; 0]; [192; 0; 2; 1]; [192; 0; 2; 3]]%Z).
  { repeat constructor;
      (eexists; split; [vm_compute; reflexivity|];
       split; [reflexivity|]; eexists _, _, _, _;
       (split; [reflexivity|lia])). }
  assert (Hl : Forall (fun ip => ip <> [255; 255; 255; 255]%Z)
                 [[192; 0; 2; 0]; [192; 0; 2; 1]; [192; 0; 2; 3]]%Z).
  { repeat constructor; discriminate. }
  split; [exact Hms|]. split; [exact Hl|].
  apply (AggregateCIDRs_individual_ipv4 (H := dottedQuadCodec) 40 _ _ Hms Hl);
    simpl; lia.
Defined.

(** ** The records currently published *)

Section CurrentAggregate.

Variable records : gmap string string.

Lemma fold_recordPart_returns
    (recurse : string -> aggState -> run aggState) (bound : nat) :
  (forall content st,
     (size (dom records ∖ seenIncludes st) < bound)%nat ->
     exists st', recurse content st = Ret st' /\
                 seenIncludes st ⊆ seenIncludes st') ->
  forall parts st,
    (size (dom records ∖ seenIncludes st) <= bound)%nat ->
    exists st',
      fold_left (fun acc part =>
                   st ← acc; recordPart recurse records st part)
                parts (Ret st) = Ret st' /\
      seenIncludes st ⊆ seenIncludes st'.
Proof.
  intros Hrec. induction parts as [|part parts IH]; intros st Hst.
  - exists st. split; [reflexivity|set_solver].
  - cbn [fold_left]. rewrite bind_Ret.
    assert (Hstep : exists st1,
              recordPart recurse records st part = Ret st1 /\
              seenIncludes st ⊆ seenIncludes st1).
    { unfold recordPart.
      destruct (HasPrefix part "v=spf1" || HasSuffix part "all");
        [exists st; split; [reflexivity|set_solver]|].
      destruct (HasPrefix part "include:");
        [|eexists; split; [reflexivity|cbn; set_solver]].
      set (d := TrimPrefix part "include:").
      destruct (bool_decide_reflect (d ∈ seenIncludes st)) as [Hin|Hnot];
        [exists st; split; [reflexivity|set_solver]|].
      cbn [aggregatedMechanisms seenIncludes].
      destruct (records !! d) as [next|] eqn:Ed;
        [|eexists; split; [reflexivity|cbn; set_solver]].
      destruct (Hrec next (mkAggState (aggregatedMechanisms st)
                                      ({[d]} ∪ seenIncludes st)))
        as (st1 & E1 & Hsub).
      - cbn [seenIncludes].
        eapply Nat.lt_le_trans; [|exact Hst].
        apply subset_size.
        assert (Hd : d ∈ (dom records : gset string))
          by (apply (elem_of_dom_2 _ _ next); exact Ed).
        split.
        + intros x Hx. apply elem_of_difference in Hx as [Hx1 Hx2].
          apply elem_of_difference. split; [exact Hx1|].
          intros Hx3. apply Hx2, elem_of_union. now right.
        + intros Hsup.
          assert (Hd' : d ∈ dom records ∖ seenIncludes st)
            by (apply elem_of_difference; now split).
          apply Hsup, elem_of_difference in Hd' as [_ Hd'].
          apply Hd', elem_of_union. left. now apply elem_of_singleton.
      - exists st1. split; [exact E1|]. cbn [seenIncludes] in Hsub.
        intros x Hx. apply Hsub, elem_of_union. now right. }
    destruct Hstep as (st1 & -> & Hsub1).
    destruct (IH st1) as (st' & E & Hsub).
    + etransitivity; [|exact Hst].
      apply subseteq_size. intros x Hx.
      apply elem_of_difference in Hx as [Hx1 Hx2].
      apply elem_of_difference. split; [exact Hx1|].
      intros Hx3. now apply Hx2, Hsub1.
    + exists st'. split; [exact E|]. now transitivity (seenIncludes st1).
Qed.

Lemma processRecord_returns (fuel : nat) :
  forall content st,
    (size (dom records ∖ seenIncludes st) < fuel)%nat ->
    exists st', processRecord fuel records content st = Ret st' /\
                seenIncludes st ⊆ seenIncludes st'.
Proof.
  induction fuel as [|fuel IH]; intros content st Hst; [lia|].
  cbn [processRecord].
  apply (fold_recordPart_returns (processRecord fuel records) fuel IH).
  lia.
Qed.

End CurrentAggregate.

Lemma NormalizeSPF_keeps_version (x : string) :
  HasPrefix x "v=spf1" = true ->
  exists y, NormalizeSPF x = Ok y /\ HasPrefix y "v=spf1" = true.
Proof.
  intros Hp.
  destruct (Fields_of_spf_record x Hp) as (p0 & rest & HF & _ & _ & Hp0).
  exists (Join (normalizedList p0 rest) " ").
  split; [now apply NormalizeSPF_parts|].
  unfold normalizedList. rewrite <- app_comm_cons.
  now apply Join_cons_prefix.
Qed.

(** [aggregateCurrentSPF] returns whatever the records are: an [include:]
    is followed once only, so that records that include each other do not
    make it loop; a fuel above the number of records is enough.  Its
    result is the message [(No valid SPF record found on root)] exactly
    when the map has no record for the domain, and never the message
    [(Could not normalize existing record)]. *)
Theorem aggregateCurrentSPF_returns (fuel : nat)
    (records : gmap string string) (domain : string) :
  (size records < fuel)%nat ->
  exists current,
    aggregateCurrentSPF fuel records domain = Ret current /\
    current <> "(Could not normalize existing record)" /\
    (current = "(No valid SPF record found on root)"
     <-> records !! domain = None).
Proof.
  intros Hfuel. unfold aggregateCurrentSPF.
  destruct (records !! domain) as [rootSPF|] eqn:Eroot.
  - destruct (processRecord_returns records fuel rootSPF (mkAggState [] ∅))
      as (st & -> & _).
    { cbn [seenIncludes]. eapply Nat.le_lt_trans; [|exact Hfuel].
      rewrite <- (size_dom (D := gset string)). apply subseteq_size.
      intros x Hx. now apply elem_of_difference in Hx as [Hx _]. }
    rewrite bind_Ret.
    destruct (NormalizeSPF_keeps_version
                ("v=spf1 " +:+ Join (aggregatedMechanisms st) " " +:+ " ~all"))
      as (y & -> & Hy); [reflexivity|].
    exists y. split; [reflexivity|].
    split; [intros ->; discriminate Hy|].
    split; [intros ->; discriminate Hy|discriminate].
  - eexists. split; [reflexivity|]. split; [discriminate|]. now split.
Qed.

Lemma aggregateCurrentSPF_returns_witness :
  (size ({[ "example.org" := "v=spf1 include:spf0.example.org ~all";
            "spf0.example.org" := "v=spf1 ip4:192.0.2.1 include:example.org ~all" ]}
         : gmap string string) < 3)%nat /\
  exists current,
    aggregateCurrentSPF 3
      {[ "example.org" := "v=spf1 include:spf0.example.org ~all";
         "spf0.example.org" := "v=spf1 ip4:192.0.2.1 include:example.org ~all" ]}
      "example.org" = Ret current /\
    current <> "(Could not normalize existing record)" /\
    (current = "(No valid SPF record found on root)"
     <-> ({[ "example.org" := "v=spf1 include:spf0.example.org ~all";
             "spf0.example.org" := "v=spf1 ip4:192.0.2.1 include:example.org ~all" ]}
          : gmap string string) !! "example.org" = None).
Proof.
  assert (Hsize :
    (size ({[ "example.org" := "v=spf1 include:spf0.example.org ~all";
              "spf0.example.org" := "v=spf1 ip4:192.0.2.1 include:example.org ~all" ]}
           : gmap string string) < 3)%nat) by (vm_compute; lia).
  split; [exact Hsize|].
  apply (aggregateCurrentSPF_returns 3 _ "example.org" Hsize).
Defined.

(** ** What is published is recognised at the next run *)

Lemma Fields_app_space a b :
  Fields (a +:+ String " " b) = Fields a ++ Fields b.
Proof.
  induction a as [|c a IH].
  - reflexivity.
  - change (String c a +:+ String " " b) with (String c (a +:+ String " " b)).
    destruct (isSpace c) eqn:Hc.
    + cbn [Fields]. rewrite Hc. exact IH.
    + destruct a as [|c' a'].
      * change (EmptyString +:+ String " " b) with (String " " b).
        cbn [Fields]. rewrite Hc. reflexivity.
      * change (String c' a' +:+ String " " b)
          with (String c' (a' +:+ String " " b)) in *.
        destruct (isSpace c') eqn:Hc'.
        -- change (Fields (String c (String c' (a' +:+ String " " b))))
             with (if isSpace c then Fields (String c' (a' +:+ String " " b))
                   else if isSpace c'
                        then String c EmptyString
                               :: Fields (String c' (a' +:+ String " " b))
                        else match Fields (String c' (a' +:+ String " " b)) with
                             | t :: ts => String c t :: ts
                             | [] => [String c EmptyString]
                             end).
           change (Fields (String c (String c' a')))
             with (if isSpace c then Fields (String c' a')
                   else if isSpace c'
                        then String c EmptyString :: Fields (String c' a')
                        else match Fields (String c' a') with
                             | t :: ts => String c t :: ts
                             | [] => [String c EmptyString]
                             end).
           rewrite Hc, Hc', IH. reflexivity.
        -- rewrite !Fields_cons2 by assumption. rewrite IH.
           destruct (Fields (String c' a')) as [|t ts] eqn:E;
             [now apply Fields_nonspace_nonempty in E|reflexivity].
Qed.

Lemma Join_snoc (l : list string) (t : string) :
  l <> [] -> Join (l ++ [t]) " " = Join l " " +:+ " " +:+ t.
Proof.
  unfold Join. induction l as [|x l IH]; [congruence|]. intros _.
  destruct l as [|y l'].
  - reflexivity.
  - change ((x :: y :: l') ++ [t]) with (x :: y :: (l' ++ [t])).
    change (String.concat " " (x :: y :: l' ++ [t]))
      with (x +:+ " " +:+ String.concat " " ((y :: l') ++ [t])).
    rewrite IH by discriminate.
    change (String.concat " " (x :: y :: l'))
      with (x +:+ " " +:+ String.concat " " (y :: l')).
    now rewrite !append_assoc_s.
Qed.

Lemma take_drop_bytes n :
  forall s, takeBytes n s +:+ dropBytes n s = s.
Proof.
  induction n as [|n IH]; intros s; [reflexivity|].
  destruct s as [|c s]; [reflexivity|].
  cbn [takeBytes dropBytes].
  change (String c (takeBytes n s) +:+ dropBytes n s)
    with (String c (takeBytes n s +:+ dropBytes n s)).
  now rewrite IH.
Qed.

Lemma HasSuffix_split s suffix :
  HasSuffix s suffix = true -> exists s1, s = s1 +:+ suffix.
Proof.
  unfold HasSuffix. intros H. apply andb_prop in H as [_ H].
  apply String.eqb_eq in H.
  exists (takeBytes (len s - len suffix) s).
  rewrite <- H at 2. symmetry. apply take_drop_bytes.
Qed.

Lemma append_inj_tail a :
  forall b c d, a +:+ c = b +:+ d -> len c = len d -> a = b /\ c = d.
Proof.
  induction a as [|x a IH]; intros [|y b] c d E Hl.
  - now split.
  - exfalso. apply (f_equal len) in E. rewrite !len_app in E.
    unfold len in *. simpl in E. lia.
  - exfalso. apply (f_equal len) in E. rewrite !len_app in E.
    unfold len in *. simpl in E. lia.
  - simpl in E. injection E as -> E.
    destruct (IH b c d E Hl) as [-> ->]. now split.
Qed.

Lemma HasSuffix_after_dot (p domain : string) :
  HasSuffix domain "all" = false ->
  HasSuffix (p +:+ "." +:+ domain) "all" = false.
Proof.
  intros Hd. destruct (HasSuffix (p +:+ "." +:+ domain) "all") eqn:E;
    [exfalso|reflexivity].
  apply HasSuffix_split in E as [y E].
  destruct domain as [|c1 [|c2 [|c3 rest]]].
  - change (p +:+ "." +:+ EmptyString) with (p +:+ ".") in E.
    replace (y +:+ "all") with ((y +:+ "al") +:+ "l") in E
      by now rewrite append_assoc_s.
    apply append_inj_tail in E as [_ E]; [discriminate|reflexivity].
  - replace (y +:+ "all") with ((y +:+ "a") +:+ "ll") in E
      by now rewrite append_assoc_s.
    apply append_inj_tail in E as [_ E]; [discriminate|reflexivity].
  - apply append_inj_tail in E as [_ E]; [discriminate|reflexivity].
  - set (d := String c1 (String c2 (String c3 rest))) in *.
    rewrite <- (take_drop_bytes (len d - 3) d) in E.
    rewrite <- !append_assoc_s in E.
    apply append_inj_tail in E as [_ E].
    + unfold HasSuffix in Hd. change (len "all") with 3%nat in Hd.
      rewrite E, String.eqb_refl, andb_true_r in Hd.
      apply Nat.leb_gt in Hd. unfold d, len in Hd. simpl in Hd. lia.
    + assert (Hl : len (takeBytes (len d - 3) d +:+ dropBytes (len d - 3) d)
                   = len d) by now rewrite take_drop_bytes.
      rewrite len_app, len_takeBytes_eq in Hl.
      assert (3 <= len d)%nat by (unfold d, len; simpl; lia).
      change (len "all") with 3%nat. lia.
Qed.

Lemma noSpace_app a b :
  noSpace a = true -> noSpace b = true -> noSpace (a +:+ b) = true.
Proof.
  intros Ha Hb. induction a as [|c a IH]; [exact Hb|].
  apply noSpace_cons in Ha as [Hc Ha].
  change (String c a +:+ b) with (String c (a +:+ b)).
  cbn [noSpace]. now rewrite Hc, IH.
Qed.

Lemma digits_noSpace s : leadingDigits s = s -> noSpace s = true.
Proof.
  induction s as [|c s IH]; intros E; [reflexivity|].
  apply leadingDigits_cons in E as [Hd Hs].
  cbn [noSpace]. rewrite (IH Hs), andb_true_r.
  unfold isDigit in Hd. unfold isSpace.
  apply andb_prop in Hd as [H1 H2].
  apply Nat.leb_le in H1. apply Nat.leb_le in H2.
  destruct (Nat.leb_spec 9 (nat_of_ascii c)); cbn [andb];
    destruct (Nat.leb_spec (nat_of_ascii c) 13); cbn [andb orb negb];
    try lia;
    destruct (Nat.eqb_spec (nat_of_ascii c) 32); cbn [negb]; (lia || reflexivity).
Qed.

Lemma include_token (domain : string) (k : nat) :
  noSpace domain = true ->
  isToken ("include:" +:+ spfName domain k).
Proof.
  intros Hd. split; [discriminate|].
  unfold spfName.
  apply (noSpace_app "include:"); [reflexivity|].
  apply (noSpace_app "spf"); [reflexivity|].
  apply noSpace_app; [apply digits_noSpace, leadingDigits_Itoa|].
  now apply (noSpace_app ".").
Qed.

Lemma include_not_all (domain : string) (k : nat) :
  HasSuffix domain "all" = false ->
  HasSuffix ("include:" +:+ spfName domain k) "all" = false.
Proof.
  intros Hd. unfold spfName.
  replace ("include:" +:+ "spf" +:+ Itoa k +:+ "." +:+ domain)
    with (("include:spf" +:+ Itoa k) +:+ "." +:+ domain)
    by now rewrite append_assoc_s.
  now apply HasSuffix_after_dot.
Qed.

Lemma chainLink_include (domain : string) (n i : nat) :
  (i < n - 1)%nat ->
  chainLink domain n i
  = String " " (("include:" +:+ spfName domain (i + 1)) +:+ String " " "~all").
Proof.
  intros Hi. unfold chainLink, spfName.
  destruct (Nat.ltb_spec i (n - 1)); [|lia].
  change (" include:spf" +:+ Itoa (i + 1) +:+ "." +:+ domain +:+ " ~all")
    with (String " " ("include:spf" +:+ Itoa (i + 1) +:+ "." +:+ domain
                        +:+ " ~all")).
  f_equal.
  change ("include:" +:+ "spf" +:+ Itoa (i + 1) +:+ "." +:+ domain)
    with ("include:spf" +:+ Itoa (i + 1) +:+ "." +:+ domain).
  now rewrite !append_assoc_s.
Qed.

Lemma chainLink_last (domain : string) (n i : nat) :
  (n - 1 <= i)%nat -> chainLink domain n i = " ~all".
Proof.
  intros Hi. unfold chainLink. destruct (Nat.ltb_spec i (n - 1)); [lia|].
  reflexivity.
Qed.

Lemma packedRecord_Fields (group : list string) :
  Forall isToken group -> Fields (packedRecord group) = "v=spf1" :: group.
Proof.
  intros Hg. unfold packedRecord. apply Fields_Join.
  constructor; [split; [discriminate|reflexivity]|exact Hg].
Qed.

Lemma flattenedRecord_Fields (mechanisms : list string) :
  Forall isToken mechanisms ->
  Fields (flattenedRecord mechanisms) = "v=spf1" :: mechanisms ++ ["~all"].
Proof.
  intros Hm. unfold flattenedRecord.
  change ("v=spf1 " +:+ Join mechanisms " " +:+ " ~all")
    with ("v=spf1" +:+ String " " (Join mechanisms " " +:+ String " " "~all")).
  rewrite Fields_token_sep by (split; [discriminate|reflexivity]).
  rewrite Fields_app_space, Fields_Join by exact Hm. reflexivity.
Qed.

Section ReadChain.

Variable records : gmap string string.
Variable recurse : string -> aggState -> run aggState.

Lemma fold_recordPart_app (l1 l2 : list string) (acc : run aggState) :
  fold_left (fun acc part => st ← acc; recordPart recurse records st part)
            (l1 ++ l2) acc
  = fold_left (fun acc part => st ← acc; recordPart recurse records st part)
              l2
              (fold_left
                 (fun acc part => st ← acc; recordPart recurse records st part)
                 l1 acc).
Proof. apply fold_left_app. Qed.

Lemma fold_recordPart_plain (group : list string) :
  Forall plainMechanism group ->
  forall st,
    fold_left (fun acc part => st ← acc; recordPart recurse records st part)
              group (Ret st)
    = Ret (mkAggState (aggregatedMechanisms st ++ group) (seenIncludes st)).
Proof.
  induction 1 as [|t group (_ & Hv & Ha & Hi) _ IH]; intros st.
  - cbn [fold_left]. rewrite app_nil_r. now destruct st.
  - cbn [fold_left]. rewrite bind_Ret. unfold recordPart at 2.
    rewrite Hv, Ha, Hi. cbn [orb]. rewrite IH.
    cbn [aggregatedMechanisms seenIncludes]. now rewrite <- app_assoc.
Qed.

Lemma recordPart_include (st : aggState) (name next : string) :
  HasSuffix ("include:" +:+ name) "all" = false ->
  name ∉ seenIncludes st ->
  records !! name = Some next ->
  recordPart recurse records st ("include:" +:+ name)
  = recurse next (mkAggState (aggregatedMechanisms st)
                             ({[ name ]} ∪ seenIncludes st)).
Proof.
  intros Ha Hseen Hnext. unfold recordPart.
  change (HasPrefix ("include:" +:+ name) "v=spf1") with false.
  rewrite Ha. cbn [orb].
  rewrite (HasPrefix_refl_app "include:" name).
  assert (Et : TrimPrefix ("include:" +:+ name) "include:" = name).
  { unfold TrimPrefix. rewrite HasPrefix_refl_app. apply dropBytes_app. }
  rewrite Et. rewrite bool_decide_eq_false_2 by exact Hseen.
  cbn [aggregatedMechanisms seenIncludes]. now rewrite Hnext.
Qed.

End ReadChain.

Section ReadChainRecords.

Variable records : gmap string string.
Variable domain : string.
Variable groups : list (list string).

Hypothesis domain_noSpace : noSpace domain = true.
Hypothesis domain_not_all : HasSuffix domain "all" = false.
Hypothesis groups_plain : Forall (Forall plainMechanism) groups.
Hypothesis groups_published :
  forall i group,
    nth_error groups i = Some group ->
    records !! spfName domain i
    = Some (packedRecord group +:+ chainLink domain (length groups) i).

Lemma plain_tokens (group : list string) :
  Forall plainMechanism group -> Forall isToken group.
Proof. apply List.Forall_impl. now intros t (Ht & _). Qed.

Lemma processRecord_chain (k : nat) :
  forall i group fuel st,
    nth_error groups i = Some group ->
    length groups = (i + k)%nat ->
    (k <= fuel)%nat ->
    (forall j, (i < j)%nat -> spfName domain j ∉ seenIncludes st) ->
    exists seen,
      processRecord fuel records
        (packedRecord group +:+ chainLink domain (length groups) i) st
      = Ret (mkAggState (aggregatedMechanisms st ++ concat (skipn i groups))
                        seen).
Proof.
  induction k as [|k IH]; intros i group fuel st Hi Hlen Hfuel Hseen.
  { exfalso. assert (i < length groups)%nat
      by (apply nth_error_Some; congruence). lia. }
  destruct fuel as [|fuel]; [lia|].
  assert (Hplain : Forall plainMechanism group).
  { rewrite List.Forall_forall in groups_plain. apply groups_plain.
    eapply nth_error_In, Hi. }
  assert (Hskip : skipn i groups = group :: skipn (S i) groups).
  { clear - Hi. revert i Hi. induction groups as [|g gs IHg]; intros [|i] Hi;
      try discriminate.
    - now injection Hi as ->.
    - cbn [skipn]. now apply IHg. }
  cbn [processRecord].
  destruct (Nat.eq_dec k 0) as [->|Hk].
  - rewrite chainLink_last by lia.
    change (packedRecord group +:+ " ~all")
      with (packedRecord group +:+ String " " "~all").
    rewrite Fields_app_space, packedRecord_Fields
      by (now apply plain_tokens).
    change (Fields "~all") with ["~all"].
    change (("v=spf1" :: group) ++ ["~all"])
      with (["v=spf1"] ++ (group ++ ["~all"])).
    rewrite fold_recordPart_app. cbn [fold_left]. rewrite bind_Ret.
    change (recordPart (processRecord fuel records) records st "v=spf1")
      with (Ret st).
    rewrite fold_recordPart_app, (fold_recordPart_plain _ _ group Hplain).
    cbn [fold_left]. rewrite bind_Ret.
    exists (seenIncludes st).
    rewrite Hskip. cbn [concat].
    assert (Hnil : skipn (S i) groups = []) by (apply skipn_all2; lia).
    rewrite Hnil. cbn [concat]. now rewrite app_nil_r.
  - rewrite chainLink_include by lia.
    rewrite Fields_app_space, packedRecord_Fields
      by (now apply plain_tokens).
    rewrite Fields_token_sep by (now apply include_token).
    change (Fields "~all") with ["~all"].
    change (("v=spf1" :: group)
              ++ ["include:" +:+ spfName domain (i + 1); "~all"])
      with (["v=spf1"] ++ (group
              ++ ["include:" +:+ spfName domain (i + 1); "~all"])).
    rewrite fold_recordPart_app. cbn [fold_left]. rewrite bind_Ret.
    change (recordPart (processRecord fuel records) records st "v=spf1")
      with (Ret st).
    rewrite fold_recordPart_app, (fold_recordPart_plain _ _ group Hplain).
    cbn [fold_left]. rewrite bind_Ret.
    destruct (nth_error groups (i + 1)) as [next|] eqn:Enext;
      [|apply nth_error_None in Enext; lia].
    rewrite (recordPart_include _ _
               (mkAggState (aggregatedMechanisms st ++ group) (seenIncludes st))
               _ _
               (include_not_all domain (i + 1) domain_not_all)
               ltac:(cbn [seenIncludes]; apply Hseen; lia)
               (groups_published _ _ Enext)).
    cbn [aggregatedMechanisms seenIncludes].
    destruct (IH (i + 1)%nat next fuel
                 (mkAggState (aggregatedMechanisms st ++ group)
                             ({[spfName domain (i + 1)]} ∪ seenIncludes st))
                 Enext ltac:(lia) ltac:(lia)) as (seen & ->).
    + intros j Hj. cbn [seenIncludes]. intros Hin.
      apply elem_of_union in Hin as [Hin|Hin].
      * apply elem_of_singleton, spfName_inj in Hin. lia.
      * revert Hin. apply Hseen. lia.
    + rewrite bind_Ret.
      change (recordPart (processRecord fuel records) records ?s "~all")
        with (Ret s).
      exists seen. cbn [aggregatedMechanisms].
      rewrite Hskip. cbn [concat].
      replace (i + 1)%nat with (S i) by lia. now rewrite <- app_assoc.
Qed.

End ReadChainRecords.

Lemma fold_packStep_groups (domain : string) (nparts : nat)
    (l : list (nat * string)) :
  (forall i part,
     In (i, part) l ->
     (i < nparts - 1)%nat /\ (len part + len domain + 26 <= 255)%nat) ->
  forall groups group,
    Forall (fitsChain domain) groups -> fitsChain domain group ->
    exists groups' group',
      fold_left (packStep domain "v=spf1" nparts) l
                (mkPackState (map packedRecord groups) (packedRecord group))
      = mkPackState (map packedRecord groups') (packedRecord group') /\
      concat groups' ++ group' = (concat groups ++ group) ++ map snd l /\
      Forall (fitsChain domain) groups' /\ fitsChain domain group'.
Proof.
  induction l as [|[i part] l IH]; intros Hl groups group Hgs Hg.
  - exists groups, group. cbn [fold_left map]. now rewrite app_nil_r.
  - destruct (Hl i part (or_introl eq_refl)) as [Hi Hfit].
    assert (Hl' : forall i part,
              In (i, part) l ->
              (i < nparts - 1)%nat /\ (len part + len domain + 26 <= 255)%nat)
      by (intros j p Hin; apply Hl; now right).
    cbn [fold_left]. unfold packStep at 2.
    destruct (Nat.ltb_spec i (nparts - 1)) as [_|]; [|lia].
    cbn [records currentRecord].
    assert (Hest : len (" include:spfX." +:+ domain +:+ " ~all")
                   = (len domain + 19)%nat).
    { rewrite !len_app. change (len " include:spfX.") with 14%nat.
      change (len " ~all") with 5%nat. lia. }
    rewrite Hest.
    destruct (Nat.ltb_spec maxSPFChars
                (len (packedRecord group) + len part + 1 + (len domain + 19)))
      as [Hflush|Hkeep]; cbn [records currentRecord].
    + destruct (IH Hl' (groups ++ [group]) [part])
        as (groups' & group' & E & Hcat & Hgs' & Hg').
      * apply Forall_app. split; [exact Hgs|now constructor].
      * unfold fitsChain, packedRecord, Join. cbn [String.concat].
        rewrite !len_app. change (len "v=spf1") with 6%nat.
        change (len " ") with 1%nat. lia.
      * exists groups', group'. rewrite map_app in E. cbn [map] in E.
        split; [exact E|]. split; [|now split].
        rewrite Hcat, concat_app. cbn [concat map snd].
        now rewrite app_nil_r, <- !app_assoc.
    + assert (Esnoc : packedRecord group +:+ " " +:+ part
                      = packedRecord (group ++ [part])).
      { unfold packedRecord.
        change ("v=spf1" :: group ++ [part])
          with (("v=spf1" :: group) ++ [part]).
        now rewrite Join_snoc by discriminate. }
      rewrite Esnoc.
      destruct (IH Hl' groups (group ++ [part]))
        as (groups' & group' & E & Hcat & Hgs' & Hg').
      * exact Hgs.
      * unfold fitsChain. rewrite <- Esnoc, !len_app.
        change (len " ") with 1%nat. unfold maxSPFChars in Hkeep. lia.
      * exists groups', group'. split; [exact E|]. split; [|now split].
        rewrite Hcat. cbn [map snd]. now rewrite <- !app_assoc.
Qed.

Lemma fold_chainStep_exact (domain : string) (n : nat) (recs : list string) :
  forall s acc,
    (forall i r,
       nth_error recs i = Some r ->
       (len r + len (chainLink domain n (s + i)) <= maxSPFChars)%nat) ->
    exists m,
      fold_left (chainStep domain n) (combine (seq s (length recs)) recs)
                (Ret acc) = Ret m /\
      (forall i r,
         nth_error recs i = Some r ->
         m !! spfName domain (s + i)
         = Some (r +:+ chainLink domain n (s + i))) /\
      (forall k,
         (forall i, (i < length recs)%nat -> k <> spfName domain (s + i)) ->
         m !! k = acc !! k).
Proof.
  induction recs as [|r recs IH]; intros s acc Hfit.
  - exists acc. split; [reflexivity|]. split; [|reflexivity].
    intros [|i] r0 Hr; discriminate Hr.
  - cbn [length seq combine fold_left].
    pose proof (Hfit 0%nat r eq_refl) as Hr. rewrite Nat.add_0_r in Hr.
    assert (Estep : chainStep domain n (Ret acc) (s, r)
                    = Ret (<[spfName domain s := r +:+ chainLink domain n s]>
                             acc)).
    { unfold chainStep. rewrite bind_Ret.
      fold (spfName domain s). fold (chainLink domain n s).
      destruct (Nat.ltb_spec maxSPFChars (len (chainLink domain n s)));
        [lia|].
      destruct (Nat.ltb_spec (maxSPFChars - len (chainLink domain n s))
                             (len r)); [lia|reflexivity]. }
    rewrite Estep.
    destruct (IH (S s) (<[spfName domain s := r +:+ chainLink domain n s]> acc))
      as (m & E & Hent & Hother).
    { intros i r0 Hr0. replace (S s + i)%nat with (s + S i)%nat by lia.
      now apply Hfit. }
    exists m. split; [exact E|]. split.
    + intros [|i] r0 Hr0.
      * injection Hr0 as <-. rewrite Nat.add_0_r. rewrite Hother.
        -- apply lookup_insert_eq.
        -- intros j _ Ej. apply spfName_inj in Ej. lia.
      * replace (s + S i)%nat with (S s + i)%nat by lia. now apply Hent.
    + intros k Hk. rewrite Hother.
      * apply lookup_insert_ne. intros Ek. apply (Hk 0%nat); [cbn; lia|].
        now rewrite Nat.add_0_r.
      * intros i Hi. replace (S s + i)%nat with (s + S i)%nat by lia.
        apply Hk. cbn [length]. lia.
Qed.

Lemma chainLink_len (domain : string) (n i : nat) :
  (n <= 10)%nat -> (len (chainLink domain n i) <= len domain + 19)%nat.
Proof.
  intros Hn. unfold chainLink. destruct (Nat.ltb_spec i (n - 1)).
  - rewrite !len_app. change (len " include:spf") with 12%nat.
    change (len ".") with 1%nat. change (len " ~all") with 5%nat.
    pose proof (Itoa_len (i + 1) 1 ltac:(lia) ltac:(lia)). lia.
  - change (len " ~all") with 5%nat. lia.
Qed.

Lemma map_snd_indexed {A} (l : list A) : map snd (indexed l) = l.
Proof.
  unfold indexed. generalize 0%nat.
  induction l as [|x l IH]; intros s; [reflexivity|].
  cbn [length seq combine map snd]. now rewrite IH.
Qed.

Lemma flattenedRecord_trimmed (mechanisms : list string) :
  Forall plainMechanism mechanisms ->
  Fields (TrimSuffix (TrimSuffix (flattenedRecord mechanisms) " ~all") " -all")
  = "v=spf1" :: mechanisms.
Proof.
  intros Hm. unfold flattenedRecord.
  rewrite <- append_assoc_s, TrimSuffix_app.
  assert (HF : Fields ("v=spf1 " +:+ Join mechanisms " ")
               = "v=spf1" :: mechanisms).
  { change ("v=spf1 " +:+ Join mechanisms " ")
      with ("v=spf1" +:+ String " " (Join mechanisms " ")).
    rewrite Fields_token_sep by (split; [discriminate|reflexivity]).
    rewrite Fields_Join; [reflexivity|].
    eapply List.Forall_impl; [|exact Hm]. now intros t (Ht & _). }
  unfold TrimSuffix.
  destruct (HasSuffix ("v=spf1 " +:+ Join mechanisms " ") " -all") eqn:E;
    [exfalso|exact HF].
  apply HasSuffix_split in E as [y E]. rewrite E in HF.
  change (y +:+ " -all") with (y +:+ String " " "-all") in HF.
  rewrite Fields_app_space in HF. change (Fields "-all") with ["-all"] in HF.
  assert (Hin : In "-all" ("v=spf1" :: mechanisms))
    by (rewrite <- HF; apply in_or_app; right; now left).
  destruct Hin as [Hin|Hin]; [discriminate Hin|].
  rewrite List.Forall_forall in Hm.
  destruct (Hm _ Hin) as (_ & _ & Hall & _). discriminate Hall.
Qed.

Lemma NormalizeSPF_normal (x : string) :
  HasPrefix x "v=spf1" = true ->
  exists y, NormalizeSPF x = Ok y /\ NormalizeSPF y = Ok y.
Proof.
  intros Hp.
  destruct (Fields_of_spf_record x Hp) as (p0 & rest & HF & H0 & Hr & Hp0).
  exists (Join (normalizedList p0 rest) " ").
  split; [now apply NormalizeSPF_parts|].
  pose proof (normalizedList_fixed p0 rest Hr) as Hfix.
  pose proof (normalizedList_tokens _ _ H0 Hr) as Htoks.
  destruct (normalizedList p0 rest) as [|q0 rest'] eqn:E; [contradiction|].
  destruct Hfix as [-> Hfix].
  rewrite (NormalizeSPF_parts _ p0 rest').
  - now rewrite Hfix.
  - now apply Join_cons_prefix.
  - now apply Fields_Join.
Qed.

Lemma fiftyAddresses_chained :
  exists chained,
    SplitAndChainSPF (flattenedRecord fiftyAddresses) "example.org"
    = Ret chained /\
    chained !! spfName "example.org" 10 = None.
Proof.
  apply (run_Ret_inv
           (SplitAndChainSPF (flattenedRecord fiftyAddresses) "example.org")
           (fun chained => chained !! spfName "example.org" 10 = None)).
  vm_compute. reflexivity.
Qed.

(** What the flatten command publishes is recognised at its next run.
    Let the flattened record be [v=spf1], mechanisms that are neither
    [include:] nor end in [all], and [~all], each mechanism short enough
    for a record of its own, and let the domain hold no white space and
    not end in [all].  When the chain [SplitAndChainSPF] makes of it has
    at most ten continuation records ([spf0] to [spf9]) and these records
    are the ones published, [aggregateCurrentSPF] reads from them the
    normal form of the flattened record, which [NormalizeSPF] leaves as it
    is: the two normal forms the command compares are equal, and it finds
    nothing to change. *)
Theorem aggregateCurrentSPF_SplitAndChainSPF (fuel : nat)
    (mechanisms : list string) (domain : string)
    (chained : gmap string string) :
  Forall plainMechanism mechanisms ->
  Forall (fun t => (len t + len domain + 26 <= 255)%nat) mechanisms ->
  noSpace domain = true ->
  HasSuffix domain "all" = false ->
  SplitAndChainSPF (flattenedRecord mechanisms) domain = Ret chained ->
  chained !! spfName domain 10 = None ->
  (11 <= fuel)%nat ->
  exists normalized,
    NormalizeSPF (flattenedRecord mechanisms) = Ok normalized /\
    NormalizeSPF normalized = Ok normalized /\
    aggregateCurrentSPF fuel chained domain = Ret normalized.
Proof.
  intros Hplain Hfit Hns Hall E H10 Hfuel.
  destruct (NormalizeSPF_normal (flattenedRecord mechanisms))
    as (normalized & Enorm & Enormal); [reflexivity|].
  exists normalized. split; [exact Enorm|]. split; [exact Enormal|].
  assert (Htok : Forall isToken mechanisms)
    by (eapply List.Forall_impl; [|exact Hplain]; now intros t (Ht & _)).
  destruct fuel as [|fuel]; [lia|].
  assert (Hdone : forall st : aggState,
            aggregatedMechanisms st = mechanisms ->
            match NormalizeSPF ("v=spf1 " +:+ Join (aggregatedMechanisms st) " "
                                  +:+ " ~all") with
            | Ok normalized => Ret normalized
            | Err _ => Ret "(Could not normalize existing record)"
            end = Ret normalized).
  { intros st ->. fold (flattenedRecord mechanisms). now rewrite Enorm. }
  unfold SplitAndChainSPF in E.
  destruct (Nat.leb_spec (len (flattenedRecord mechanisms)) maxSPFChars)
    as [Hshort|Hlong].
  - injection E as <-. unfold aggregateCurrentSPF.
    rewrite lookup_singleton_eq. cbn [processRecord].
    rewrite (flattenedRecord_Fields mechanisms Htok).
    change ("v=spf1" :: mechanisms ++ ["~all"])
      with (["v=spf1"] ++ (mechanisms ++ ["~all"])).
    rewrite fold_recordPart_app. cbn [fold_left]. rewrite bind_Ret.
    change (recordPart ?r ?m ?s "v=spf1") with (Ret s).
    rewrite fold_recordPart_app, (fold_recordPart_plain _ _ _ Hplain).
    cbn [fold_left]. rewrite !bind_Ret.
    change (recordPart ?r ?m ?s "~all") with (Ret s).
    rewrite bind_Ret. now apply Hdone.
  - rewrite (flattenedRecord_trimmed mechanisms Hplain) in E.
    assert (Hd : (len domain + 26 <= 255)%nat).
    { destruct mechanisms as [|t ms].
      - vm_compute in Hlong. lia.
      - inversion Hfit; subst. lia. }
    destruct (fold_packStep_groups domain (S (length mechanisms))
                (indexed mechanisms)) with (groups := @nil (list string))
                                          (group := @nil string)
      as (groups & group & Epack & Hcat & Hgs & Hg).
    { intros i part Hin. split.
      - apply indexed_bound in Hin. lia.
      - apply in_combine_r in Hin. rewrite List.Forall_forall in Hfit.
        now apply Hfit. }
    { constructor. }
    { unfold fitsChain. change (len (packedRecord [])) with 6%nat. lia. }
    change (map packedRecord []) with (@nil string) in Epack.
    change (packedRecord []) with "v=spf1" in Epack.
    rewrite Epack in E. cbn [records currentRecord] in E.
    rewrite map_snd_indexed in Hcat. cbn [concat app] in Hcat.
    set (G := groups ++ [group]).
    assert (EG : map packedRecord groups ++ [packedRecord group]
                 = map packedRecord G) by (unfold G; now rewrite map_app).
    rewrite EG in E.
    assert (HcatG : concat G = mechanisms).
    { unfold G. rewrite concat_app. cbn [concat]. now rewrite app_nil_r. }
    assert (HfitG : Forall (fitsChain domain) G).
    { unfold G. apply Forall_app. split; [exact Hgs|now constructor]. }
    assert (HplainG : Forall (Forall plainMechanism) G).
    { apply List.Forall_forall. intros g Hg'. apply List.Forall_forall.
      intros t Ht. rewrite List.Forall_forall in Hplain. apply Hplain.
      rewrite <- HcatG. apply in_concat. now exists g. }
    set (n := length (map packedRecord G)) in *.
    assert (En : n = length G) by (unfold n; apply length_map).
    unfold indexed in E.
    destruct (fold_left (chainStep domain n)
                (combine (seq 0 (length (map packedRecord G)))
                         (map packedRecord G)) (Ret ∅))
      as [m0| |] eqn:E0; try discriminate E.
    rewrite bind_Ret in E. injection E as <-.
    assert (Hn : (n <= 10)%nat).
    { destruct (Nat.le_gt_cases n 10) as [Hle|Hgt]; [exact Hle|exfalso].
      destruct (fold_chainStep_entries domain n (map packedRecord G) 0 ∅ m0 E0)
        as [Hent _].
      destruct (Hent 10%nat) as (body & Eb); [fold n; lia|].
      rewrite lookup_insert_ne in H10
        by (apply not_eq_sym, spfName_not_domain).
      congruence. }
    destruct (fold_chainStep_exact domain n (map packedRecord G) 0 ∅)
      as (m1 & E1 & Hent & _).
    { intros i r Hr. apply nth_error_In, in_map_iff in Hr as (g & <- & Hg').
      rewrite List.Forall_forall in HfitG. specialize (HfitG g Hg').
      unfold fitsChain in HfitG.
      pose proof (chainLink_len domain n (0 + i) Hn). unfold maxSPFChars.
      lia. }
    rewrite E0 in E1. injection E1 as <-.
    assert (Hpub : forall i g,
              nth_error G i = Some g ->
              (<[domain := "v=spf1 include:spf0." +:+ domain +:+ " ~all"]> m0)
                !! spfName domain i
              = Some (packedRecord g +:+ chainLink domain (length G) i)).
    { intros i g Hi. rewrite lookup_insert_ne
        by (apply not_eq_sym, spfName_not_domain).
      rewrite <- En. apply (Hent i (packedRecord g)).
      now apply map_nth_error. }
    destruct G as [|g0 G'] eqn:EGdef; [unfold G in EGdef; now destruct groups|].
    rewrite <- EGdef in *.
    assert (Hg0 : nth_error G 0 = Some g0) by now rewrite EGdef.
    unfold aggregateCurrentSPF. rewrite lookup_insert_eq.
    assert (Eroot : "v=spf1 include:spf0." +:+ domain +:+ " ~all"
                    = "v=spf1" +:+ String " "
                        (("include:" +:+ spfName domain 0)
                           +:+ String " " "~all")).
    { unfold spfName. change (Itoa 0) with "0".
      change ("include:" +:+ "spf" +:+ "0" +:+ "." +:+ domain)
        with ("include:spf0." +:+ domain).
      now rewrite append_assoc_s. }
    rewrite Eroot at 2. cbn [processRecord].
    rewrite Fields_token_sep by (split; [discriminate|reflexivity]).
    rewrite Fields_token_sep by (now apply include_token).
    change (Fields "~all") with ["~all"].
    cbn [fold_left]. rewrite bind_Ret.
    change (recordPart ?r ?m ?s "v=spf1") with (Ret s).
    rewrite bind_Ret.
    rewrite (recordPart_include _ _ (mkAggState [] ∅) _ _
               (include_not_all domain 0 Hall)
               ltac:(cbn [seenIncludes]; apply not_elem_of_empty)
               (Hpub 0%nat g0 Hg0)).
    cbn [aggregatedMechanisms seenIncludes].
    destruct (processRecord_chain _ domain G Hns Hall HplainG Hpub
                (length G) 0 g0 fuel
                (mkAggState [] ({[spfName domain 0]} ∪ ∅)) Hg0)
      as (seen & ->).
    + reflexivity.
    + lia.
    + intros j Hj. cbn [seenIncludes]. intros Hin.
      apply elem_of_union in Hin as [Hin|Hin].
      * apply elem_of_singleton, spfName_inj in Hin. lia.
      * now apply not_elem_of_empty in Hin.
    + rewrite bind_Ret.
      change (recordPart ?r ?m ?s "~all") with (Ret s).
      rewrite bind_Ret. apply Hdone.
      cbn [aggregatedMechanisms skipn app]. exact HcatG.
Qed.

Lemma aggregateCurrentSPF_SplitAndChainSPF_witness :
  Forall plainMechanism fiftyAddresses /\
  Forall (fun t => (len t + len "example.org" + 26 <= 255)%nat)
         fiftyAddresses /\
  exists chained normalized,
    SplitAndChainSPF (flattenedRecord fiftyAddresses) "example.org"
    = Ret chained /\
    chained !! spfName "example.org" 10 = None /\
    NormalizeSPF (flattenedRecord fiftyAddresses) = Ok normalized /\
    NormalizeSPF normalized = Ok normalized /\
    aggregateCurrentSPF 11 chained "example.org" = Ret normalized.
Proof.
  assert (Hplain : Forall plainMechanism fiftyAddresses).
  { apply List.Forall_forall. intros t Ht. apply repeat_spec in Ht as ->.
    repeat split; (discriminate || reflexivity). }
  assert (Hfit : Forall (fun t => (len t + len "example.org" + 26 <= 255)%nat)
                        fiftyAddresses).
  { apply List.Forall_forall. intros t Ht. apply repeat_spec in Ht as ->.
    vm_compute. lia. }
  split; [exact Hplain|]. split; [exact Hfit|].
  destruct fiftyAddresses_chained as (chained & E & H10).
  exists chained.
  destruct (aggregateCurrentSPF_SplitAndChainSPF 11 fiftyAddresses
              "example.org" chained Hplain Hfit eq_refl eq_refl E H10
              (le_n 11)) as (normalized & Enorm & Enormal & Eagg).
  exists normalized. now repeat split.
Defined.
